(** * youtube-transcript: a model of [src/index.ts] and its properties

    The module exports one operation, [YoutubeTranscript.fetchTranscript],
    and a private helper [retrieveVideoId].  The model follows the source
    statement by statement:

    - a JavaScript string is the list of its UTF-16 code units, so that
      [length] is the source's [.length];
    - the three regular expressions are terms of a small syntax, run by a
      backtracking matcher with the priorities of the ECMAScript matcher
      (leftmost start, first alternative first, greedy repetition);
    - [fetch] is an effect: a computation threads the log of the requests
      issued so far, and the network answers a request given that log;
    - exceptions are results: a computation ends in [Ok v] or [Throw e];
    - what the host provides ([JSON.parse], [parseFloat], the truth value of
      a number) is a variable of the section that holds the pipeline. *)

From Stdlib Require Import String Ascii.
From Stdlib Require Import List NArith Bool Arith Lia.
Import ListNotations.

Set Implicit Arguments.

(** ** Strings *)

(** A code unit and a string of code units. *)
Definition char := N.
Definition str := list char.

(** The code units of an ASCII literal. *)
Definition lit (x : string) : str :=
  List.map N_of_ascii (list_ascii_of_string x).

(** The double quote, which a literal of this file cannot hold. *)
Definition dq : char := 34%N.

(** [quoted x] is [x] between two double quotes. *)
Definition quoted (x : string) : str := dq :: lit x ++ [dq].

Definition char_eqb (a b : char) : bool := N.eqb a b.

Fixpoint str_eqb (a b : str) : bool :=
  match a, b with
  | [], [] => true
  | x :: a', y :: b' => char_eqb x y && str_eqb a' b'
  | _, _ => false
  end.

(** [strip_prefix p s] is what follows [p] when [s] starts with [p]. *)
Fixpoint strip_prefix (p s : str) : option str :=
  match p with
  | [] => Some s
  | x :: p' =>
      match s with
      | [] => None
      | y :: s' => if char_eqb x y then strip_prefix p' s' else None
      end
  end.

(** [String.prototype.includes]. *)
Fixpoint includes (s sep : str) : bool :=
  match strip_prefix sep s with
  | Some _ => true
  | None => match s with [] => false | _ :: s' => includes s' sep end
  end.

(** [cut sep s] cuts [s] at the first occurrence of [sep]: the text before
    it and the text after it. *)
Fixpoint cut (sep s : str) : option (str * str) :=
  match strip_prefix sep s with
  | Some rest => Some ([], rest)
  | None =>
      match s with
      | [] => None
      | c :: s' =>
          match cut sep s' with
          | Some (before, rest) => Some (c :: before, rest)
          | None => None
          end
      end
  end.

(** [String.prototype.split] with a separator that is not empty: the pieces
    between the occurrences, found left to right.  The bound [n] is a count of
    code units still to scan; [split] starts it above the length. *)
Fixpoint split_upto (n : nat) (sep s : str) : list str :=
  match n with
  | O => [s]
  | S n' =>
      match cut sep s with
      | Some (before, rest) => before :: split_upto n' sep rest
      | None => [s]
      end
  end.

Definition split (s sep : str) : list str := split_upto (S (length s)) sep s.

(** [String.prototype.replace(pattern, '')] with a string pattern: only the
    first occurrence goes. *)
Definition remove_first (pattern s : str) : str :=
  match cut pattern s with
  | Some (before, rest) => before ++ rest
  | None => s
  end.

(** ** Regular expressions *)

(** The syntax covers what the three expressions of the source use.  A
    literal code unit and a class are both [Chr]; [r+] is [Plus r], [r?] is
    [Opt r], [r{n}] is [Rep n r]. *)
Inductive regex : Type :=
| Eps : regex
| Chr : (char -> bool) -> regex
| Seq : regex -> regex -> regex
| Alt : regex -> regex -> regex
| Star : regex -> regex
| Group : nat -> regex -> regex.

Definition Plus (r : regex) : regex := Seq r (Star r).
Definition Opt (r : regex) : regex := Alt r Eps.

Fixpoint Rep (n : nat) (r : regex) : regex :=
  match n with
  | O => Eps
  | S n' => Seq r (Rep n' r)
  end.

Fixpoint Seqs (rs : list regex) : regex :=
  match rs with
  | [] => Eps
  | r :: rs' => Seq r (Seqs rs')
  end.

(** The captures of a match, most recent first. *)
Definition captures := list (nat * str).

Fixpoint capture (i : nat) (caps : captures) : option str :=
  match caps with
  | [] => None
  | (j, v) :: caps' => if Nat.eqb i j then Some v else capture i caps'
  end.

(** [m[i]] for a group that took part in the match. *)
Definition group (i : nat) (caps : captures) : str :=
  match capture i caps with
  | Some v => v
  | None => []
  end.

(** A successful match: its captures and the text after it. *)
Definition matched := (captures * str)%type.

(** The repetition of a matcher [step]: one more iteration, then the rest
    of the repetition, or else the continuation [k].  An iteration that
    consumes nothing is rejected, as in the ECMAScript RepeatMatcher, so the
    count [n] of iterations left, which starts above the length of the text,
    is never used up. *)
Fixpoint iterate
    (step : str -> captures -> (str -> captures -> option matched) -> option matched)
    (k : str -> captures -> option matched)
    (n : nat) (s : str) (caps : captures) : option matched :=
  match n with
  | O => k s caps
  | S n' =>
      match
        step s caps
          (fun s1 c1 =>
             if length s1 <? length s then iterate step k n' s1 c1 else None)
      with
      | Some m => Some m
      | None => k s caps
      end
  end.

(** The matcher runs [r] on the text [s] from its first code unit and hands
    the rest to the continuation [k]; [None] is failure, on which the caller
    backtracks. *)
Fixpoint rmatch (r : regex) (s : str) (caps : captures)
    (k : str -> captures -> option matched) {struct r} : option matched :=
  match r with
  | Eps => k s caps
  | Chr p =>
      match s with
      | c :: s' => if p c then k s' caps else None
      | [] => None
      end
  | Seq r1 r2 => rmatch r1 s caps (fun s1 c1 => rmatch r2 s1 c1 k)
  | Alt r1 r2 =>
      match rmatch r1 s caps k with
      | Some m => Some m
      | None => rmatch r2 s caps k
      end
  | Group i r1 =>
      rmatch r1 s caps
        (fun s1 c1 => k s1 ((i, firstn (length s - length s1) s) :: c1))
  | Star r1 => iterate (rmatch r1) k (S (length s)) s caps
  end.

Definition accept : str -> captures -> option matched :=
  fun rest caps => Some (caps, rest).

(** One attempt at the start of [s]. *)
Definition match_here (r : regex) (s : str) : option matched :=
  rmatch r s [] accept.

(** [String.prototype.match] with an expression that has no [g] flag: the
    first position, from the left, at which the expression matches. *)
Fixpoint regex_match (r : regex) (s : str) : option matched :=
  match match_here r s with
  | Some m => Some m
  | None =>
      match s with
      | [] => None
      | _ :: s' => regex_match r s'
      end
  end.

(** [String.prototype.matchAll] with a [g] expression whose [lastIndex] is 0
    (no statement of the module writes it): the successive matches, each
    search resuming where the previous match ended, or one code unit further
    after an empty match.  [skip] counts the code units of the current match
    that are still to be passed. *)
Fixpoint matchAll_from (r : regex) (skip : nat) (s : str) : list captures :=
  match skip with
  | S skip' =>
      match s with
      | [] => []
      | _ :: s' => matchAll_from r skip' s'
      end
  | O =>
      match match_here r s with
      | Some (caps, rest) =>
          caps ::
            match s with
            | [] => []
            | _ :: s' => matchAll_from r (length s - length rest - 1) s'
            end
      | None =>
          match s with
          | [] => []
          | _ :: s' => matchAll_from r 0 s'
          end
      end
  end.

Definition matchAll (r : regex) (s : str) : list captures :=
  matchAll_from r 0 s.

(** *** Classes *)

Definition one_of (x : str) : char -> bool := fun c => existsb (char_eqb c) x.

Definition none_of (x : str) : char -> bool := fun c => negb (one_of x c).

(** Canonicalize of the [i] flag without [u], on the code units below 128: a
    lower-case letter becomes its upper-case one.  A code unit from 128 on is
    never canonicalized to one below 128, so against the ASCII literals of
    [RE_YOUTUBE] nothing else is needed. *)
Definition canonicalize (c : char) : char :=
  if (97 <=? c)%N && (c <=? 122)%N then (c - 32)%N else c.

Definition is_ci (x : char) : char -> bool :=
  fun c => char_eqb (canonicalize c) (canonicalize x).

(** LineTerminator: what [.] leaves out. *)
Definition line_terminator (c : char) : bool :=
  existsb (char_eqb c) [10; 13; 8232; 8233]%N.

Definition dot : char -> bool := fun c => negb (line_terminator c).

(** WhiteSpace and LineTerminator: the class [\s]. *)
Definition white_space (c : char) : bool :=
  existsb (char_eqb c)
    [9; 10; 11; 12; 13; 32; 160; 5760; 8232; 8233; 8239; 8287; 12288; 65279]%N
  || ((8192 <=? c)%N && (c <=? 8202)%N).

(** A literal text, code unit by code unit; [Lit_ci] under the [i] flag. *)
Definition Lit (w : str) : regex := Seqs (List.map (fun x => Chr (char_eqb x)) w).
Definition Lit_ci (w : str) : regex := Seqs (List.map (fun x => Chr (is_ci x)) w).

Definition ch (a : ascii) : char := N_of_ascii a.

(** *** The expressions of the module *)

(** The class of the code units of an identifier: any code unit but the
    double quote, [&], [?], [/] and white space. *)
Definition id_char : char -> bool :=
  fun c => negb (one_of (dq :: lit "&?/") c || white_space c).

(** [RE_YOUTUBE], with the [i] flag (the double quote is written \x22 in
    the comments of this file):
<<
  (?:youtube\.com\/(?:[^\/]+\/.+\/|(?:v|e(?:mbed)?)\/|.*[?&]v=)|youtu\.be\/)([^\x22&?\/\s]{11})
>>
    No member of a class of this expression is a letter, so canonicalizing
    changes none of the classes. *)
Definition RE_YOUTUBE_path : regex :=
  Seqs [Plus (Chr (none_of (lit "/"))); Chr (is_ci (ch "/"));
        Plus (Chr dot); Chr (is_ci (ch "/"))].

Definition RE_YOUTUBE_embed : regex :=
  Seq (Alt (Chr (is_ci (ch "v")))
           (Seq (Chr (is_ci (ch "e"))) (Opt (Lit_ci (lit "mbed")))))
      (Chr (is_ci (ch "/"))).

Definition RE_YOUTUBE_query : regex :=
  Seqs [Star (Chr dot); Chr (one_of (lit "?&")); Lit_ci (lit "v=")].

Definition RE_YOUTUBE_prefix : regex :=
  Alt
    (Seq (Lit_ci (lit "youtube.com/"))
       (Alt RE_YOUTUBE_path (Alt RE_YOUTUBE_embed RE_YOUTUBE_query)))
    (Lit_ci (lit "youtu.be/")).

Definition RE_YOUTUBE : regex :=
  Seq RE_YOUTUBE_prefix (Group 1 (Rep 11 (Chr id_char))).

Definition USER_AGENT : str :=
  lit "Mozilla/5.0 (Macintosh; Intel Mac OS X 10_15_4) AppleWebKit/537.36 (KHTML, like Gecko) Chrome/85.0.4183.83 Safari/537.36,gzip(gfe)".

(** [RE_XML_TRANSCRIPT], with the [g] flag (a blank is added here inside
    the parentheses of each group):
<<
  <text start=\x22( [^\x22]* )\x22 dur=\x22( [^\x22]* )\x22>( [^<]* )<\/text>
>> *)
Definition RE_XML_TRANSCRIPT : regex :=
  Seqs [Lit (lit "<text start=" ++ [dq]);
        Group 1 (Star (Chr (none_of [dq])));
        Lit (dq :: lit " dur=" ++ [dq]);
        Group 2 (Star (Chr (none_of [dq])));
        Lit (dq :: lit ">");
        Group 3 (Star (Chr (none_of (lit "<"))));
        Lit (lit "</text>")].

(** The expression of the fallback extraction:
<<
  \x22captions\x22:\s*({[^}]+})
>> *)
Definition RE_CAPTIONS : regex :=
  Seqs [Lit (quoted "captions" ++ lit ":");
        Star (Chr white_space);
        Group 1 (Seqs [Chr (char_eqb (ch "{")); Plus (Chr (none_of (lit "}")));
                       Chr (char_eqb (ch "}"))])].

(** ** Values *)

(** A JavaScript value as [JSON.parse] builds it, and [undefined].  A number
    is kept as the numeral it was read from: the module does no arithmetic on
    a parsed number, it only tests its truth value and passes it on.  The
    fields of an object are in source order; a later field of the same name
    overrides an earlier one. *)
#[local] Set Warnings "-register-all".
Inductive value : Type :=
| VUndefined : value
| VNull : value
| VBool : bool -> value
| VNumber : str -> value
| VString : str -> value
| VArray : list value -> value
| VObject : list (str * value) -> value.
#[local] Set Warnings "register-all".

Fixpoint property (key : str) (fields : list (str * value)) : option value :=
  match fields with
  | [] => None
  | (k, v) :: fields' =>
      match property key fields' with
      | Some v' => Some v'
      | None => if str_eqb k key then Some v else None
      end
  end.

(** ** Errors *)

(** What a [throw] carries: an instance of one of the classes of the module,
    with the arguments of its constructor, or an exception of the runtime. *)
Inductive runtime_error : Type := TypeError | SyntaxError | NetworkError.

Inductive exn : Type :=
| YoutubeTranscriptError (message : str)
| YoutubeTranscriptTooManyRequestError
| YoutubeTranscriptVideoUnavailableError (videoId : str)
| YoutubeTranscriptDisabledError (videoId : str)
| YoutubeTranscriptNotAvailableError (videoId : str)
| YoutubeTranscriptNotAvailableLanguageError
    (lang : str) (availableLangs : list value) (videoId : str)
| Runtime (e : runtime_error).

(** [e instanceof YoutubeTranscriptError]. *)
Definition is_YoutubeTranscriptError (e : exn) : bool :=
  match e with
  | Runtime _ => false
  | _ => true
  end.

(** [e] is an instance of a class that extends [YoutubeTranscriptError]. *)
Definition is_subclass_instance (e : exn) : bool :=
  match e with
  | Runtime _ | YoutubeTranscriptError _ => false
  | _ => true
  end.

Inductive outcome (A : Type) : Type :=
| Ok (a : A)
| Throw (e : exn).

Arguments Throw {A} e.

Definition obind {A B : Type} (c : outcome A) (k : A -> outcome B) : outcome B :=
  match c with
  | Ok a => k a
  | Throw e => Throw e
  end.

Notation "x <~ c ;; k" := (obind c (fun x => k))
  (at level 61, c at next level, right associativity).

(** ** The identifier *)

Definition retrieveVideoId (videoId : str) : outcome str :=
  if length videoId =? 11 then Ok videoId
  else
    match regex_match RE_YOUTUBE videoId with
    | Some (matchId, _) => Ok (group 1 matchId)
    | None =>
        Throw (YoutubeTranscriptError (lit "Impossible to retrieve Youtube video ID."))
    end.

Definition ok_id (x : string) : outcome str := Ok (lit x).

(** ** Reading values *)

(** [v.key] for the keys the module reads ([captions],
    [playerCaptionsTracklistRenderer], [captionTracks], [languageCode],
    [baseUrl]): none of them is a property of a string, a number, a boolean
    or an array, nor of [Object.prototype]. *)
Definition get (v : value) (key : str) : outcome value :=
  match v with
  | VUndefined | VNull => Throw (Runtime TypeError)
  | VObject fields =>
      Ok match property key fields with Some x => x | None => VUndefined end
  | _ => Ok VUndefined
  end.

(** [v?.key]. *)
Definition optional_get (v : value) (key : str) : outcome value :=
  match v with
  | VUndefined | VNull => Ok VUndefined
  | _ => get v key
  end.

(** [v[0]]. *)
Definition get0 (v : value) : outcome value :=
  match v with
  | VUndefined | VNull => Throw (Runtime TypeError)
  | VArray items => Ok (nth 0 items VUndefined)
  | VString (c :: _) => Ok (VString [c])
  | VObject fields =>
      Ok match property (lit "0") fields with Some x => x | None => VUndefined end
  | _ => Ok VUndefined
  end.

(** [key in v], for a key that is neither an index nor [length]. *)
Definition has (key : str) (v : value) : outcome bool :=
  match v with
  | VObject fields =>
      Ok match property key fields with Some _ => true | None => false end
  | VArray _ => Ok false
  | _ => Throw (Runtime TypeError)
  end.

(** [v === lang] for a string [lang]. *)
Definition strict_eq (v : value) (lang : str) : bool :=
  match v with
  | VString s => str_eqb s lang
  | _ => false
  end.

(** The callback [(track) => track.languageCode === config?.lang]. *)
Definition speaks (lang : str) (track : value) : outcome bool :=
  code <~ get track (lit "languageCode") ;; Ok (strict_eq code lang).

(** [Array.prototype.some] and [Array.prototype.find] with that callback, and
    [Array.prototype.map] with [(track) => track.languageCode].  A value that
    is not an array has no such method: calling it is a TypeError. *)
Fixpoint some_speaks (lang : str) (tracks : list value) : outcome bool :=
  match tracks with
  | [] => Ok false
  | track :: tracks' =>
      b <~ speaks lang track ;;
      if b then Ok true else some_speaks lang tracks'
  end.

Fixpoint find_speaks (lang : str) (tracks : list value) : outcome value :=
  match tracks with
  | [] => Ok VUndefined
  | track :: tracks' =>
      b <~ speaks lang track ;;
      if b then Ok track else find_speaks lang tracks'
  end.

Fixpoint map_languageCode (tracks : list value) : outcome (list value) :=
  match tracks with
  | [] => Ok []
  | track :: tracks' =>
      code <~ get track (lit "languageCode") ;;
      codes <~ map_languageCode tracks' ;;
      Ok (code :: codes)
  end.

Definition as_array (v : value) : outcome (list value) :=
  match v with
  | VArray items => Ok items
  | _ => Throw (Runtime TypeError)
  end.

(** ** Configuration and result *)

Record TranscriptConfig : Type := { lang : option str }.

(** [config?.lang]. *)
Definition config_lang (config : option TranscriptConfig) : option str :=
  match config with
  | Some c => lang c
  | None => None
  end.

(** [config?.lang] where the source tests its truth value: the empty string
    counts as no language. *)
Definition requested (config : option TranscriptConfig) : option str :=
  match config_lang config with
  | Some (c :: l) => Some (c :: l)
  | _ => None
  end.

(** ** Track selection (lines 130 to 149) *)

(** ToString of [v] throws.  The values are those of JSON and none can be
    called.  For an object the conversion reads [toString], then [valueOf]:
    an own property [toString] hides the method of [Object.prototype] and
    is not callable, and [valueOf] gives the object back, so the conversion
    ends in a TypeError; without such a property the method of
    [Object.prototype] answers.  [Array.prototype.toString] joins the
    elements, and [null] and [undefined] are joined as the empty string. *)
Fixpoint ToString_throws (v : value) : bool :=
  match v with
  | VObject fields =>
      match property (lit "toString") fields with
      | Some _ => true
      | None => false
      end
  | VArray items =>
      (fix any (l : list value) : bool :=
         match l with
         | [] => false
         | x :: l' =>
             match x with
             | VUndefined | VNull => any l'
             | _ => ToString_throws x || any l'
             end
         end) items
  | _ => false
  end.

(** [items.join(', ')] throws. *)
Definition join_throws (items : list value) : bool :=
  existsb (fun x => match x with
                    | VUndefined | VNull => false
                    | _ => ToString_throws x
                    end) items.

(** [new YoutubeTranscriptNotAvailableLanguageError(lang, availableLangs,
    videoId)]: the constructor joins [availableLangs] for the message before
    there is an instance (lines 41 to 47). *)
Definition new_YoutubeTranscriptNotAvailableLanguageError
    (l : str) (availableLangs : list value) (videoId : str) : outcome exn :=
  if join_throws availableLangs then Throw (Runtime TypeError)
  else Ok (YoutubeTranscriptNotAvailableLanguageError l availableLangs videoId).

(** The guard that throws [YoutubeTranscriptNotAvailableLanguageError]. *)
Definition checkLanguage (captions : value) (config : option TranscriptConfig)
    (videoId : str) : outcome unit :=
  match requested config with
  | None => Ok tt
  | Some l =>
      captionTracks <~ get captions (lit "captionTracks") ;;
      tracks <~ as_array captionTracks ;;
      found <~ some_speaks l tracks ;;
      if found then Ok tt
      else
        codes <~ map_languageCode tracks ;;
        e <~ new_YoutubeTranscriptNotAvailableLanguageError l codes videoId ;;
        Throw e
  end.

(** The selected track: the first one in the requested language, or the
    first one. *)
Definition selectedTrack (captions : value) (config : option TranscriptConfig)
    : outcome value :=
  captionTracks <~ get captions (lit "captionTracks") ;;
  match requested config with
  | Some l => tracks <~ as_array captionTracks ;; find_speaks l tracks
  | None => get0 captionTracks
  end.

(** [transcriptURL]. *)
Definition selectTrack (captions : value) (config : option TranscriptConfig)
    (videoId : str) : outcome value :=
  _ <~ checkLanguage captions config videoId ;;
  track <~ selectedTrack captions config ;;
  get track (lit "baseUrl").

(** ** Requests and responses *)

Inductive http_method : Type := GET | POST.

(** A call of [fetch].  The address is a value: the track address comes
    from parsed JSON and is handed to [fetch] as it is.  The body is the value
    that [JSON.stringify] serialises. *)
Record request : Type := {
  req_method : http_method;
  req_url : value;
  req_headers : list (str * str);
  req_body : option value
}.

(** A response: its [ok] flag and what [text()] resolves to; [None] when
    reading the body rejects. *)
Record response : Type := {
  ok : bool;
  body : option str
}.

(** [fetch] resolves to a response or rejects. *)
Inductive fetch_result : Type :=
| Resolved (r : response)
| Rejected.

Definition watch_url (identifier : str) : str :=
  lit "https://www.youtube.com/watch?v=" ++ identifier.

(** [...(config?.lang && { 'Accept-Language': config.lang })]. *)
Definition accept_language (config : option TranscriptConfig) : list (str * str) :=
  match requested config with
  | Some l => [(lit "Accept-Language", l)]
  | None => []
  end.

Definition videoPageRequest (identifier : str) (config : option TranscriptConfig)
    : request :=
  {| req_method := GET;
     req_url := VString (watch_url identifier);
     req_headers := accept_language config ++ [(lit "User-Agent", USER_AGENT)];
     req_body := None |}.

Definition transcriptRequest (transcriptURL : value)
    (config : option TranscriptConfig) : request :=
  {| req_method := GET;
     req_url := transcriptURL;
     req_headers := accept_language config ++ [(lit "User-Agent", USER_AGENT)];
     req_body := None |}.

Definition InnerTubeApiRequest (identifier : str) : request :=
  {| req_method := POST;
     req_url := VString (lit "https://www.youtube.com/youtubei/v1/player");
     req_headers :=
       [(lit "Content-Type", lit "application/json");
        (lit "User-Agent", USER_AGENT);
        (lit "Referer", watch_url identifier);
        (lit "Origin", lit "https://www.youtube.com")];
     req_body :=
       Some (VObject
         [(lit "context",
           VObject [(lit "client",
             VObject [(lit "clientName", VString (lit "WEB"));
                      (lit "clientVersion", VString (lit "2.20241211.01.00"))])]);
          (lit "videoId", VString identifier)]) |}.

Definition innerTubeTranscriptRequest (innerTubeTranscriptURL : value)
    (identifier : str) (config : option TranscriptConfig) : request :=
  {| req_method := GET;
     req_url := innerTubeTranscriptURL;
     req_headers :=
       accept_language config ++
       [(lit "User-Agent", USER_AGENT); (lit "Referer", watch_url identifier)];
     req_body := None |}.

(** ** Computations *)

(** A computation reads and extends the log of the requests issued so far. *)
Definition M (A : Type) : Type := list request -> outcome A * list request.

Definition ret {A : Type} (a : A) : M A := fun log => (Ok a, log).

Definition throw {A : Type} (e : exn) : M A := fun log => (Throw e, log).

Definition bind {A B : Type} (c : M A) (k : A -> M B) : M B :=
  fun log =>
    match c log with
    | (Ok a, log') => k a log'
    | (Throw e, log') => (Throw e, log')
    end.

Definition lift {A : Type} (c : outcome A) : M A := fun log => (c, log).

(** [try { c } catch (e) { handler }]. *)
Definition try_catch {A : Type} (c : M A) (handler : exn -> M A) : M A :=
  fun log =>
    match c log with
    | (Ok a, log') => (Ok a, log')
    | (Throw e, log') => handler e log'
    end.

Notation "x <- c ;; k" := (bind c (fun x => k))
  (at level 61, c at next level, right associativity).

(** A segment; [lang_] is its field [lang]. *)
Record TranscriptResponse (number : Type) : Type := {
  text : str;
  duration : number;
  offset : number;
  lang_ : value
}.

Section Host.

(** *** What the host provides *)

(** The numbers of the host, and [parseFloat]. *)
Variable number : Type.
Variable parseFloat : str -> number.

(** ToBoolean of the number a numeral denotes is [false]: the number is a
    zero or NaN. *)
Variable numeral_falsy : str -> bool.

(** [JSON.parse]: the value of a JSON text, [None] where it throws a
    SyntaxError. *)
Variable JSON_parse : str -> option value.

(** The network: the answer to a request, given the requests before it. *)
Variable respond : list request -> request -> fetch_result.

(** ToBoolean. *)
Definition truthy (v : value) : bool :=
  match v with
  | VUndefined | VNull => false
  | VBool b => b
  | VNumber n => negb (numeral_falsy n)
  | VString s => negb (length s =? 0)
  | VArray _ | VObject _ => true
  end.

(** [await fetch(...)]. *)
Definition fetch (r : request) : M response :=
  fun log =>
    match respond log r with
    | Resolved res => (Ok res, log ++ [r])
    | Rejected => (Throw (Runtime NetworkError), log ++ [r])
    end.

(** [await response.text()]. *)
Definition text_of (res : response) : M str :=
  match body res with
  | Some t => ret t
  | None => throw (Runtime NetworkError)
  end.

Definition parse_json (t : str) : outcome value :=
  match JSON_parse t with
  | Some v => Ok v
  | None => Throw (Runtime SyntaxError)
  end.

(** [await response.json()]. *)
Definition json_of (res : response) : M value :=
  t <- text_of res ;; lift (parse_json t).

(** *** The timed-text parser (lines 229 to 235, and 212 to 218) *)

(** [config?.lang ?? captions.captionTracks[0].languageCode]. *)
Definition segment_lang (config : option TranscriptConfig) (captions : value)
    : outcome value :=
  match config_lang config with
  | Some l => Ok (VString l)
  | None =>
      captionTracks <~ get captions (lit "captionTracks") ;;
      track <~ get0 captionTracks ;;
      get track (lit "languageCode")
  end.

(** [results.map((result) => ({ ... }))]. *)
Fixpoint map_results (config : option TranscriptConfig) (captions : value)
    (results : list captures) : outcome (list (TranscriptResponse number)) :=
  match results with
  | [] => Ok []
  | result :: results' =>
      l <~ segment_lang config captions ;;
      rest <~ map_results config captions results' ;;
      Ok ({| text := group 3 result;
             duration := parseFloat (group 2 result);
             offset := parseFloat (group 1 result);
             lang_ := l |} :: rest)
  end.

Definition parseTranscript (transcriptBody : str)
    (config : option TranscriptConfig) (captions : value)
    : outcome (list (TranscriptResponse number)) :=
  map_results config captions (matchAll RE_XML_TRANSCRIPT transcriptBody).

(** *** The watch page (lines 77 to 118) *)

Definition captions_marker : str := quoted "captions" ++ lit ":".
Definition recaptcha_marker : str := lit "class=" ++ quoted "g-recaptcha".
Definition playability_marker : str := quoted "playabilityStatus" ++ lit ":".
Definition videoDetails_marker : str := lit "," ++ dq :: lit "videoDetails".

(** The function called in place at lines 101 to 114. *)
Definition extractCaptions (splittedHTML : list str) (videoPageBody : str)
    : outcome value :=
  match
    JSON_parse
      (remove_first [10%N]
         (nth 0 (split (nth 1 splittedHTML []) videoDetails_marker) []))
  with
  | Some v => Ok v
  | None =>
      match regex_match RE_CAPTIONS videoPageBody with
      | Some (altMatch, _) => parse_json (group 1 altMatch)
      | None => Ok VUndefined
      end
  end.

(** The body of the outer [try]. *)
Definition readVideoPage (videoId identifier : str)
    (config : option TranscriptConfig) : M value :=
  videoPageResponse <- fetch (videoPageRequest identifier config) ;;
  videoPageBody <- text_of videoPageResponse ;;
  let splittedHTML := split videoPageBody captions_marker in
  if length splittedHTML <=? 1 then
    if includes videoPageBody recaptcha_marker then
      throw YoutubeTranscriptTooManyRequestError
    else if negb (includes videoPageBody playability_marker) then
      throw (YoutubeTranscriptVideoUnavailableError videoId)
    else throw (YoutubeTranscriptDisabledError videoId)
  else
    lift (parsed <~ extractCaptions splittedHTML videoPageBody ;;
          optional_get parsed (lit "playerCaptionsTracklistRenderer")).

(** [captions] after the outer [try ... catch]. *)
Definition locateCaptions (videoId identifier : str)
    (config : option TranscriptConfig) : M value :=
  try_catch (readVideoPage videoId identifier config) (fun _ => ret VNull).

(** *** The InnerTube fallback (lines 165 to 225) *)

(** Lines 166 to 199: the request to the player endpoint, up to the address
    of the track; [None] where a test fails and control falls out of the
    [try]. *)
Definition innerTubeLocate (identifier : str) (config : option TranscriptConfig)
    : M (option (value * value)) :=
  InnerTubeApiResponse <- fetch (InnerTubeApiRequest identifier) ;;
  if ok InnerTubeApiResponse then
    innerTubeData <- json_of InnerTubeApiResponse ;;
    innerTubeCaptions <-
      lift (captions <~ optional_get innerTubeData (lit "captions") ;;
            optional_get captions (lit "playerCaptionsTracklistRenderer")) ;;
    captionTracks <-
      lift (if truthy innerTubeCaptions
            then get innerTubeCaptions (lit "captionTracks")
            else Ok innerTubeCaptions) ;;
    if truthy captionTracks then
      innerTubeTranscriptURL <-
        lift (track <~ selectedTrack innerTubeCaptions config ;;
              get track (lit "baseUrl")) ;;
      ret (Some (innerTubeCaptions, innerTubeTranscriptURL))
    else ret None
  else ret None.

(** Lines 201 to 220: the track of the fallback; [Some results] where the
    source returns from [fetchTranscript]. *)
Definition innerTubeRead (identifier : str) (config : option TranscriptConfig)
    (innerTubeCaptions innerTubeTranscriptURL : value)
    : M (option (list (TranscriptResponse number))) :=
  innerTubeTranscriptResponse <-
    fetch (innerTubeTranscriptRequest innerTubeTranscriptURL identifier config) ;;
  if ok innerTubeTranscriptResponse then
    innerTubeTranscriptBody <- text_of innerTubeTranscriptResponse ;;
    if 0 <? length innerTubeTranscriptBody then
      results <-
        lift (parseTranscript innerTubeTranscriptBody config innerTubeCaptions) ;;
      ret (Some results)
    else ret None
  else ret None.

(** The body of the [try] at line 165. *)
Definition innerTube (identifier : str) (config : option TranscriptConfig)
    : M (option (list (TranscriptResponse number))) :=
  located <- innerTubeLocate identifier config ;;
  match located with
  | Some (innerTubeCaptions, innerTubeTranscriptURL) =>
      innerTubeRead identifier config innerTubeCaptions innerTubeTranscriptURL
  | None => ret None
  end.

(** *** fetchTranscript *)

(** Lines 151 to 235: the track of the watch page, the fallback when its
    body is empty, the parser otherwise. *)
Definition readTranscript (videoId identifier : str)
    (config : option TranscriptConfig) (captions transcriptURL : value)
    : M (list (TranscriptResponse number)) :=
  transcriptResponse <- fetch (transcriptRequest transcriptURL config) ;;
  if negb (ok transcriptResponse) then
    throw (YoutubeTranscriptNotAvailableError videoId)
  else
    transcriptBody <- text_of transcriptResponse ;;
    if length transcriptBody =? 0 then
      returned <- try_catch (innerTube identifier config) (fun _ => ret None) ;;
      match returned with
      | Some results => ret results
      | None => throw (YoutubeTranscriptNotAvailableError videoId)
      end
    else lift (parseTranscript transcriptBody config captions).

Definition fetchTranscript (videoId : str) (config : option TranscriptConfig)
    : M (list (TranscriptResponse number)) :=
  identifier <- lift (retrieveVideoId videoId) ;;
  captions <- locateCaptions videoId identifier config ;;
  if negb (truthy captions) then
    throw (YoutubeTranscriptDisabledError videoId)
  else
    present <- lift (has (lit "captionTracks") captions) ;;
    if negb present then throw (YoutubeTranscriptNotAvailableError videoId)
    else
      transcriptURL <- lift (selectTrack captions config videoId) ;;
      readTranscript videoId identifier config captions transcriptURL.

End Host.

(** ** Messages (lines 8 to 48) *)

Section Messages.

(** ToString of the host, for a value that is neither a string nor [null]
    or [undefined], and for which it does not throw. *)
Variable ToString : value -> str.

(** The text the constructor of [YoutubeTranscriptError] puts before every
    message; the sign after the bracket is U+1F6A8, two code units. *)
Definition marker : str := lit "[YoutubeTranscript] " ++ [55357; 57000]%N ++ lit " ".

(** An element of [Array.prototype.join]: [undefined] and [null] give the
    empty string. *)
Definition join_element (v : value) : str :=
  match v with
  | VUndefined | VNull => []
  | VString s => s
  | _ => ToString v
  end.

Fixpoint join (sep : str) (items : list value) : str :=
  match items with
  | [] => []
  | [v] => join_element v
  | v :: rest => join_element v ++ sep ++ join sep rest
  end.

(** The message of an instance of a class of the module; an exception of
    the runtime has the message the runtime gives it. *)
Definition message (e : exn) : option str :=
  match e with
  | YoutubeTranscriptError m => Some (marker ++ m)
  | YoutubeTranscriptTooManyRequestError =>
      Some (marker ++ lit "YouTube is receiving too many requests from this IP and now requires solving a captcha to continue")
  | YoutubeTranscriptVideoUnavailableError videoId =>
      Some (marker ++ lit "The video is no longer available (" ++ videoId ++ lit ")")
  | YoutubeTranscriptDisabledError videoId =>
      Some (marker ++ lit "Transcript is disabled on this video (" ++ videoId ++ lit ")")
  | YoutubeTranscriptNotAvailableError videoId =>
      Some (marker ++ lit "No transcripts are available for this video (" ++ videoId ++ lit ")")
  | YoutubeTranscriptNotAvailableLanguageError l availableLangs videoId =>
      Some (marker ++ lit "No transcripts are available in " ++ l
              ++ lit " this video (" ++ videoId ++ lit "). Available languages: "
              ++ join (lit ", ") availableLangs)
  | Runtime _ => None
  end.

End Messages.

(** * Notions of the statements *)

Unset Implicit Arguments.

(** ** The matcher on a class *)

(** The longest prefix of [s] in the class [p], and what follows it. *)
Fixpoint take_while (p : char -> bool) (s : str) : str :=
  match s with
  | c :: s' => if p c then c :: take_while p s' else []
  | [] => []
  end.

Fixpoint drop_while (p : char -> bool) (s : str) : str :=
  match s with
  | c :: s' => if p c then drop_while p s' else s
  | [] => []
  end.

(** [Lit_ci] on a text: the prefix is compared up to canonicalization. *)
Fixpoint strip_prefix_ci (p s : str) : option str :=
  match p with
  | [] => Some s
  | x :: p' =>
      match s with
      | [] => None
      | y :: s' => if is_ci x y then strip_prefix_ci p' s' else None
      end
  end.

(** The greedy repetition of a class: the longest prefix first, then the
    shorter ones, until the continuation accepts. *)
Fixpoint star_chr (p : char -> bool) (s : str) (caps : captures)
    (k : str -> captures -> option matched) : option matched :=
  match s with
  | c :: s' =>
      if p c then
        match star_chr p s' caps k with
        | Some m => Some m
        | None => k s caps
        end
      else k s caps
  | [] => k [] caps
  end.

(** The group [i] of [r] takes part in every match of [r]: it stands in no
    alternative and in no repetition. *)
Fixpoint takes_part (i : nat) (r : regex) : bool :=
  match r with
  | Seq r1 r2 => takes_part i r1 || takes_part i r2
  | Group j r1 => Nat.eqb i j || takes_part i r1
  | _ => false
  end.

(** ** The elements of a timed-text document *)

Definition element_open : str := lit "<text start=" ++ [dq].
Definition element_mid : str := dq :: lit " dur=" ++ [dq].
Definition element_close : str := dq :: lit ">".
Definition element_end : str := lit "</text>".

(** The element with the attributes [start] and [dur], each between double
    quotes, and the text [content]. *)
Definition element (start dur content : str) : str :=
  element_open ++ start ++ element_mid ++ dur ++ element_close ++ content ++ element_end.

Definition no_quote : char -> bool := none_of [dq].
Definition no_lt : char -> bool := none_of (lit "<").

(** [s] starts with an element whose attributes hold no quote and whose
    text holds no [<], followed by [rest]. *)
Definition starts_with_element (s start dur content rest : str) : Prop :=
  s = element start dur content ++ rest /\
  forallb no_quote start = true /\
  forallb no_quote dur = true /\
  forallb no_lt content = true.

(** The element at the start of [s], read field by field. *)
Definition element_at (s : str) : option (str * str * str * str) :=
  match strip_prefix element_open s with
  | None => None
  | Some s1 =>
      match strip_prefix element_mid (drop_while no_quote s1) with
      | None => None
      | Some s2 =>
          match strip_prefix element_close (drop_while no_quote s2) with
          | None => None
          | Some s3 =>
              match strip_prefix element_end (drop_while no_lt s3) with
              | None => None
              | Some rest =>
                  Some (take_while no_quote s1, take_while no_quote s2,
                        take_while no_lt s3, rest)
              end
          end
      end
  end.

(** The exhaustive scan of a document for its elements, left to right and
    without overlap: an element at the current place is taken and the scan
    resumes after it; where no element starts, the scan moves one code unit
    on. *)
Inductive scan : str -> list (str * str * str) -> Prop :=
| scan_end : scan [] []
| scan_element (s start dur content rest : str) (found : list (str * str * str)) :
    starts_with_element s start dur content rest ->
    scan rest found ->
    scan s ((start, dur, content) :: found)
| scan_skip (c : char) (s : str) (found : list (str * str * str)) :
    (forall start dur content rest,
       ~ starts_with_element (c :: s) start dur content rest) ->
    scan s found ->
    scan (c :: s) found.

(** The three groups of a match. *)
Definition fields (result : captures) : str * str * str :=
  (group 1 result, group 2 result, group 3 result).

(** ** The identifier in an address *)

(** What follows the prefix of an address in [RE_YOUTUBE]: the group of the
    identifier, then acceptance. *)
Definition then_id : str -> captures -> option matched :=
  fun s caps => rmatch (Group 1 (Rep 11 (Chr id_char))) s caps accept.

(** An identifier: 11 code units of the class. *)
Definition is_id (id : str) : Prop :=
  length id = 11 /\ forallb id_char id = true.

(** [pre] holds no [y] and no [Y]: no match of [RE_YOUTUBE] starts in it. *)
Definition no_y (pre : str) : Prop :=
  forallb (fun c => negb (is_ci (ch "y") c)) pre = true.

(** The class of the first segment of a path, and the texts without a
    slash. *)
Definition not_slash : char -> bool := none_of (lit "/").

Definition no_slash (s : str) : Prop := forallb not_slash s = true.

(** [s] starts with a parameter [v]: [?v=] or [&v=], in either case. *)
Definition starts_v_param (s : str) : bool :=
  match s with
  | x :: s' =>
      one_of (lit "?&") x &&
      match strip_prefix_ci (lit "v=") s' with
      | Some _ => true
      | None => false
      end
  | [] => false
  end.

(** [s] holds no parameter [v]. *)
Fixpoint no_v_param (s : str) : bool :=
  match s with
  | [] => true
  | _ :: s' => negb (starts_v_param s) && no_v_param s'
  end.

(** ** Tracks *)

Definition is_object (v : value) : bool :=
  match v with
  | VObject _ => true
  | _ => false
  end.

(** [v.key] of a value that is not [null] or [undefined]. *)
Definition field (key : str) (v : value) : value :=
  match get v key with
  | Ok x => x
  | Throw _ => VUndefined
  end.

Definition languageCode (track : value) : value := field (lit "languageCode") track.

Definition is_string (v : value) : bool :=
  match v with
  | VString _ => true
  | _ => false
  end.
Definition baseUrl (track : value) : value := field (lit "baseUrl") track.

(** ** Runs *)

(** Every request that [c] issues satisfies [P]; the log only grows. *)
Definition issues {A : Type} (P : request -> Prop) (c : M A) : Prop :=
  forall log, exists l, snd (c log) = log ++ l /\ Forall P l.

(** The requests of a run for the identifier [identifier]. *)
Definition of_pipeline (identifier : str) (config : option TranscriptConfig)
    (r : request) : Prop :=
  r = videoPageRequest identifier config \/
  (exists u, r = transcriptRequest u config) \/
  r = InnerTubeApiRequest identifier \/
  (exists u, r = innerTubeTranscriptRequest u identifier config).

(** The result of [c] does not depend on the log it starts from. *)
Definition steady {A : Type} (c : M A) : Prop :=
  forall log log', fst (c log) = fst (c log').

(** Every exception that [c] ends in satisfies [P]. *)
Definition raises {A : Type} (P : exn -> Prop) (c : M A) : Prop :=
  forall log e, fst (c log) = Throw e -> P e.

Definition oraises {A : Type} (P : exn -> Prop) (c : outcome A) : Prop :=
  forall e, c = Throw e -> P e.

(** The exceptions of the stages after the watch page. *)
Definition after_page_error (videoId : str) (config : option TranscriptConfig)
    (e : exn) : Prop :=
  e = YoutubeTranscriptNotAvailableError videoId \/
  (exists l codes,
     requested config = Some l /\
     e = YoutubeTranscriptNotAvailableLanguageError l codes videoId) \/
  e = Runtime TypeError \/
  e = Runtime NetworkError.

(** The exceptions of a call. *)
Definition call_error (videoId : str) (config : option TranscriptConfig)
    (e : exn) : Prop :=
  e = YoutubeTranscriptError (lit "Impossible to retrieve Youtube video ID.") \/
  e = YoutubeTranscriptDisabledError videoId \/
  after_page_error videoId config e.

(** Two exceptions are instances of the same class. *)
Definition same_class (e1 e2 : exn) : bool :=
  match e1, e2 with
  | YoutubeTranscriptError _, YoutubeTranscriptError _ => true
  | YoutubeTranscriptTooManyRequestError, YoutubeTranscriptTooManyRequestError => true
  | YoutubeTranscriptVideoUnavailableError _, YoutubeTranscriptVideoUnavailableError _ => true
  | YoutubeTranscriptDisabledError _, YoutubeTranscriptDisabledError _ => true
  | YoutubeTranscriptNotAvailableError _, YoutubeTranscriptNotAvailableError _ => true
  | YoutubeTranscriptNotAvailableLanguageError _ _ _,
    YoutubeTranscriptNotAvailableLanguageError _ _ _ => true
  | Runtime a, Runtime b =>
      match a, b with
      | TypeError, TypeError | SyntaxError, SyntaxError
      | NetworkError, NetworkError => true
      | _, _ => false
      end
  | _, _ => false
  end.

(** An instance the module constructs: of a subclass, or of the base class
    with the one message of line 251. *)
Definition constructed (e : exn) : Prop :=
  match e with
  | Runtime _ => False
  | YoutubeTranscriptError m => m = lit "Impossible to retrieve Youtube video ID."
  | _ => True
  end.

(** The text that the first [JSON.parse] of line 103 reads. *)
Definition captionsText (videoPageBody : str) : str :=
  remove_first [10%N]
    (nth 0 (split (nth 1 (split videoPageBody captions_marker) []) videoDetails_marker) []).

(** [e] with [videoId] in place of the identifier it carries. *)
Definition rename (videoId : str) (e : exn) : exn :=
  match e with
  | YoutubeTranscriptVideoUnavailableError _ =>
      YoutubeTranscriptVideoUnavailableError videoId
  | YoutubeTranscriptDisabledError _ => YoutubeTranscriptDisabledError videoId
  | YoutubeTranscriptNotAvailableError _ =>
      YoutubeTranscriptNotAvailableError videoId
  | YoutubeTranscriptNotAvailableLanguageError l availableLangs _ =>
      YoutubeTranscriptNotAvailableLanguageError l availableLangs videoId
  | _ => e
  end.

Definition renamed {A : Type} (videoId : str) (o : outcome A) : outcome A :=
  match o with
  | Ok a => Ok a
  | Throw e => Throw (rename videoId e)
  end.

(** [c2] runs as [c1] does, but for the identifier its exceptions carry. *)
Definition follows {A : Type} (videoId : str) (c1 c2 : M A) : Prop :=
  forall log, c2 log = (renamed videoId (fst (c1 log)), snd (c1 log)).

(** The headers of a request of a run. *)
Definition sent (r : request) (name value : str) : Prop :=
  In (name, value) (req_headers r).

(** The requests of a run, in order: the watch page, the track, the player
    endpoint, the track of the fallback; a run stops after any of them. *)
Definition in_order (identifier : str) (config : option TranscriptConfig)
    (l : list request) : Prop :=
  l = [videoPageRequest identifier config] \/
  exists u,
    l = [videoPageRequest identifier config; transcriptRequest u config] \/
    l = [videoPageRequest identifier config; transcriptRequest u config;
         InnerTubeApiRequest identifier] \/
    exists u',
      l = [videoPageRequest identifier config; transcriptRequest u config;
           InnerTubeApiRequest identifier;
           innerTubeTranscriptRequest u' identifier config].

(** An element whose attributes hold no quote and whose text holds no
    [<]. *)
Definition well_formed (e : str * str * str) : bool :=
  let '(start, dur, content) := e in
  forallb no_quote start && forallb no_quote dur && forallb no_lt content.

(** A document written from its elements: each one after the text [gap],
    and [gap] once more at the end. *)
Fixpoint document (gap : str) (es : list (str * str * str)) : str :=
  match es with
  | [] => gap
  | (start, dur, content) :: es' =>
      gap ++ element start dur content ++ document gap es'
  end.

Section Notions.

Variable number : Type.
Variable parseFloat : str -> number.
Variable numeral_falsy : str -> bool.
Variable JSON_parse : str -> option value.
Variable respond : list request -> request -> fetch_result.

(** The run reaches line 151: the identifier is found, the page yields
    [captions] with a list of tracks, and the selection yields
    [transcriptURL]; [log1] is the log at that point. *)
Definition selects (videoId : str) (config : option TranscriptConfig)
    (log : list request) (identifier : str) (captions transcriptURL : value)
    (log1 : list request) : Prop :=
  retrieveVideoId videoId = Ok identifier /\
  locateCaptions JSON_parse respond videoId identifier config log = (Ok captions, log1) /\
  truthy numeral_falsy captions = true /\
  has (lit "captionTracks") captions = Ok true /\
  selectTrack captions config videoId = Ok transcriptURL.

(** What [readTranscript] makes of the [try] at line 165. *)
Definition after_fallback (videoId : str)
    (returned : outcome (option (list (TranscriptResponse number))))
    : outcome (list (TranscriptResponse number)) :=
  match returned with
  | Ok (Some results) => Ok results
  | _ => Throw (YoutubeTranscriptNotAvailableError videoId)
  end.

(** The network is a deterministic stub: a request has one answer, whatever
    was requested before. *)
Definition deterministic_stub : Prop :=
  forall log log' r, respond log r = respond log' r.

(** The segment of an element. *)
Definition segment (l : value) (e : str * str * str) : TranscriptResponse number :=
  let '(start, dur, content) := e in
  {| text := content;
     duration := parseFloat dur;
     offset := parseFloat start;
     lang_ := l |}.

End Notions.

Arguments after_fallback {number} videoId returned.
Arguments segment {number} parseFloat l e.

(** * Examples: the host and the data *)

(** ** A host for the examples *)

(** The theorems below hold for every host.  The examples run the pipeline
    on this one: numbers stay the numerals they are read from, and JSON texts
    are read by a recursive-descent reader of the JSON grammar. *)
Module Example.

Definition number : Type := str.

Definition parseFloat (s : str) : number := s.

Definition is_digit (c : char) : bool := (48 <=? c)%N && (c <=? 57)%N.

Definition json_ws (c : char) : bool := one_of [32; 9; 10; 13]%N c.

Fixpoint skip_ws (s : str) : str :=
  match s with
  | c :: s' => if json_ws c then skip_ws s' else s
  | [] => []
  end.

(** The longest prefix in a class, and the rest. *)
Fixpoint span (p : char -> bool) (s : str) : str * str :=
  match s with
  | c :: s' =>
      if p c then let (a, b) := span p s' in (c :: a, b) else ([], s)
  | [] => ([], [])
  end.

(** The number that a sequence of digits writes. *)
Definition digits_value (d : str) : N :=
  fold_left (fun n c => (n * 10 + (c - 48))%N) d 0%N.

(** The numeral [s] of the JSON grammar denotes a number whose truth value
    is [false], a zero.  With [m] the digits of the integer and of the
    fraction, the numeral writes m * 10^e, and it is read as the nearest
    double, ties to even: it is a zero when [m] is 0, and when the exponent
    is negative and m * 10^e is at most 2^-1075, half of the least double
    above 0. *)
Definition numeral_falsy (s : str) : bool :=
  let s1 :=
    match s with
    | c :: s' => if char_eqb c (ch "-") then s' else s
    | [] => s
    end in
  let (int, s2) := span is_digit s1 in
  let (frac, s3) :=
    match s2 with
    | c :: s' => if char_eqb c (ch ".") then span is_digit s' else ([], s2)
    | [] => ([], s2)
    end in
  let (negative, digits) :=
    match s3 with
    | _ :: g :: t' =>
        if char_eqb g (ch "-") then (true, t')
        else if char_eqb g (ch "+") then (false, t')
        else (false, g :: t')
    | _ => (false, [])
    end in
  let m := digits_value (int ++ frac) in
  let e := digits_value digits in
  let places := N.of_nat (length frac) in
  let down := if negative then (places + e)%N else (places - e)%N in
  (m =? 0)%N || ((0 <? down)%N && (m * 2 ^ 1075 <=? 10 ^ down)%N).

Definition hex_digit (c : char) : option N :=
  if is_digit c then Some (c - 48)%N
  else if (97 <=? c)%N && (c <=? 102)%N then Some (c - 87)%N
  else if (65 <=? c)%N && (c <=? 70)%N then Some (c - 55)%N
  else None.

Definition unescape (c : char) : option char :=
  if char_eqb c dq then Some dq
  else if char_eqb c (ch "\") then Some (ch "\")
  else if char_eqb c (ch "/") then Some (ch "/")
  else if char_eqb c (ch "b") then Some 8%N
  else if char_eqb c (ch "f") then Some 12%N
  else if char_eqb c (ch "n") then Some 10%N
  else if char_eqb c (ch "r") then Some 13%N
  else if char_eqb c (ch "t") then Some 9%N
  else None.

Definition cons_to {A : Type} (c : char) (r : option (str * A)) : option (str * A) :=
  match r with
  | Some (t, rest) => Some (c :: t, rest)
  | None => None
  end.

(** A string, from the code unit after its opening quote. *)
Fixpoint json_string (s : str) : option (str * str) :=
  match s with
  | [] => None
  | c :: s' =>
      if char_eqb c dq then Some ([], s')
      else if char_eqb c (ch "\") then
        match s' with
        | [] => None
        | e :: s'' =>
            if char_eqb e (ch "u") then
              match s'' with
              | h1 :: h2 :: h3 :: h4 :: s3 =>
                  match hex_digit h1, hex_digit h2, hex_digit h3, hex_digit h4 with
                  | Some a, Some b, Some c', Some d =>
                      cons_to (((a * 16 + b) * 16 + c') * 16 + d)%N (json_string s3)
                  | _, _, _, _ => None
                  end
              | _ => None
              end
            else
              match unescape e with
              | Some x => cons_to x (json_string s'')
              | None => None
              end
        end
      else if (c <? 32)%N then None
      else cons_to c (json_string s')
  end.

(** A number: its numeral and the rest. *)
Definition json_number (s : str) : option (str * str) :=
  let (sign, s1) :=
    match s with
    | c :: s' => if char_eqb c (ch "-") then ([c], s') else ([], s)
    | [] => ([], s)
    end in
  let (int, s2) := span is_digit s1 in
  let int_ok :=
    match int with
    | [] => false
    | c :: _ :: _ => negb (char_eqb c (ch "0"))
    | _ => true
    end in
  let frac :=
    match s2 with
    | c :: s' =>
        if char_eqb c (ch ".") then
          let (d, s'') := span is_digit s' in
          match d with [] => None | _ => Some (c :: d, s'') end
        else Some ([], s2)
    | [] => Some ([], s2)
    end in
  match frac with
  | None => None
  | Some (f, s3) =>
      let exp :=
        match s3 with
        | c :: s' =>
            if one_of (lit "eE") c then
              let (sg, s'') :=
                match s' with
                | g :: t => if one_of (lit "+-") g then ([g], t) else ([], s')
                | [] => ([], s')
                end in
              let (d, s4) := span is_digit s'' in
              match d with [] => None | _ => Some (c :: sg ++ d, s4) end
            else Some ([], s3)
        | [] => Some ([], s3)
        end in
      match exp with
      | None => None
      | Some (e, s5) =>
          if int_ok then Some (sign ++ int ++ f ++ e, s5) else None
      end
  end.

Definition keyword (w : string) (v : value) (s : str) : option (value * str) :=
  match strip_prefix (lit w) s with
  | Some rest => Some (v, rest)
  | None => None
  end.

(** A value, the elements of an array after its first bracket, and the
    members of an object after its first brace; [fuel] bounds the depth of
    the calls. *)
Fixpoint json_value (fuel : nat) (s : str) : option (value * str) :=
  match fuel with
  | O => None
  | S fuel' =>
      match skip_ws s with
      | [] => None
      | c :: s1 =>
          if char_eqb c (ch "{") then
            match skip_ws s1 with
            | c' :: s2 =>
                if char_eqb c' (ch "}") then Some (VObject [], s2)
                else json_members fuel' (c' :: s2) []
            | [] => None
            end
          else if char_eqb c (ch "[") then
            match skip_ws s1 with
            | c' :: s2 =>
                if char_eqb c' (ch "]") then Some (VArray [], s2)
                else json_elements fuel' (c' :: s2) []
            | [] => None
            end
          else if char_eqb c dq then
            match json_string s1 with
            | Some (t, rest) => Some (VString t, rest)
            | None => None
            end
          else if char_eqb c (ch "t") then keyword "true" (VBool true) (c :: s1)
          else if char_eqb c (ch "f") then keyword "false" (VBool false) (c :: s1)
          else if char_eqb c (ch "n") then keyword "null" VNull (c :: s1)
          else
            match json_number (c :: s1) with
            | Some (n, rest) => Some (VNumber n, rest)
            | None => None
            end
      end
  end
with json_elements (fuel : nat) (s : str) (acc : list value)
    : option (value * str) :=
  match fuel with
  | O => None
  | S fuel' =>
      match json_value fuel' s with
      | None => None
      | Some (v, r) =>
          match skip_ws r with
          | c :: r' =>
              if char_eqb c (ch ",") then json_elements fuel' r' (v :: acc)
              else if char_eqb c (ch "]") then Some (VArray (rev (v :: acc)), r')
              else None
          | [] => None
          end
      end
  end
with json_members (fuel : nat) (s : str) (acc : list (str * value))
    : option (value * str) :=
  match fuel with
  | O => None
  | S fuel' =>
      match skip_ws s with
      | c :: s1 =>
          if char_eqb c dq then
            match json_string s1 with
            | None => None
            | Some (key, s2) =>
                match skip_ws s2 with
                | c' :: s3 =>
                    if char_eqb c' (ch ":") then
                      match json_value fuel' s3 with
                      | None => None
                      | Some (v, r) =>
                          match skip_ws r with
                          | d :: r' =>
                              if char_eqb d (ch ",") then
                                json_members fuel' r' ((key, v) :: acc)
                              else if char_eqb d (ch "}") then
                                Some (VObject (rev ((key, v) :: acc)), r')
                              else None
                          | [] => None
                          end
                      end
                    else None
                | [] => None
                end
            end
          else None
      | [] => None
      end
  end.

Definition JSON_parse (s : str) : option value :=
  match json_value (2 * length s + 2) s with
  | Some (v, rest) =>
      match skip_ws rest with
      | [] => Some v
      | _ => None
      end
  | None => None
  end.

End Example.

(** A text of the examples, written with an apostrophe for each double
    quote. *)
Definition txt (x : string) : str :=
  List.map (fun c => if char_eqb c (ch "'") then dq else c) (lit x).

(** A network for the examples: each address has one response, whatever
    was requested before; any other request is rejected. *)
Definition serve (routes : list (str * response)) : list request -> request -> fetch_result :=
  fun _ r =>
    match req_url r with
    | VString u =>
        match find (fun route => str_eqb (fst route) u) routes with
        | Some route => Resolved (snd route)
        | None => Rejected
        end
    | _ => Rejected
    end.

Definition page (t : str) : response := {| ok := true; body := Some t |}.

(** [fetchTranscript] on the host of the examples, from an empty log. *)
Definition run (routes : list (str * response)) (videoId : str)
    (config : option TranscriptConfig)
    : outcome (list (TranscriptResponse Example.number)) * list request :=
  fetchTranscript Example.parseFloat Example.numeral_falsy Example.JSON_parse
    (serve routes) videoId config [].

(** The runs below are on the host of the examples, for the video
    [dQw4w9WgXcQ]. *)
Definition vid : str := lit "dQw4w9WgXcQ".

Definition player_url : str := lit "https://www.youtube.com/youtubei/v1/player".

(** A watch page whose catalog has an English and a French track. *)
Definition watch_page : str :=
  txt "<html>'playabilityStatus':{},'captions':{'playerCaptionsTracklistRenderer':{'captionTracks':[{'baseUrl':'https://t/en','languageCode':'en'},{'baseUrl':'https://t/fr','languageCode':'fr'}]}},'videoDetails':{}</html>".

Definition track_en : value :=
  VObject [(lit "baseUrl", VString (lit "https://t/en"));
           (lit "languageCode", VString (lit "en"))].

Definition track_fr : value :=
  VObject [(lit "baseUrl", VString (lit "https://t/fr"));
           (lit "languageCode", VString (lit "fr"))].

Definition catalog : value := VObject [(lit "captionTracks", VArray [track_en; track_fr])].

Definition in_language (l : string) : option TranscriptConfig :=
  Some {| lang := Some (lit l) |}.

(** The document of the specification. *)
Definition timed_text : str :=
  txt "<text start='1.0' dur='2.5'>Hello</text><text start='3.5' dur='1.0'>World</text>".

Definition captcha_page : str := txt "<div class='g-recaptcha'></div>".

Definition empty_catalog_page : str :=
  txt "'playabilityStatus':{},'captions':{'playerCaptionsTracklistRenderer':{'captionTracks':[]}},'videoDetails':{}".

(** The track of the watch page is empty and the player endpoint answers
    with a status that is not a success. *)
Definition routes_player_down : list (str * response) :=
  [(watch_url vid, page watch_page);
   (lit "https://t/en", page []);
   (player_url, {| ok := false; body := Some (lit "Not Found") |})].

(** A catalog of the player endpoint with one English track. *)
Definition player_data : str :=
  txt "{'captions':{'playerCaptionsTracklistRenderer':{'captionTracks':[{'baseUrl':'https://t2/en','languageCode':'en'}]}}}".

Definition player_catalog : value :=
  VObject [(lit "captionTracks",
            VArray [VObject [(lit "baseUrl", VString (lit "https://t2/en"));
                             (lit "languageCode", VString (lit "en"))]])].

(** The track of the watch page is empty; the track of the fallback is
    [fallback_body]. *)
Definition routes_fallback (fallback_body : str) : list (str * response) :=
  [(watch_url vid, page watch_page);
   (lit "https://t/en", page []);
   (player_url, page player_data);
   (lit "https://t2/en", page fallback_body)].

(** A watch page with the marker of the captions and no JSON after it. *)
Definition unparseable_page : str := txt "<html>'captions':{oops</html>".

(** A watch page whose catalog has no list of tracks. *)
Definition no_tracks_page : str :=
  txt "'playabilityStatus':{},'captions':{'playerCaptionsTracklistRenderer':{}},'videoDetails':{}".

(** The track of the watch page answers with a status that is not a
    success. *)
Definition routes_track_down : list (str * response) :=
  [(watch_url vid, page watch_page);
   (lit "https://t/en", {| ok := false; body := Some (lit "Not Found") |})].

(** The French track of the watch page is empty, and the catalog of the
    player endpoint has an English track only. *)
Definition routes_no_french : list (str * response) :=
  [(watch_url vid, page watch_page);
   (lit "https://t/fr", page []);
   (player_url, page player_data)].

(** An address of the video. *)
Definition short_address : str := lit "https://youtu.be/dQw4w9WgXcQ?t=1".

(** The watch page and its English track, with the document of the
    specification. *)
Definition routes_watch : list (str * response) :=
  [(watch_url vid, page watch_page); (lit "https://t/en", page timed_text)].

(** * Properties *)

Unset Implicit Arguments.

(** ** Strings *)

Lemma char_eqb_eq (a b : char) : char_eqb a b = true <-> a = b.
Proof. apply N.eqb_eq. Qed.

Lemma char_eqb_refl (a : char) : char_eqb a a = true.
Proof. apply N.eqb_refl. Qed.

Lemma strip_prefix_app (p s : str) : strip_prefix p (p ++ s) = Some s.
Proof.
  induction p as [|x p IH]; simpl; [reflexivity|].
  now rewrite char_eqb_refl.
Qed.

Lemma strip_prefix_some (p s rest : str) :
  strip_prefix p s = Some rest -> s = p ++ rest.
Proof.
  revert s. induction p as [|x p IH]; simpl; intros s H.
  - congruence.
  - destruct s as [|y s]; [discriminate|].
    destruct (char_eqb x y) eqn:E; [|discriminate].
    apply char_eqb_eq in E. subst y. f_equal. auto.
Qed.

Lemma cut_none_iff_includes (sep s : str) :
  cut sep s = None <-> includes s sep = false.
Proof.
  induction s as [|c s IH]; simpl.
  - destruct (strip_prefix sep []); split; congruence.
  - destruct (strip_prefix sep (c :: s)).
    + split; congruence.
    + destruct (cut sep s) as [[before rest]|]; rewrite <- IH; split; congruence.
Qed.

Lemma split_without (sep s : str) :
  includes s sep = false -> split s sep = [s].
Proof.
  intros H. apply cut_none_iff_includes in H.
  unfold split. simpl. now rewrite H.
Qed.

Lemma split_with (sep s : str) :
  includes s sep = true ->
  exists before rest,
    cut sep s = Some (before, rest) /\
    split s sep = before :: split_upto (length s) sep rest.
Proof.
  intros H. destruct (cut sep s) as [[before rest]|] eqn:E.
  - exists before, rest. unfold split. simpl. now rewrite E.
  - apply cut_none_iff_includes in E. congruence.
Qed.

Lemma split_upto_not_nil (n : nat) (sep s : str) : split_upto n sep s <> [].
Proof.
  destruct n; simpl; [discriminate|].
  destruct (cut sep s) as [[before rest]|]; discriminate.
Qed.

Lemma cut_shorter (sep s before rest : str) :
  sep <> [] -> cut sep s = Some (before, rest) -> length rest < length s.
Proof.
  intros Hsep. revert before. induction s as [|c s IH]; intros before; simpl.
  - destruct (strip_prefix sep []) as [r|] eqn:E; [|discriminate].
    apply strip_prefix_some in E. destruct sep; [congruence|discriminate].
  - destruct (strip_prefix sep (c :: s)) as [r|] eqn:E.
    + intros [= <- <-]. apply strip_prefix_some in E.
      apply (f_equal (@length _)) in E. rewrite length_app in E. simpl in E.
      destruct sep; [congruence|]. simpl in E. lia.
    + destruct (cut sep s) as [[b r]|]; [|discriminate].
      intros [= <- <-]. specialize (IH b eq_refl). lia.
Qed.

(** The bound of [split] is never reached: any bound above the length gives
    the same pieces. *)
Lemma split_upto_enough (sep : str) (n m : nat) (s : str) :
  sep <> [] -> length s < n -> length s < m ->
  split_upto n sep s = split_upto m sep s.
Proof.
  intros Hsep. revert m s. induction n as [|n IH]; intros m s Hn Hm; [lia|].
  destruct m as [|m]; [lia|]. simpl.
  destruct (cut sep s) as [[before rest]|] eqn:E; [|reflexivity].
  pose proof (cut_shorter _ _ _ _ Hsep E). f_equal. apply IH; lia.
Qed.

(** The test of line 91 is the absence of the marker. *)
Lemma split_length_le_1 (sep s : str) :
  (length (split s sep) <=? 1) = negb (includes s sep).
Proof.
  destruct (includes s sep) eqn:E.
  - destruct (split_with _ _ E) as (before & rest & _ & ->). simpl.
    destruct (split_upto (length s) sep rest) eqn:E'; [|reflexivity].
    now apply split_upto_not_nil in E'.
  - now rewrite split_without.
Qed.

(** ** The longest prefix in a class *)

Lemma take_drop_while (p : char -> bool) (s : str) :
  take_while p s ++ drop_while p s = s.
Proof.
  induction s as [|c s IH]; simpl; [reflexivity|].
  destruct (p c); simpl; [now rewrite IH|reflexivity].
Qed.

Lemma take_while_all (p : char -> bool) (s : str) :
  forallb p (take_while p s) = true.
Proof.
  induction s as [|c s IH]; simpl; [reflexivity|].
  destruct (p c) eqn:E; simpl; [now rewrite E|reflexivity].
Qed.

(** A text that is in the class up to a code unit that is not. *)
Lemma take_while_app (p : char -> bool) (a : str) (x : char) (b : str) :
  forallb p a = true -> p x = false ->
  take_while p (a ++ x :: b) = a /\ drop_while p (a ++ x :: b) = x :: b.
Proof.
  intros Ha Hx. induction a as [|c a IH]; simpl.
  - now rewrite Hx.
  - simpl in Ha. apply andb_prop in Ha as [Hc Ha]. rewrite Hc.
    destruct (IH Ha) as [-> ->]. now split.
Qed.

Lemma take_while_whole (p : char -> bool) (a : str) :
  forallb p a = true -> take_while p a = a /\ drop_while p a = [].
Proof.
  intros Ha. induction a as [|c a IH]; simpl; [now split|].
  simpl in Ha. apply andb_prop in Ha as [Hc Ha]. rewrite Hc.
  destruct (IH Ha) as [-> ->]. now split.
Qed.

(** The same, with a text [w] whose first code unit is not in the class. *)
Lemma take_while_stop (p : char -> bool) (a w b : str) :
  forallb p a = true ->
  match w with x :: _ => p x = false | [] => False end ->
  take_while p (a ++ w ++ b) = a /\ drop_while p (a ++ w ++ b) = w ++ b.
Proof.
  intros Ha Hw. destruct w as [|x w]; [contradiction|].
  now apply take_while_app.
Qed.

Lemma firstn_consumed (a b : str) :
  firstn (length (a ++ b) - length b) (a ++ b) = a.
Proof.
  rewrite length_app, Nat.add_sub.
  rewrite firstn_app, Nat.sub_diag, firstn_all. simpl. apply app_nil_r.
Qed.

(** ** The matcher *)

Lemma rmatch_Seqs_cons (r : regex) (rs : list regex) (s : str) (caps : captures)
    (k : str -> captures -> option matched) :
  rmatch (Seqs (r :: rs)) s caps k
  = rmatch r s caps (fun s1 c1 => rmatch (Seqs rs) s1 c1 k).
Proof. reflexivity. Qed.

Lemma rmatch_Lit (w s : str) (caps : captures)
    (k : str -> captures -> option matched) :
  rmatch (Lit w) s caps k
  = match strip_prefix w s with
    | Some rest => k rest caps
    | None => None
    end.
Proof.
  revert s. induction w as [|x w IH]; intros s; [reflexivity|].
  unfold Lit in *. simpl. destruct s as [|y s]; [reflexivity|].
  destruct (char_eqb x y); [apply IH|reflexivity].
Qed.

Lemma rmatch_Lit_ci (w s : str) (caps : captures)
    (k : str -> captures -> option matched) :
  rmatch (Lit_ci w) s caps k
  = match strip_prefix_ci w s with
    | Some rest => k rest caps
    | None => None
    end.
Proof.
  revert s. induction w as [|x w IH]; intros s; [reflexivity|].
  unfold Lit_ci in *. simpl. destruct s as [|y s]; [reflexivity|].
  destruct (is_ci x y); [apply IH|reflexivity].
Qed.

Lemma is_ci_refl (x : char) : is_ci x x = true.
Proof. apply char_eqb_refl. Qed.

Lemma strip_prefix_ci_app (p s : str) : strip_prefix_ci p (p ++ s) = Some s.
Proof.
  induction p as [|x p IH]; simpl; [reflexivity|].
  now rewrite is_ci_refl.
Qed.

Lemma iterate_Chr (p : char -> bool) (k : str -> captures -> option matched)
    (n : nat) (s : str) (caps : captures) :
  length s < n -> iterate (rmatch (Chr p)) k n s caps = star_chr p s caps k.
Proof.
  revert s. induction n as [|n IH]; intros s Hn; [lia|].
  destruct s as [|c s]; simpl; [reflexivity|].
  destruct (p c); [|reflexivity].
  replace (length s <? S (length s)) with true
    by (symmetry; apply Nat.ltb_lt; lia).
  rewrite IH by (simpl in Hn; lia). reflexivity.
Qed.

(** The count of iterations never runs out on a class. *)
Lemma rmatch_Star_Chr (p : char -> bool) (s : str) (caps : captures)
    (k : str -> captures -> option matched) :
  rmatch (Star (Chr p)) s caps k = star_chr p s caps k.
Proof. apply iterate_Chr. lia. Qed.

(** When the continuation fails on every text that starts in the class, the
    repetition takes the longest prefix and never gives a code unit back. *)
Lemma star_chr_committed (p : char -> bool) (s : str) (caps : captures)
    (k : str -> captures -> option matched) :
  (forall c s', p c = true -> k (c :: s') caps = None) ->
  star_chr p s caps k = k (drop_while p s) caps.
Proof.
  intros Hk. induction s as [|c s IH]; simpl; [reflexivity|].
  destruct (p c) eqn:E; [|reflexivity].
  rewrite IH. destruct (k (drop_while p s) caps) eqn:E'; [reflexivity|].
  now apply Hk.
Qed.

(** The repetition fails when the continuation fails after every prefix in
    the class. *)
Lemma star_chr_none (p : char -> bool) (s : str) (caps : captures)
    (k : str -> captures -> option matched) :
  (forall a b, s = a ++ b -> forallb p a = true -> k b caps = None) ->
  star_chr p s caps k = None.
Proof.
  induction s as [|c s IH]; simpl; intros Hk.
  - now apply (Hk [] []).
  - assert (Hs : k (c :: s) caps = None) by now apply (Hk [] (c :: s)).
    destruct (p c) eqn:E; [|exact Hs].
    rewrite IH; [exact Hs|].
    intros a b -> Ha. apply (Hk (c :: a) b); [reflexivity|].
    simpl. now rewrite E.
Qed.

(** The repetition stops at the last place after which the continuation
    accepts. *)
Lemma star_chr_last (p : char -> bool) (a b : str) (caps : captures)
    (k : str -> captures -> option matched) (m : matched) :
  forallb p a = true ->
  k b caps = Some m ->
  (forall a' b', b = a' ++ b' -> a' <> [] -> forallb p a' = true ->
     k b' caps = None) ->
  star_chr p (a ++ b) caps k = Some m.
Proof.
  intros Ha Hb Hlater. induction a as [|x a IH]; simpl.
  - destruct b as [|c b]; simpl; [exact Hb|].
    destruct (p c) eqn:E; [|exact Hb].
    rewrite star_chr_none; [exact Hb|].
    intros a' b' -> Ha'. apply (Hlater (c :: a') b'); [reflexivity|discriminate|].
    simpl. now rewrite E.
  - simpl in Ha. apply andb_prop in Ha as [Hx Ha]. rewrite Hx.
    now rewrite (IH Ha).
Qed.

(** What the repetition accepts, the continuation accepted after a prefix
    in the class. *)
Lemma star_chr_some (p : char -> bool) (s : str) (caps : captures)
    (k : str -> captures -> option matched) (m : matched) :
  star_chr p s caps k = Some m ->
  exists a b, s = a ++ b /\ forallb p a = true /\ k b caps = Some m.
Proof.
  induction s as [|c s IH]; simpl; intros H.
  - now exists [], [].
  - destruct (p c) eqn:E.
    + destruct (star_chr p s caps k) eqn:E'.
      * destruct (IH H) as (a & b & -> & Ha & Hb). inversion H. subst m0.
        exists (c :: a), b. simpl. now rewrite E.
      * now exists [], (c :: s).
    + now exists [], (c :: s).
Qed.

(** A class a fixed number of times. *)
Lemma rmatch_Rep_Chr (p : char -> bool) (n : nat) (s : str) (caps : captures)
    (k : str -> captures -> option matched) :
  rmatch (Rep n (Chr p)) s caps k
  = if (n <=? length s) && forallb p (firstn n s)
    then k (skipn n s) caps else None.
Proof.
  revert s. induction n as [|n IH]; intros s; simpl; [reflexivity|].
  destruct s as [|c s]; simpl; [reflexivity|].
  destruct (p c); simpl; [apply IH|].
  now rewrite andb_false_r.
Qed.

Lemma firstn_take_while (p : char -> bool) (s : str) :
  firstn (length s - length (drop_while p s)) s = take_while p s.
Proof.
  rewrite <- (take_drop_while p s) at 1 3. apply firstn_consumed.
Qed.

Lemma none_of_one (x c : char) : none_of [x] c = negb (char_eqb x c).
Proof.
  unfold none_of, one_of, char_eqb. simpl.
  now rewrite orb_false_r, N.eqb_sym.
Qed.

(** A captured field [[^x]*] that the literal [x w] closes: the field is
    the text up to the first [x]. *)
Lemma rmatch_field (i : nat) (x : char) (w : str) (rs : list regex) (s : str)
    (caps : captures) (k : str -> captures -> option matched) :
  rmatch (Seqs (Group i (Star (Chr (none_of [x]))) :: Lit (x :: w) :: rs)) s caps k
  = match strip_prefix (x :: w) (drop_while (none_of [x]) s) with
    | Some rest =>
        rmatch (Seqs rs) rest ((i, take_while (none_of [x]) s) :: caps) k
    | None => None
    end.
Proof.
  rewrite rmatch_Seqs_cons.
  change (rmatch (Group i ?r) s caps ?K)
    with (rmatch r s caps
            (fun s1 c1 => K s1 ((i, firstn (length s - length s1) s) :: c1))).
  rewrite rmatch_Star_Chr, star_chr_committed.
  - rewrite rmatch_Seqs_cons, rmatch_Lit, firstn_take_while. reflexivity.
  - intros c s' Hc. rewrite rmatch_Seqs_cons, rmatch_Lit. simpl.
    rewrite none_of_one in Hc. now destruct (char_eqb x c).
Qed.

(** *** The groups of a match *)

Lemma iterate_captures (i : nat)
    (step : str -> captures -> (str -> captures -> option matched) -> option matched)
    (k : str -> captures -> option matched) :
  (forall s caps k' m, step s caps k' = Some m ->
     exists s' caps',
       k' s' caps' = Some m /\ (capture i caps <> None -> capture i caps' <> None)) ->
  forall n s caps m, iterate step k n s caps = Some m ->
    exists s' caps',
      k s' caps' = Some m /\ (capture i caps <> None -> capture i caps' <> None).
Proof.
  intros Hstep. induction n as [|n IH]; intros s caps m H; simpl in H; [eauto|].
  destruct (step s caps _) as [m'|] eqn:E; [|eauto].
  inversion H. subst m'.
  destruct (Hstep _ _ _ _ E) as (s1 & c1 & H1 & Hc1).
  destruct (length s1 <? length s); [|discriminate].
  destruct (IH _ _ _ H1) as (s2 & c2 & H2 & Hc2). eauto 6.
Qed.

(** A match ends in its continuation, with the captures it had and those of
    the groups that take part. *)
Lemma rmatch_captures (i : nat) (r : regex) :
  forall s caps k m, rmatch r s caps k = Some m ->
    exists s' caps',
      k s' caps' = Some m /\
      (takes_part i r = true \/ capture i caps <> None -> capture i caps' <> None).
Proof.
  induction r as [|p|r1 IH1 r2 IH2|r1 IH1 r2 IH2|r IH|j r IH];
    intros s caps k m H; cbn [rmatch takes_part] in *.
  - exists s, caps. split; [exact H|]. intros [?|?]; [discriminate|assumption].
  - destruct s as [|c s]; [discriminate|]. destruct (p c); [|discriminate].
    exists s, caps. split; [exact H|]. intros [?|?]; [discriminate|assumption].
  - destruct (IH1 _ _ _ _ H) as (s1 & c1 & H1 & Hc1).
    destruct (IH2 _ _ _ _ H1) as (s2 & c2 & H2 & Hc2).
    exists s2, c2. split; [exact H2|]. intros [Ht|Hc].
    + apply orb_prop in Ht as [Ht|Ht]; auto.
    + auto.
  - destruct (rmatch r1 s caps k) as [m'|] eqn:E.
    + inversion H. subst m'. destruct (IH1 _ _ _ _ E) as (s1 & c1 & H1 & Hc1).
      exists s1, c1. split; [exact H1|]. intros [?|?]; [discriminate|auto].
    + destruct (IH2 _ _ _ _ H) as (s1 & c1 & H1 & Hc1).
      exists s1, c1. split; [exact H1|]. intros [?|?]; [discriminate|auto].
  - assert (Hstep : forall s caps k' m, rmatch r s caps k' = Some m ->
              exists s' caps',
                k' s' caps' = Some m /\
                (capture i caps <> None -> capture i caps' <> None)).
    { intros s0 c0 k' m0 H0. destruct (IH _ _ _ _ H0) as (s1 & c1 & H1 & Hc1).
      exists s1, c1. split; [exact H1|]. intros Hc0. apply Hc1. now right. }
    destruct (iterate_captures i _ k Hstep _ _ _ _ H) as (s1 & c1 & H1 & Hc1).
    exists s1, c1. split; [exact H1|]. intros [?|?]; [discriminate|auto].
  - destruct (IH _ _ _ _ H) as (s1 & c1 & H1 & Hc1).
    eexists _, _. split; [exact H1|]. intros Hi. cbn [capture].
    destruct (Nat.eqb i j); [discriminate|]. simpl in Hi. auto.
Qed.

Lemma match_here_captures (i : nat) (r : regex) (s : str) (m : matched) :
  takes_part i r = true -> match_here r s = Some m -> capture i (fst m) <> None.
Proof.
  intros Hi H. destruct (rmatch_captures i r _ _ _ _ H) as (s' & caps' & H' & Hc).
  unfold accept in H'. inversion H'. subst m. auto.
Qed.

Lemma matchAll_from_matches (r : regex) (s : str) :
  forall skip caps, In caps (matchAll_from r skip s) ->
    exists s' rest, match_here r s' = Some (caps, rest).
Proof.
  induction s as [|c s IH]; intros skip caps.
  - destruct skip; simpl; [|contradiction].
    destruct (match_here r []) as [[caps' rest]|] eqn:E; [|contradiction].
    intros [<-|[]]. eauto.
  - destruct skip; simpl; [|apply IH].
    destruct (match_here r (c :: s)) as [[caps' rest]|] eqn:E; [|apply IH].
    intros [<-|H]; [eauto|]. exact (IH _ _ H).
Qed.

(** Every group the source reads took part in the match: [group] is the
    text it captured. *)
Lemma groups_take_part :
  takes_part 1 RE_YOUTUBE = true /\
  takes_part 1 RE_CAPTIONS = true /\
  takes_part 1 RE_XML_TRANSCRIPT = true /\
  takes_part 2 RE_XML_TRANSCRIPT = true /\
  takes_part 3 RE_XML_TRANSCRIPT = true.
Proof. repeat split; vm_compute; reflexivity. Qed.

Lemma regex_match_captures (i : nat) (r : regex) (s : str) (m : matched) :
  takes_part i r = true -> regex_match r s = Some m -> capture i (fst m) <> None.
Proof.
  intros Hi. induction s as [|c s IH]; simpl; fold (match_here r).
  - destruct (match_here r []) as [m'|] eqn:E; [|discriminate].
    intros [= <-]. exact (match_here_captures i r _ _ Hi E).
  - destruct (match_here r (c :: s)) as [m'|] eqn:E; [|exact IH].
    intros [= <-]. exact (match_here_captures i r _ _ Hi E).
Qed.

Lemma matchAll_captures (i : nat) (r : regex) (s : str) (caps : captures) :
  takes_part i r = true -> In caps (matchAll r s) -> capture i caps <> None.
Proof.
  intros Hi H. destruct (matchAll_from_matches r s _ _ H) as (s' & rest & Hm).
  exact (match_here_captures i r _ _ Hi Hm).
Qed.

(** ** The elements of a timed-text document *)

Lemma element_at_starts (s start dur content rest : str) :
  element_at s = Some (start, dur, content, rest) <-> starts_with_element s start dur content rest.
Proof.
  unfold element_at, starts_with_element, element. split.
  - destruct (strip_prefix element_open s) as [s1|] eqn:E1; [|discriminate].
    destruct (strip_prefix element_mid _) as [s2|] eqn:E2; [|discriminate].
    destruct (strip_prefix element_close _) as [s3|] eqn:E3; [|discriminate].
    destruct (strip_prefix element_end _) as [s4|] eqn:E4; [|discriminate].
    intros [= <- <- <- <-].
    apply strip_prefix_some in E1, E2, E3, E4.
    repeat split; try apply take_while_all.
    rewrite E1 at 1. rewrite <- (take_drop_while no_quote s1) at 1. rewrite E2.
    rewrite <- (take_drop_while no_quote s2) at 1. rewrite E3.
    rewrite <- (take_drop_while no_lt s3) at 1. rewrite E4.
    now rewrite <- !app_assoc.
  - intros (-> & Hstart & Hdur & Hcontent).
    rewrite <- !app_assoc, strip_prefix_app.
    destruct (take_while_stop no_quote start element_mid
                (dur ++ element_close ++ content ++ element_end ++ rest) Hstart eq_refl)
      as [-> ->].
    rewrite strip_prefix_app.
    destruct (take_while_stop no_quote dur element_close
                (content ++ element_end ++ rest) Hdur eq_refl) as [-> ->].
    rewrite strip_prefix_app.
    destruct (take_while_stop no_lt content element_end rest Hcontent eq_refl) as [-> ->].
    now rewrite strip_prefix_app.
Qed.

(** [RE_XML_TRANSCRIPT] at the start of a text reads the element there. *)
Lemma match_here_XML (s : str) :
  match_here RE_XML_TRANSCRIPT s
  = match element_at s with
    | Some (start, dur, content, rest) => Some ([(3, content); (2, dur); (1, start)], rest)
    | None => None
    end.
Proof.
  unfold match_here, RE_XML_TRANSCRIPT, element_at.
  rewrite rmatch_Seqs_cons, rmatch_Lit.
  change (lit "<text start=" ++ [dq]) with element_open.
  destruct (strip_prefix element_open s) as [s1|]; [|reflexivity].
  rewrite (rmatch_field 1 dq (lit " dur=" ++ [dq])).
  change (dq :: lit " dur=" ++ [dq]) with element_mid.
  change (none_of [dq]) with no_quote.
  destruct (strip_prefix element_mid _) as [s2|]; [|reflexivity].
  rewrite (rmatch_field 2 dq (lit ">")).
  change (dq :: lit ">") with element_close.
  change (none_of [dq]) with no_quote.
  destruct (strip_prefix element_close _) as [s3|]; [|reflexivity].
  change (Lit (lit "</text>")) with (Lit (ch "<" :: lit "/text>")).
  change (none_of (lit "<")) with (none_of [ch "<"]).
  rewrite (rmatch_field 3 (ch "<") (lit "/text>")).
  change (ch "<" :: lit "/text>") with element_end.
  change (none_of [ch "<"]) with no_lt.
  destruct (strip_prefix element_end _) as [rest|]; reflexivity.
Qed.

(** *** The scan *)

Lemma matchAll_from_skip (r : regex) (a b : str) :
  matchAll_from r (length a) (a ++ b) = matchAll_from r 0 b.
Proof. induction a as [|c a IH]; simpl; [reflexivity|exact IH]. Qed.

Lemma matchAll_from_0 (r : regex) (s : str) :
  matchAll_from r 0 s
  = match match_here r s with
    | Some (caps, rest) =>
        caps ::
          match s with
          | [] => []
          | _ :: s' => matchAll_from r (length s - length rest - 1) s'
          end
    | None =>
        match s with
        | [] => []
        | _ :: s' => matchAll_from r 0 s'
        end
    end.
Proof. destruct s; reflexivity. Qed.

(** After a match that is not empty the scan resumes at its end. *)
Lemma matchAll_hit (r : regex) (a rest : str) (caps : captures) :
  a <> [] ->
  match_here r (a ++ rest) = Some (caps, rest) ->
  matchAll r (a ++ rest) = caps :: matchAll r rest.
Proof.
  intros Ha Hm. unfold matchAll. rewrite matchAll_from_0, Hm.
  destruct a as [|c a]; [congruence|].
  change ((c :: a) ++ rest) with (c :: (a ++ rest)). cbv iota. f_equal.
  replace (length (c :: a ++ rest) - length rest - 1) with (length a)
    by (cbn [length]; rewrite length_app; lia).
  apply matchAll_from_skip.
Qed.

(** Where nothing matches the scan moves one code unit on. *)
Lemma matchAll_miss (r : regex) (c : char) (s : str) :
  match_here r (c :: s) = None -> matchAll r (c :: s) = matchAll r s.
Proof. intros Hm. unfold matchAll. now rewrite matchAll_from_0, Hm. Qed.

Lemma element_not_empty (start dur content : str) : element start dur content <> [].
Proof. discriminate. Qed.

Lemma scan_matchAll_upto (n : nat) (s : str) :
  length s <= n -> scan s (List.map fields (matchAll RE_XML_TRANSCRIPT s)).
Proof.
  revert s. induction n as [|n IH]; intros s Hn.
  - destruct s; [|simpl in Hn; lia]. apply scan_end.
  - pose proof (match_here_XML s) as Hm.
    destruct (element_at s) as [[[[start dur] content] rest]|] eqn:E.
    + apply element_at_starts in E. pose proof E as (Hs & _).
      subst s. rewrite (matchAll_hit _ _ _ _ (element_not_empty _ _ _) Hm).
      simpl. apply scan_element with (rest := rest); [exact E|].
      apply IH. rewrite length_app in Hn.
      assert (0 < length (element start dur content))
        by (unfold element, element_open; rewrite length_app; simpl; lia).
      lia.
    + destruct s as [|c s]; [apply scan_end|].
      rewrite (matchAll_miss _ _ _ Hm). apply scan_skip.
      * intros start dur content rest H. apply element_at_starts in H. congruence.
      * apply IH. simpl in Hn. lia.
Qed.

(** [matchAll] with [RE_XML_TRANSCRIPT] is the scan. *)
Lemma scan_matchAll (s : str) :
  scan s (List.map fields (matchAll RE_XML_TRANSCRIPT s)).
Proof. now apply (scan_matchAll_upto (length s)). Qed.

(** A document has one scan. *)
Lemma scan_unique (s : str) (found found' : list (str * str * str)) :
  scan s found -> scan s found' -> found = found'.
Proof.
  intros H. revert found'.
  induction H as [|s start dur content rest found He Hs IH|c s found Hno Hs IH];
    intros found' H'.
  - inversion H' as [|? ? ? ? ? ? He' ?|]; subst; [reflexivity|].
    destruct He' as (He' & _). discriminate He'.
  - inversion H' as [|? start' dur' content' rest' found0 He' Hs'|? ? ? Hno' ?]; subst.
    + destruct He as (He & _). discriminate He.
    + apply element_at_starts in He, He'. rewrite He in He'.
      inversion He'. subst. f_equal. now apply IH.
    + now destruct (Hno' _ _ _ _ He).
  - inversion H' as [|? ? ? ? ? ? He' ?|]; subst.
    + now destruct (Hno _ _ _ _ He').
    + now apply IH.
Qed.

(** ** The identifier in an address *)

Lemma then_id_eq (s : str) (caps : captures) :
  then_id s caps
  = if (11 <=? length s) && forallb id_char (firstn 11 s)
    then Some ((1, firstn 11 s) :: caps, skipn 11 s) else None.
Proof.
  unfold then_id.
  change (rmatch (Group 1 ?r) s caps ?K)
    with (rmatch r s caps
            (fun s1 c1 => K s1 ((1, firstn (length s - length s1) s) :: c1))).
  rewrite rmatch_Rep_Chr.
  destruct (11 <=? length s) eqn:E; [|reflexivity].
  destruct (forallb id_char (firstn 11 s)); [|reflexivity].
  apply Nat.leb_le in E. unfold accept. simpl andb. cbv iota.
  rewrite length_skipn. now replace (length s - (length s - 11)) with 11 by lia.
Qed.

Lemma then_id_here (id rest : str) (caps : captures) :
  is_id id -> then_id (id ++ rest) caps = Some ((1, id) :: caps, rest).
Proof.
  intros [Hlen Hid]. rewrite then_id_eq, <- Hlen.
  rewrite firstn_app, Nat.sub_diag, firstn_all. simpl firstn.
  rewrite app_nil_r, Hid, skipn_app, Nat.sub_diag, skipn_all.
  replace (length id <=? length (id ++ rest)) with true
    by (symmetry; apply Nat.leb_le; rewrite length_app; lia).
  reflexivity.
Qed.

(** [RE_YOUTUBE] at the start of a text, alternative by alternative. *)
Lemma match_here_RE_YOUTUBE (s : str) :
  match_here RE_YOUTUBE s
  = match
      match strip_prefix_ci (lit "youtube.com/") s with
      | Some s1 =>
          match rmatch RE_YOUTUBE_path s1 [] then_id with
          | Some m => Some m
          | None =>
              match rmatch RE_YOUTUBE_embed s1 [] then_id with
              | Some m => Some m
              | None => rmatch RE_YOUTUBE_query s1 [] then_id
              end
          end
      | None => None
      end
    with
    | Some m => Some m
    | None =>
        match strip_prefix_ci (lit "youtu.be/") s with
        | Some s1 => then_id s1 []
        | None => None
        end
    end.
Proof.
  unfold match_here, RE_YOUTUBE, RE_YOUTUBE_prefix. cbn [rmatch].
  rewrite !rmatch_Lit_ci. reflexivity.
Qed.

(** A match of [RE_YOUTUBE] starts with a [y], in either case. *)
Lemma match_here_RE_YOUTUBE_not_y (c : char) (s : str) :
  is_ci (ch "y") c = false -> match_here RE_YOUTUBE (c :: s) = None.
Proof.
  intros Hc. rewrite match_here_RE_YOUTUBE.
  change (lit "youtube.com/") with (ch "y" :: lit "outube.com/").
  change (lit "youtu.be/") with (ch "y" :: lit "outu.be/").
  cbn [strip_prefix_ci]. now rewrite Hc.
Qed.

Lemma regex_match_RE_YOUTUBE_skip (pre s : str) :
  no_y pre -> regex_match RE_YOUTUBE (pre ++ s) = regex_match RE_YOUTUBE s.
Proof.
  unfold no_y. induction pre as [|c pre IH]; simpl; intros H; [reflexivity|].
  apply andb_prop in H as [Hc Hpre].
  fold (match_here RE_YOUTUBE (c :: pre ++ s)).
  rewrite match_here_RE_YOUTUBE_not_y by (apply negb_true_iff; exact Hc).
  auto.
Qed.

Lemma regex_match_here (r : regex) (s : str) (m : matched) :
  match_here r s = Some m -> regex_match r s = Some m.
Proof. intros H. destruct s; simpl; fold (match_here r); now rewrite H. Qed.

(** *** Classes *)

Lemma is_ci_slash (x : char) : is_ci (ch "/") x = negb (not_slash x).
Proof.
  unfold is_ci, not_slash, none_of, one_of, canonicalize, char_eqb. simpl.
  rewrite orb_false_r, negb_involutive.
  destruct ((97 <=? x)%N && (x <=? 122)%N) eqn:E; [|reflexivity].
  apply andb_prop in E as [E1 E2]. apply N.leb_le in E1, E2.
  transitivity false; [|symmetry]; apply N.eqb_neq; lia.
Qed.

Lemma id_char_spec (c : char) :
  id_char c = true ->
  not_slash c = true /\ one_of (lit "?&") c = false /\ dot c = true.
Proof.
  unfold id_char, not_slash, none_of, one_of, dot, line_terminator,
    white_space, char_eqb.
  simpl. intros H. apply negb_true_iff in H.
  repeat (apply orb_false_elim in H as [? H] || apply orb_false_elim in H as [H ?]).
  repeat match goal with
         | H : orb _ _ = false |- _ => apply orb_false_elim in H as [? ?]
         end.
  repeat split;
    repeat match goal with H : (_ =? _)%N = false |- _ => rewrite H; clear H end;
    reflexivity.
Qed.

Lemma is_id_no_slash (id : str) : is_id id -> no_slash id.
Proof.
  intros [_ H]. unfold no_slash. rewrite forallb_forall in *.
  intros c Hc. now apply id_char_spec, H.
Qed.

Lemma no_slash_app (a b : str) : no_slash a -> no_slash b -> no_slash (a ++ b).
Proof. unfold no_slash. intros Ha Hb. now rewrite forallb_app, Ha, Hb. Qed.

(** In a text without a slash, no suffix starts with one. *)
Lemma no_slash_suffix (s a b : str) : no_slash s -> s = a ++ b -> no_slash b.
Proof.
  unfold no_slash. intros H ->. rewrite forallb_app in H.
  now apply andb_prop in H as [_ H].
Qed.

(** *** The alternative of the path *)

Lemma rmatch_Plus_Chr (p : char -> bool) (s : str) (caps : captures)
    (k : str -> captures -> option matched) :
  rmatch (Plus (Chr p)) s caps k
  = match s with
    | c :: s' => if p c then star_chr p s' caps k else None
    | [] => None
    end.
Proof.
  destruct s as [|c s]; [reflexivity|].
  unfold Plus. cbn [rmatch]. destruct (p c); [|reflexivity].
  apply rmatch_Star_Chr.
Qed.

(** A slash, then [rs]. *)
Lemma rmatch_slash (rs : list regex) (s : str) (caps : captures)
    (k : str -> captures -> option matched) :
  rmatch (Seqs (Chr (is_ci (ch "/")) :: rs)) s caps k
  = match s with
    | x :: s' => if not_slash x then None else rmatch (Seqs rs) s' caps k
    | [] => None
    end.
Proof.
  destruct s as [|x s]; [reflexivity|].
  cbn [Seqs rmatch]. rewrite is_ci_slash. now destruct (not_slash x).
Qed.

Lemma rmatch_slash_none (rs : list regex) (s : str) (caps : captures)
    (k : str -> captures -> option matched) :
  no_slash s -> rmatch (Seqs (Chr (is_ci (ch "/")) :: rs)) s caps k = None.
Proof.
  intros H. rewrite rmatch_slash. destruct s as [|x s]; [reflexivity|].
  unfold no_slash in H. simpl in H. apply andb_prop in H as [-> _]. reflexivity.
Qed.

(** The alternative of the path needs two slashes after its first code
    unit, the second one with an identifier behind it. *)
Lemma rmatch_path (s : str) (caps : captures)
    (k : str -> captures -> option matched) :
  rmatch RE_YOUTUBE_path s caps k
  = match s with
    | c :: s' =>
        if not_slash c then
          rmatch (Seqs [Chr (is_ci (ch "/")); Plus (Chr dot); Chr (is_ci (ch "/"))])
            (drop_while not_slash s') caps k
        else None
    | [] => None
    end.
Proof.
  unfold RE_YOUTUBE_path. rewrite rmatch_Seqs_cons, rmatch_Plus_Chr.
  destruct s as [|c s]; [reflexivity|].
  change (none_of (lit "/")) with not_slash.
  destruct (not_slash c); [|reflexivity].
  apply star_chr_committed. intros x s' Hx.
  rewrite rmatch_slash. now rewrite Hx.
Qed.

Lemma rmatch_path_no_slash (s : str) (caps : captures)
    (k : str -> captures -> option matched) :
  no_slash s -> rmatch RE_YOUTUBE_path s caps k = None.
Proof.
  intros H. rewrite rmatch_path. destruct s as [|c s]; [reflexivity|].
  unfold no_slash in H. simpl in H. apply andb_prop in H as [-> H].
  destruct (take_while_whole _ _ H) as [_ ->]. reflexivity.
Qed.

(** After the second slash-free segment nothing follows. *)
Lemma rmatch_after_slash_none (t : str) (caps : captures)
    (k : str -> captures -> option matched) :
  no_slash t ->
  rmatch (Seqs [Plus (Chr dot); Chr (is_ci (ch "/"))]) t caps k = None.
Proof.
  intros Ht. rewrite rmatch_Seqs_cons, rmatch_Plus_Chr.
  destruct t as [|d t]; [reflexivity|]. destruct (dot d); [|reflexivity].
  apply star_chr_none. intros a b Hab _.
  apply rmatch_slash_none.
  apply (no_slash_suffix (d :: t) (d :: a) b Ht). now rewrite Hab.
Qed.

Lemma rmatch_path_one_slash (seg t : str) (caps : captures)
    (k : str -> captures -> option matched) :
  no_slash seg -> no_slash t ->
  rmatch RE_YOUTUBE_path (seg ++ ch "/" :: t) caps k = None.
Proof.
  intros Hseg Ht. rewrite rmatch_path.
  destruct seg as [|c seg]; [reflexivity|].
  unfold no_slash in Hseg. simpl in Hseg. apply andb_prop in Hseg as [Hc Hseg].
  cbn [app]. rewrite Hc.
  destruct (take_while_app not_slash seg (ch "/") t Hseg eq_refl) as [_ ->].
  rewrite rmatch_slash. cbv iota.
  change (not_slash (ch "/")) with false. cbv iota.
  now apply rmatch_after_slash_none.
Qed.

(** *** The alternatives [v/], [e/] and [embed/] *)

Lemma rmatch_embed (w : string) (rest : str) (m : matched) :
  w = "embed/"%string \/ w = "v/"%string \/ w = "e/"%string ->
  then_id rest [] = Some m ->
  rmatch RE_YOUTUBE_embed (lit w ++ rest) [] then_id = Some m.
Proof.
  intros [->|[->| ->]] H; cbv -[then_id str char captures matched];
    now rewrite H.
Qed.

Lemma rmatch_embed_watch (rest : str) :
  rmatch RE_YOUTUBE_embed (lit "watch" ++ rest) [] then_id = None.
Proof. reflexivity. Qed.

(** *** The alternative of the query *)

Lemma no_v_param_suffix (s a b : str) :
  no_v_param s = true -> s = a ++ b -> starts_v_param b = false.
Proof.
  revert s. induction a as [|x a IH]; intros s H ->.
  - destruct b as [|x b]; [reflexivity|].
    cbn [app no_v_param] in H. apply andb_prop in H as [H _].
    now apply negb_true_iff in H.
  - cbn [app no_v_param] in H. apply andb_prop in H as [_ H].
    now apply (IH (a ++ b)).
Qed.

Lemma no_v_param_app (a b : str) :
  forallb (fun x => negb (one_of (lit "?&") x)) a = true ->
  no_v_param b = true ->
  no_v_param (a ++ b) = true.
Proof.
  intros Ha Hb. induction a as [|x a IH]; [exact Hb|].
  cbn [forallb] in Ha. apply andb_prop in Ha as [Hx Ha].
  cbn [app no_v_param starts_v_param]. apply negb_true_iff in Hx.
  rewrite Hx. cbn [andb negb]. auto.
Qed.

Lemma rmatch_v_param_none (b : str) (caps : captures)
    (k : str -> captures -> option matched) :
  starts_v_param b = false ->
  rmatch (Seqs [Chr (one_of (lit "?&")); Lit_ci (lit "v=")]) b caps k = None.
Proof.
  intros H. destruct b as [|x b]; [reflexivity|].
  cbn [Seqs rmatch]. cbn [starts_v_param] in H.
  destruct (one_of (lit "?&") x); [|reflexivity].
  rewrite rmatch_Lit_ci.
  now destruct (strip_prefix_ci (lit "v=") b).
Qed.

Lemma is_id_no_query (id : str) :
  is_id id -> forallb (fun x => negb (one_of (lit "?&") x)) id = true.
Proof.
  intros [_ H]. rewrite forallb_forall in *. intros c Hc.
  destruct (id_char_spec c (H c Hc)) as (_ & -> & _). reflexivity.
Qed.

(** The query alternative takes the last parameter [v] of the line. *)
Lemma rmatch_query (a : str) (q : char) (id post : str) :
  forallb dot a = true ->
  one_of (lit "?&") q = true ->
  is_id id ->
  no_v_param post = true ->
  rmatch RE_YOUTUBE_query (a ++ q :: lit "v=" ++ id ++ post) [] then_id
  = Some ([(1, id)], post).
Proof.
  intros Ha Hq Hid Hpost.
  unfold RE_YOUTUBE_query. rewrite rmatch_Seqs_cons, rmatch_Star_Chr.
  apply star_chr_last; [exact Ha| |].
  - cbn [Seqs rmatch]. rewrite Hq, rmatch_Lit_ci, strip_prefix_ci_app.
    now apply then_id_here.
  - intros a' b' Hb Hne _. apply rmatch_v_param_none.
    destruct a' as [|x a']; [congruence|].
    cbn [app] in Hb. injection Hb as _ Hb.
    apply (no_v_param_suffix (lit "v=" ++ id ++ post) a' b'); [|exact Hb].
    rewrite app_assoc. apply no_v_param_app; [|exact Hpost].
    rewrite forallb_app. now rewrite (is_id_no_query id Hid).
Qed.

(** *** The path with a trailing identifier *)

Lemma rmatch_path_trailing (seg mid id : str) :
  seg <> [] -> no_slash seg ->
  mid <> [] -> forallb dot mid = true ->
  is_id id ->
  rmatch RE_YOUTUBE_path (seg ++ ch "/" :: mid ++ ch "/" :: id) [] then_id
  = Some ([(1, id)], []).
Proof.
  intros Hseg Hns Hmid Hdot Hid. rewrite rmatch_path.
  destruct seg as [|c seg]; [congruence|].
  unfold no_slash in Hns. cbn [forallb] in Hns. apply andb_prop in Hns as [Hc Hns].
  cbn [app]. rewrite Hc.
  destruct (take_while_app not_slash seg (ch "/") (mid ++ ch "/" :: id) Hns eq_refl)
    as [_ ->].
  rewrite rmatch_slash. cbv iota. change (not_slash (ch "/")) with false. cbv iota.
  rewrite rmatch_Seqs_cons, rmatch_Plus_Chr.
  destruct mid as [|d mid]; [congruence|].
  cbn [forallb] in Hdot. apply andb_prop in Hdot as [Hd Hdot].
  cbn [app]. rewrite Hd.
  apply star_chr_last; [exact Hdot| |].
  - rewrite rmatch_slash. cbv iota. change (not_slash (ch "/")) with false.
    cbv iota. cbn [Seqs rmatch].
    rewrite <- (app_nil_r id) at 1. now apply then_id_here.
  - intros a' b' Hb Hne _. apply rmatch_slash_none.
    destruct a' as [|x a']; [congruence|].
    cbn [app] in Hb. injection Hb as _ Hb.
    apply (no_slash_suffix id a' b'); [|exact Hb]. now apply is_id_no_slash.
Qed.

(** *** What a match returns *)

(** A match ends in its continuation. *)
Lemma iterate_continues
    (step : str -> captures -> (str -> captures -> option matched) -> option matched)
    (k : str -> captures -> option matched) :
  (forall s caps k' m, step s caps k' = Some m ->
     exists s' caps', k' s' caps' = Some m) ->
  forall n s caps m, iterate step k n s caps = Some m ->
    exists s' caps', k s' caps' = Some m.
Proof.
  intros Hstep. induction n as [|n IH]; intros s caps m H; simpl in H; [eauto|].
  destruct (step s caps _) as [m'|] eqn:E; [|eauto].
  inversion H. subst m'.
  destruct (Hstep _ _ _ _ E) as (s' & caps' & H').
  destruct (length s' <? length s); [eauto|discriminate].
Qed.

Lemma rmatch_continues (r : regex) :
  forall s caps k m, rmatch r s caps k = Some m ->
    exists s' caps', k s' caps' = Some m.
Proof.
  induction r as [|p|r1 IH1 r2 IH2|r1 IH1 r2 IH2|r IH|i r IH];
    intros s caps k m H; cbn [rmatch] in H.
  - eauto.
  - destruct s as [|c s]; [discriminate|]. destruct (p c); [eauto|discriminate].
  - destruct (IH1 _ _ _ _ H) as (s1 & c1 & H1). eauto.
  - destruct (rmatch r1 s caps k) as [m'|] eqn:E; [|eauto].
    inversion H. subst m'. eauto.
  - now apply (iterate_continues (rmatch r) k IH _ _ _ _ H).
  - destruct (IH _ _ _ _ H) as (s1 & c1 & H1). eauto.
Qed.

Lemma regex_match_somewhere (r : regex) (s : str) (m : matched) :
  regex_match r s = Some m -> exists a b, s = a ++ b /\ match_here r b = Some m.
Proof.
  induction s as [|c s IH]; simpl; fold (match_here r).
  - destruct (match_here r []) eqn:E; [|discriminate].
    intros [= <-]. now exists [], [].
  - destruct (match_here r (c :: s)) eqn:E.
    + intros [= <-]. now exists [], (c :: s).
    + intros H. destruct (IH H) as (a & b & -> & Hb). now exists (c :: a), b.
Qed.

Lemma then_id_is_id (s : str) (caps : captures) (m : matched) :
  then_id s caps = Some m -> is_id (group 1 (fst m)).
Proof.
  rewrite then_id_eq.
  destruct (11 <=? length s) eqn:E; [|discriminate].
  destruct (forallb id_char (firstn 11 s)) eqn:E'; [|discriminate].
  cbn [andb]. destruct m as [caps' rest']. intros H.
  assert (Hcaps : caps' = (1, firstn 11 s) :: caps) by congruence.
  rewrite Hcaps.
  change (group 1 (fst ((1, firstn 11 s) :: caps, rest'))) with (firstn 11 s).
  split; [|exact E'].
  apply Nat.leb_le in E. rewrite length_firstn. lia.
Qed.

(** The group of a match of [RE_YOUTUBE] is an identifier. *)
Lemma regex_match_RE_YOUTUBE_is_id (s : str) (m : matched) :
  regex_match RE_YOUTUBE s = Some m -> is_id (group 1 (fst m)).
Proof.
  intros H. destruct (regex_match_somewhere _ _ _ H) as (a & b & _ & Hb).
  change (rmatch RE_YOUTUBE_prefix b [] then_id = Some m) in Hb.
  destruct (rmatch_continues _ _ _ _ _ Hb) as (s1 & c1 & H1).
  exact (then_id_is_id _ _ _ H1).
Qed.

(** *** The identifier of an address *)

Lemma retrieveVideoId_address (pre s id rest : str) :
  no_y pre ->
  11 < length s ->
  match_here RE_YOUTUBE s = Some ([(1, id)], rest) ->
  retrieveVideoId (pre ++ s) = Ok id.
Proof.
  intros Hpre Hlen Hm. unfold retrieveVideoId.
  replace (length (pre ++ s) =? 11) with false
    by (symmetry; apply Nat.eqb_neq; rewrite length_app; lia).
  rewrite (regex_match_RE_YOUTUBE_skip _ _ Hpre).
  now rewrite (regex_match_here _ _ _ Hm).
Qed.

Lemma longer_than_11 (a s : str) :
  a <> [] -> 11 <= length s -> 11 < length (a ++ s).
Proof. destruct a; [congruence|]. rewrite length_app. simpl. lia. Qed.

(** An address is more than 11 code units long: it holds an identifier
    after the name of the site. *)
Ltac address_is_long Hlen :=
  apply longer_than_11;
  [ discriminate
  | rewrite ?length_app; cbn [length]; rewrite ?length_app; cbn [length];
    rewrite ?Hlen; lia ].

Lemma query_char_not_slash (q : char) :
  one_of (lit "?&") q = true -> not_slash q = true.
Proof.
  unfold one_of, not_slash, none_of, one_of, char_eqb. simpl.
  rewrite !orb_false_r. intros H. apply orb_prop in H.
  apply negb_true_iff, N.eqb_neq.
  destruct H as [H|H]; apply N.eqb_eq in H; subst q; discriminate.
Qed.

Lemma match_here_short (id post : str) :
  is_id id ->
  match_here RE_YOUTUBE (lit "youtu.be/" ++ id ++ post) = Some ([(1, id)], post).
Proof.
  intros Hid. rewrite match_here_RE_YOUTUBE.
  change (strip_prefix_ci (lit "youtube.com/") (lit "youtu.be/" ++ id ++ post))
    with (@None str).
  cbv iota. rewrite strip_prefix_ci_app. now apply then_id_here.
Qed.

Lemma match_here_embed (w : string) (seg id post : str) :
  w = "embed/"%string \/ w = "v/"%string \/ w = "e/"%string ->
  lit w = seg ++ [ch "/"] ->
  no_slash seg ->
  is_id id -> no_slash post ->
  match_here RE_YOUTUBE (lit "youtube.com/" ++ lit w ++ id ++ post)
  = Some ([(1, id)], post).
Proof.
  intros Hw Hseg Hns Hid Hpost. rewrite match_here_RE_YOUTUBE.
  rewrite strip_prefix_ci_app.
  replace (rmatch RE_YOUTUBE_path (lit w ++ id ++ post) [] then_id) with (@None matched).
  - now rewrite (rmatch_embed w _ _ Hw (then_id_here id post [] Hid)).
  - symmetry. rewrite Hseg, <- app_assoc. cbn [app].
    apply rmatch_path_one_slash; [exact Hns|].
    apply no_slash_app; [now apply is_id_no_slash|exact Hpost].
Qed.

Lemma match_here_watch (params : str) (q : char) (id post : str) :
  no_slash params -> forallb dot params = true ->
  one_of (lit "?&") q = true ->
  is_id id -> no_slash post -> no_v_param post = true ->
  match_here RE_YOUTUBE
    (lit "youtube.com/" ++ (lit "watch" ++ params) ++ q :: lit "v=" ++ id ++ post)
  = Some ([(1, id)], post).
Proof.
  intros Hparams Hdot Hq Hid Hpost Hv. rewrite match_here_RE_YOUTUBE.
  rewrite strip_prefix_ci_app.
  rewrite rmatch_path_no_slash.
  2:{ apply no_slash_app; [apply no_slash_app; [reflexivity|exact Hparams]|].
      unfold no_slash. cbn [forallb]. rewrite (query_char_not_slash _ Hq).
      apply (no_slash_app (lit "v=")); [reflexivity|].
      apply no_slash_app; [now apply is_id_no_slash|exact Hpost]. }
  rewrite <- app_assoc, rmatch_embed_watch, app_assoc.
  rewrite rmatch_query; [reflexivity| |exact Hq|exact Hid|exact Hv].
  rewrite forallb_app. now rewrite Hdot.
Qed.

Lemma match_here_path (seg mid id : str) :
  seg <> [] -> no_slash seg ->
  mid <> [] -> forallb dot mid = true ->
  is_id id ->
  match_here RE_YOUTUBE (lit "youtube.com/" ++ seg ++ ch "/" :: mid ++ ch "/" :: id)
  = Some ([(1, id)], []).
Proof.
  intros Hseg Hns Hmid Hdot Hid. rewrite match_here_RE_YOUTUBE.
  rewrite strip_prefix_ci_app.
  now rewrite rmatch_path_trailing.
Qed.

(** The addresses that are read as they are written.  An input of 11 code
    units is returned unchanged, whatever its code units.  From any other
    input, what [retrieveVideoId] returns is 11 code units of the class of
    [RE_YOUTUBE] (none is the double quote, [&], [?], [/] or white space).
    For an address in which no [y] or [Y] stands before the name of the
    site, it returns the identifier [id] of the address: after [youtu.be/],
    whatever follows [id]; after [youtube.com/embed/], [youtube.com/v/] and
    [youtube.com/e/], when no [/] follows [id]; as the parameter [v] of
    [youtube.com/watch], when the parameters before it hold no [/] and no
    line terminator, and the text after [id] holds no [/] and no other
    parameter [v]; after a path [youtube.com/seg/mid/], when [id] ends the
    address. *)
Lemma retrieveVideoId_shapes :
  (forall videoId, length videoId = 11 -> retrieveVideoId videoId = Ok videoId) /\
  (forall videoId id,
     length videoId <> 11 -> retrieveVideoId videoId = Ok id -> is_id id) /\
  (forall pre id post,
     no_y pre -> is_id id ->
     retrieveVideoId (pre ++ lit "youtu.be/" ++ id ++ post) = Ok id /\
     (no_slash post ->
      retrieveVideoId (pre ++ lit "youtube.com/embed/" ++ id ++ post) = Ok id /\
      retrieveVideoId (pre ++ lit "youtube.com/v/" ++ id ++ post) = Ok id /\
      retrieveVideoId (pre ++ lit "youtube.com/e/" ++ id ++ post) = Ok id /\
      (forall params q,
         no_slash params -> forallb dot params = true ->
         one_of (lit "?&") q = true ->
         no_v_param post = true ->
         retrieveVideoId
           (pre ++ lit "youtube.com/watch" ++ params ++ q :: lit "v=" ++ id ++ post)
         = Ok id)) /\
     (forall seg mid,
        seg <> [] -> no_slash seg ->
        mid <> [] -> forallb dot mid = true ->
        retrieveVideoId
          (pre ++ lit "youtube.com/" ++ seg ++ ch "/" :: mid ++ ch "/" :: id)
        = Ok id)).
Proof.
  split; [|split].
  - intros videoId Hlen. unfold retrieveVideoId. now rewrite Hlen.
  - intros videoId id Hlen. unfold retrieveVideoId.
    apply Nat.eqb_neq in Hlen. rewrite Hlen.
    destruct (regex_match RE_YOUTUBE videoId) as [[caps rest]|] eqn:E;
      [|discriminate].
    intros [= <-]. exact (regex_match_RE_YOUTUBE_is_id _ _ E).
  - intros pre id post Hpre Hid. pose proof Hid as [Hlen _].
    split; [|split].
    + apply retrieveVideoId_address with (rest := post);
        [exact Hpre| |now apply match_here_short].
      address_is_long Hlen.
    + intros Hpost.
      assert (Hembed : forall w seg,
                w = "embed/"%string \/ w = "v/"%string \/ w = "e/"%string ->
                lit w = seg ++ [ch "/"] -> no_slash seg ->
                retrieveVideoId (pre ++ lit "youtube.com/" ++ lit w ++ id ++ post)
                = Ok id).
      { intros w seg Hw Hseg Hns.
        apply retrieveVideoId_address with (rest := post);
          [exact Hpre| |now apply (match_here_embed w seg)].
        address_is_long Hlen. }
      split; [|split; [|split]].
      * apply (Hembed "embed/"%string (lit "embed")); auto; reflexivity.
      * apply (Hembed "v/"%string (lit "v")); auto; reflexivity.
      * apply (Hembed "e/"%string (lit "e")); auto; reflexivity.
      * intros params q Hparams Hdot Hq Hv.
        change (lit "youtube.com/watch" ++ params ++ q :: lit "v=" ++ id ++ post)
          with (lit "youtube.com/" ++ lit "watch" ++ params
                  ++ q :: lit "v=" ++ id ++ post).
        rewrite (app_assoc (lit "watch")).
        apply retrieveVideoId_address with (rest := post);
          [exact Hpre| |now apply match_here_watch].
        address_is_long Hlen.
    + intros seg mid Hseg Hns Hmid Hdot.
      apply retrieveVideoId_address with (rest := []);
        [exact Hpre| |now apply match_here_path].
      address_is_long Hlen.
Qed.

(** ** Track selection *)

Lemma get_object (track : value) (key : str) :
  is_object track = true -> get track key = Ok (field key track).
Proof. destruct track; simpl; try discriminate. reflexivity. Qed.

Lemma speaks_object (l : str) (track : value) :
  is_object track = true -> speaks l track = Ok (strict_eq (languageCode track) l).
Proof.
  intros H. unfold speaks, languageCode. now rewrite (get_object _ _ H).
Qed.

Lemma some_speaks_objects (l : str) (tracks : list value) :
  forallb is_object tracks = true ->
  some_speaks l tracks
  = Ok (existsb (fun track => strict_eq (languageCode track) l) tracks).
Proof.
  induction tracks as [|track tracks IH]; simpl; [reflexivity|].
  intros [Ht Hts]%andb_prop. rewrite (speaks_object _ _ Ht). simpl.
  destruct (strict_eq (languageCode track) l); simpl; auto.
Qed.

Lemma map_languageCode_objects (tracks : list value) :
  forallb is_object tracks = true ->
  map_languageCode tracks = Ok (List.map languageCode tracks).
Proof.
  induction tracks as [|track tracks IH]; simpl; [reflexivity|].
  intros [Ht Hts]%andb_prop. rewrite (get_object _ _ Ht). simpl.
  now rewrite (IH Hts).
Qed.

Lemma find_speaks_first (l : str) (before after : list value) (track : value) :
  forallb is_object before = true ->
  is_object track = true ->
  existsb (fun t => strict_eq (languageCode t) l) before = false ->
  strict_eq (languageCode track) l = true ->
  find_speaks l (before ++ track :: after) = Ok track.
Proof.
  intros Hb Ht Hnone Hmatch.
  induction before as [|t before IH]; simpl.
  - rewrite (speaks_object _ _ Ht), Hmatch. reflexivity.
  - simpl in Hb, Hnone. apply andb_prop in Hb as [Hb1 Hb2].
    apply orb_false_elim in Hnone as [Hn1 Hn2].
    rewrite (speaks_object _ _ Hb1), Hn1. simpl. auto.
Qed.

(** Strings are joined without an exception. *)
Lemma join_strings (tracks : list value) :
  forallb (fun track => is_string (languageCode track)) tracks = true ->
  join_throws (List.map languageCode tracks) = false.
Proof.
  induction tracks as [|track tracks IH]; simpl; [reflexivity|].
  intros [Ht Hts]%andb_prop. rewrite (IH Hts).
  now destruct (languageCode track).
Qed.

(** The selection on a catalog whose tracks are objects, with
    [requested config] the configured language when it is a string that is
    not empty.  When a language is requested and the [languageCode] of no
    track is strictly equal to it, the selection throws
    [YoutubeTranscriptNotAvailableLanguageError] with the language, the
    [languageCode]s of all the tracks in order and [videoId], unless these
    cannot be joined, which is a TypeError; when a track matches, the first
    one that does is selected; when no language is requested (none
    configured, or the empty string), the first track is selected. *)
Lemma selectTrack_cases (captions : value) (tracks : list value)
    (config : option TranscriptConfig) (videoId : str) :
  get captions (lit "captionTracks") = Ok (VArray tracks) ->
  forallb is_object tracks = true ->
  tracks <> [] ->
  (forall l, requested config = Some l ->
     existsb (fun track => strict_eq (languageCode track) l) tracks = false ->
     selectTrack captions config videoId
     = if join_throws (List.map languageCode tracks) then Throw (Runtime TypeError)
       else Throw (YoutubeTranscriptNotAvailableLanguageError
                     l (List.map languageCode tracks) videoId)) /\
  (forall l before track after,
     requested config = Some l ->
     tracks = before ++ track :: after ->
     existsb (fun t => strict_eq (languageCode t) l) before = false ->
     strict_eq (languageCode track) l = true ->
     selectedTrack captions config = Ok track /\
     selectTrack captions config videoId = Ok (baseUrl track)) /\
  (requested config = None ->
   selectedTrack captions config = Ok (hd VUndefined tracks) /\
   selectTrack captions config videoId = Ok (baseUrl (hd VUndefined tracks))).
Proof.
  intros Hget Hobj Hne. split; [|split].
  - intros l Hl Hnone.
    unfold selectTrack, checkLanguage. rewrite Hl, Hget. simpl.
    rewrite (some_speaks_objects _ _ Hobj), Hnone. simpl.
    rewrite (map_languageCode_objects _ Hobj). simpl.
    unfold new_YoutubeTranscriptNotAvailableLanguageError.
    now destruct (join_throws (List.map languageCode tracks)).
  - intros l before track after Hl -> Hnone Hmatch.
    rewrite forallb_app in Hobj. apply andb_prop in Hobj as [Hb Ha].
    simpl in Ha. apply andb_prop in Ha as [Ht Ha].
    assert (Hsel : selectedTrack captions config = Ok track).
    { unfold selectedTrack. rewrite Hget, Hl. simpl.
      now apply find_speaks_first. }
    split; [exact Hsel|].
    unfold selectTrack, checkLanguage. rewrite Hl, Hget. simpl.
    rewrite some_speaks_objects.
    2:{ rewrite forallb_app. simpl. now rewrite Hb, Ht, Ha. }
    rewrite existsb_app. simpl. rewrite Hmatch, orb_true_r. simpl.
    rewrite Hsel. simpl. now apply get_object.
  - intros Hl. destruct tracks as [|track tracks]; [congruence|].
    simpl in Hobj. apply andb_prop in Hobj as [Ht _].
    assert (Hsel : selectedTrack captions config = Ok track).
    { unfold selectedTrack. rewrite Hget, Hl. reflexivity. }
    split; [exact Hsel|].
    unfold selectTrack, checkLanguage. rewrite Hl. simpl. rewrite Hsel. simpl.
    now apply get_object.
Qed.

(** ** The watch page *)

(** Unfolds the operations of a computation down to the log. *)
Ltac unfold_M :=
  cbv beta delta [bind lift ret throw try_catch fetch text_of json_of].

Section Pipeline.

Variable number : Type.
Variable parseFloat : str -> number.
Variable numeral_falsy : str -> bool.
Variable JSON_parse : str -> option value.
Variable respond : list request -> request -> fetch_result.

(** [captions] is never an exception: the [catch] of line 115 turns every
    one into [null]. *)
Lemma locateCaptions_never_throws (videoId identifier : str)
    (config : option TranscriptConfig) (log : list request) :
  exists captions,
    fst (locateCaptions JSON_parse respond videoId identifier config log) = Ok captions.
Proof.
  unfold locateCaptions, try_catch.
  destruct (readVideoPage _ _ _ _ _ _) as [[captions|e] log']; simpl; eauto.
Qed.

(** A page without the marker of the captions leaves [captions] null,
    whatever else it holds: the three [throw]s of lines 92 to 98 stand inside
    the [try]. *)
Lemma locateCaptions_without_marker (videoId identifier : str)
    (config : option TranscriptConfig) (log : list request)
    (res : response) (videoPageBody : str) :
  respond log (videoPageRequest identifier config) = Resolved res ->
  body res = Some videoPageBody ->
  includes videoPageBody captions_marker = false ->
  locateCaptions JSON_parse respond videoId identifier config log
  = (Ok VNull, log ++ [videoPageRequest identifier config]).
Proof.
  intros Hres Hbody Hmark.
  unfold locateCaptions, try_catch, readVideoPage, bind, fetch, text_of.
  rewrite Hres, Hbody. unfold ret at 1.
  rewrite split_length_le_1, Hmark. simpl.
  destruct (includes videoPageBody recaptcha_marker); [reflexivity|].
  destruct (includes videoPageBody playability_marker); reflexivity.
Qed.

(** C1 (the code departs from the claim) -- For every watch page that holds
    the marker of a captcha and no marker of the captions, [fetchTranscript]
    ends in [YoutubeTranscriptDisabledError]: the
    [YoutubeTranscriptTooManyRequestError] thrown at line 93 is caught at
    line 115. *)
Theorem captcha_page_is_reported_disabled (videoId identifier : str)
    (config : option TranscriptConfig) (log : list request)
    (res : response) (videoPageBody : str) :
  retrieveVideoId videoId = Ok identifier ->
  respond log (videoPageRequest identifier config) = Resolved res ->
  body res = Some videoPageBody ->
  includes videoPageBody captions_marker = false ->
  includes videoPageBody recaptcha_marker = true ->
  fetchTranscript parseFloat numeral_falsy JSON_parse respond videoId config log
  = (Throw (YoutubeTranscriptDisabledError videoId),
     log ++ [videoPageRequest identifier config]).
Proof.
  intros Hid Hres Hbody Hmark _.
  unfold fetchTranscript, bind, lift. rewrite Hid.
  now rewrite (locateCaptions_without_marker videoId _ _ _ _ _ Hres Hbody Hmark).
Qed.

(** ** From the page to the track *)

Lemma fetchTranscript_selects (videoId : str) (config : option TranscriptConfig)
    (log : list request) (identifier : str) (captions transcriptURL : value)
    (log1 : list request) :
  selects numeral_falsy JSON_parse respond videoId config log identifier captions transcriptURL log1 ->
  fetchTranscript parseFloat numeral_falsy JSON_parse respond videoId config log
  = readTranscript parseFloat numeral_falsy JSON_parse respond
      videoId identifier config captions transcriptURL log1.
Proof.
  intros (Hid & Hloc & Htruthy & Hhas & Hsel).
  unfold fetchTranscript, bind, lift.
  now rewrite Hid, Hloc, Htruthy, Hhas, Hsel.
Qed.

(** A value with a list of tracks is an object that has the property. *)
Lemma get_array_object (captions : value) (key : str) (tracks : list value) :
  get captions key = Ok (VArray tracks) ->
  exists fields,
    captions = VObject fields /\ property key fields = Some (VArray tracks).
Proof.
  destruct captions; simpl; try discriminate.
  intros H. eexists. split; [reflexivity|].
  destruct (property key l); [congruence|discriminate].
Qed.

(** C2 (the code departs from the claim) -- When the catalog of the watch
    page has an empty list of tracks and no language is requested (none is
    configured, or the empty string), [fetchTranscript] ends in a TypeError
    of the runtime, which is no instance of [YoutubeTranscriptError]: line
    148 reads [baseUrl] of [captionTracks[0]], which is [undefined]. *)
Theorem empty_catalog_raises_TypeError (videoId identifier : str)
    (config : option TranscriptConfig) (log log1 : list request)
    (captions : value) :
  retrieveVideoId videoId = Ok identifier ->
  locateCaptions JSON_parse respond videoId identifier config log = (Ok captions, log1) ->
  get captions (lit "captionTracks") = Ok (VArray []) ->
  requested config = None ->
  fetchTranscript parseFloat numeral_falsy JSON_parse respond videoId config log
  = (Throw (Runtime TypeError), log1) /\
  is_YoutubeTranscriptError (Runtime TypeError) = false.
Proof.
  intros Hid Hloc Hget Hlang. split; [|reflexivity].
  destruct (get_array_object _ _ _ Hget) as (fields & -> & Hprop).
  unfold fetchTranscript, bind, lift. rewrite Hid, Hloc. simpl.
  rewrite Hprop. simpl.
  unfold selectTrack, checkLanguage, selectedTrack.
  rewrite Hlang. simpl. rewrite Hprop. reflexivity.
Qed.

(** ** The fallback *)

Lemma innerTubeLocate_first_request (identifier : str)
    (config : option TranscriptConfig) (log : list request) :
  exists rest,
    snd (innerTubeLocate numeral_falsy JSON_parse respond identifier config log)
    = log ++ InnerTubeApiRequest identifier :: rest.
Proof.
  unfold innerTubeLocate. unfold_M.
  exists [].
  destruct (respond log (InnerTubeApiRequest identifier)) as [r|]; [|reflexivity].
  destruct (ok r); [|reflexivity].
  destruct (body r) as [t|]; [|reflexivity].
  destruct (parse_json JSON_parse t) as [data|]; [|reflexivity].
  destruct (obind _ _) as [innerTubeCaptions|]; [|reflexivity].
  destruct (if truthy numeral_falsy innerTubeCaptions then _ else _) as [tracks|];
    [|reflexivity].
  destruct (truthy numeral_falsy tracks); [|reflexivity].
  destruct (obind _ _); reflexivity.
Qed.

Lemma innerTubeRead_log (identifier : str) (config : option TranscriptConfig)
    (innerTubeCaptions url : value) (log : list request) :
  snd (innerTubeRead parseFloat respond identifier config innerTubeCaptions url log)
  = log ++ [innerTubeTranscriptRequest url identifier config].
Proof.
  unfold innerTubeRead. unfold_M.
  destruct (respond log _) as [r|]; [|reflexivity].
  destruct (ok r); [|reflexivity].
  destruct (body r) as [t|]; [|reflexivity].
  destruct (0 <? length t); [|reflexivity].
  destruct (parseTranscript _ _ _ _); reflexivity.
Qed.

Lemma innerTube_first_request (identifier : str)
    (config : option TranscriptConfig) (log : list request) :
  exists rest,
    snd (innerTube parseFloat numeral_falsy JSON_parse respond identifier config log)
    = log ++ InnerTubeApiRequest identifier :: rest.
Proof.
  destruct (innerTubeLocate_first_request identifier config log) as (rest & Hlog).
  unfold innerTube, bind.
  destruct (innerTubeLocate _ _ _ _ _ _) as [[[[c u]|]|e] log'] eqn:E;
    simpl in Hlog; subst log'.
  - rewrite (surjective_pairing (innerTubeRead _ _ _ _ _ _ _)), innerTubeRead_log.
    simpl. rewrite <- app_assoc. simpl. eauto.
  - simpl. eauto.
  - simpl. eauto.
Qed.

(** [readTranscript] when the track of the watch page is empty. *)
Lemma readTranscript_empty_body (videoId identifier : str)
    (config : option TranscriptConfig) (captions transcriptURL : value)
    (log : list request) (res : response) :
  respond log (transcriptRequest transcriptURL config) = Resolved res ->
  ok res = true ->
  body res = Some [] ->
  let log1 := log ++ [transcriptRequest transcriptURL config] in
  let fallback :=
    innerTube parseFloat numeral_falsy JSON_parse respond identifier config log1 in
  readTranscript parseFloat numeral_falsy JSON_parse respond
    videoId identifier config captions transcriptURL log
  = (after_fallback videoId (fst fallback), snd fallback).
Proof.
  intros Hres Hok Hbody log1 fallback.
  unfold readTranscript, bind, fetch, text_of, try_catch.
  rewrite Hres, Hok, Hbody. simpl. fold log1. fold fallback.
  destruct fallback as [[[results|]|e] log2]; reflexivity.
Qed.

(** C3 -- In every run in which the track selected from the watch page is
    fetched with success and its body is empty, the request to the player
    endpoint is issued next, and the run ends with the results of the
    fallback or with [YoutubeTranscriptNotAvailableError]: the latter when
    the fallback does not return results for any reason, among them a
    rejected request, a status that is not a success, a body that cannot be
    read or is not JSON, and data without a list of tracks. *)
Theorem empty_body_runs_fallback (videoId : str)
    (config : option TranscriptConfig) (log : list request) (identifier : str)
    (captions transcriptURL : value) (log1 : list request) (res : response) :
  selects numeral_falsy JSON_parse respond videoId config log identifier captions transcriptURL log1 ->
  respond log1 (transcriptRequest transcriptURL config) = Resolved res ->
  ok res = true ->
  body res = Some [] ->
  let log2 := log1 ++ [transcriptRequest transcriptURL config] in
  let run := fetchTranscript parseFloat numeral_falsy JSON_parse respond
               videoId config log in
  let fallback :=
    innerTube parseFloat numeral_falsy JSON_parse respond identifier config log2 in
  let unavailable := Throw (YoutubeTranscriptNotAvailableError videoId) in
  (exists rest, snd run = log2 ++ InnerTubeApiRequest identifier :: rest) /\
  fst run = after_fallback videoId (fst fallback) /\
  ((forall results, fst fallback <> Ok (Some results)) -> fst run = unavailable) /\
  (respond log2 (InnerTubeApiRequest identifier) = Rejected ->
   fst run = unavailable) /\
  (forall r, respond log2 (InnerTubeApiRequest identifier) = Resolved r ->
     ok r = false -> fst run = unavailable) /\
  (forall r, respond log2 (InnerTubeApiRequest identifier) = Resolved r ->
     body r = None -> fst run = unavailable) /\
  (forall r t, respond log2 (InnerTubeApiRequest identifier) = Resolved r ->
     body r = Some t -> JSON_parse t = None -> fst run = unavailable) /\
  (forall r t data innerTubeCaptions,
     respond log2 (InnerTubeApiRequest identifier) = Resolved r ->
     body r = Some t -> JSON_parse t = Some data ->
     (c <~ optional_get data (lit "captions") ;;
      optional_get c (lit "playerCaptionsTracklistRenderer")) = Ok innerTubeCaptions ->
     truthy numeral_falsy innerTubeCaptions = false \/
     get innerTubeCaptions (lit "captionTracks") = Ok VUndefined ->
     fst run = unavailable).
Proof.
  intros Hsel Hres Hok Hbody log2 run fallback unavailable.
  assert (Hrun : run = (after_fallback videoId (fst fallback), snd fallback)).
  { unfold run. rewrite (fetchTranscript_selects _ _ _ _ _ _ _ Hsel).
    now apply readTranscript_empty_body with (res := res). }
  assert (Hfst : fst run = after_fallback videoId (fst fallback)) by now rewrite Hrun.
  split; [|split; [exact Hfst|]].
  { rewrite Hrun. simpl. apply innerTube_first_request. }
  rewrite Hfst. clear Hrun Hfst run.
  split.
  { intros Hno. destruct (fst fallback) as [[results|]|e]; try reflexivity.
    now destruct (Hno results). }
  unfold fallback, innerTube, innerTubeLocate. unfold_M. unfold parse_json.
  repeat split.
  - intros ->. reflexivity.
  - intros r -> ->. reflexivity.
  - intros r -> Hb. destruct (ok r); [|reflexivity]. now rewrite Hb.
  - intros r t -> Hb Hp. destruct (ok r); [|reflexivity]. now rewrite Hb, Hp.
  - intros r t data innerTubeCaptions -> Hb Hp Hc Ht.
    destruct (ok r); [|reflexivity]. rewrite Hb, Hp, Hc.
    destruct (truthy numeral_falsy innerTubeCaptions) eqn:E.
    + destruct Ht as [Ht|Ht]; [discriminate|]. rewrite Ht. reflexivity.
    + simpl. rewrite E. reflexivity.
Qed.

(** ** The requests of a run *)

Lemma issues_lift {A : Type} (P : request -> Prop) (c : outcome A) :
  issues P (lift c).
Proof. intros log. exists []. simpl. now rewrite app_nil_r. Qed.

Lemma issues_ret {A : Type} (P : request -> Prop) (a : A) : issues P (ret a).
Proof. intros log. exists []. simpl. now rewrite app_nil_r. Qed.

Lemma issues_throw {A : Type} (P : request -> Prop) (e : exn) :
  issues P (@throw A e).
Proof. intros log. exists []. simpl. now rewrite app_nil_r. Qed.

Lemma issues_fetch (P : request -> Prop) (r : request) :
  P r -> issues P (fetch respond r).
Proof.
  intros HP log. exists [r]. unfold fetch.
  destruct (respond log r); simpl; auto.
Qed.

Lemma issues_bind {A B : Type} (P : request -> Prop) (c : M A) (k : A -> M B) :
  issues P c -> (forall a, issues P (k a)) -> issues P (bind c k).
Proof.
  intros Hc Hk log. unfold bind.
  destruct (Hc log) as (l & Hl & HPl).
  destruct (c log) as [[a|e] log']; simpl in Hl; subst log'.
  - destruct (Hk a (log ++ l)) as (l' & Hl' & HPl').
    exists (l ++ l'). rewrite Hl', app_assoc. split; [reflexivity|].
    apply Forall_app. now split.
  - now exists l.
Qed.

Lemma issues_try_catch {A : Type} (P : request -> Prop) (c : M A)
    (handler : exn -> M A) :
  issues P c -> (forall e, issues P (handler e)) -> issues P (try_catch c handler).
Proof.
  intros Hc Hk log. unfold try_catch.
  destruct (Hc log) as (l & Hl & HPl).
  destruct (c log) as [[a|e] log']; simpl in Hl; subst log'.
  - now exists l.
  - destruct (Hk e (log ++ l)) as (l' & Hl' & HPl').
    exists (l ++ l'). rewrite Hl', app_assoc. split; [reflexivity|].
    apply Forall_app. now split.
Qed.

Lemma issues_text_of (P : request -> Prop) (res : response) :
  issues P (text_of res).
Proof.
  unfold text_of. destruct (body res); [apply issues_ret|apply issues_throw].
Qed.

Ltac issues_step :=
  first
    [ apply issues_ret | apply issues_throw | apply issues_lift
    | apply issues_text_of
    | apply issues_bind; [|intros ?]
    | apply issues_try_catch; [|intros ?]
    | match goal with
      | |- issues _ (if ?b then _ else _) => destruct b
      | |- issues _ (match ?x with Some _ => _ | None => _ end) => destruct x
      | |- issues _ (let (_, _) := ?x in _) => destruct x
      end ].

Lemma fetchTranscript_issues (videoId : str) (config : option TranscriptConfig)
    (log : list request) :
  exists l,
    snd (fetchTranscript parseFloat numeral_falsy JSON_parse respond videoId config log)
    = log ++ l /\
    Forall (fun r => exists identifier,
              retrieveVideoId videoId = Ok identifier /\
              of_pipeline identifier config r) l.
Proof.
  unfold fetchTranscript. unfold bind at 1. unfold lift at 1.
  destruct (retrieveVideoId videoId) as [identifier|e] eqn:Hid.
  - assert (H : issues (of_pipeline identifier config)
                  (captions <- locateCaptions JSON_parse respond videoId identifier config ;;
                   if negb (truthy numeral_falsy captions) then
                     throw (YoutubeTranscriptDisabledError videoId)
                   else
                     present <- lift (has (lit "captionTracks") captions) ;;
                     if negb present then
                       throw (YoutubeTranscriptNotAvailableError videoId)
                     else
                       transcriptURL <- lift (selectTrack captions config videoId) ;;
                       readTranscript parseFloat numeral_falsy JSON_parse respond
                         videoId identifier config captions transcriptURL)).
    { unfold locateCaptions, readVideoPage, readTranscript, innerTube,
        innerTubeLocate, innerTubeRead, json_of.
      repeat issues_step;
        apply issues_fetch; unfold of_pipeline; eauto 6. }
    destruct (H log) as (l & Hl & HP). exists l. split; [exact Hl|].
    eapply Forall_impl; [|exact HP]. intros r Hr. eauto.
  - exists []. simpl. now rewrite app_nil_r.
Qed.

(** C8 (amended) -- Whenever the fallback runs, the first request it issues
    is the POST to [https://www.youtube.com/youtubei/v1/player] whose body is
    the client context ([WEB], [2.20241211.01.00]) and the identifier of the
    video; and every POST of a run of [fetchTranscript] is that request. *)
Theorem fallback_posts_to_player_endpoint :
  (forall identifier config log,
     exists rest,
       snd (innerTube parseFloat numeral_falsy JSON_parse respond identifier config log)
       = log ++ InnerTubeApiRequest identifier :: rest) /\
  (forall identifier,
     req_method (InnerTubeApiRequest identifier) = POST /\
     req_url (InnerTubeApiRequest identifier)
     = VString (lit "https://www.youtube.com/youtubei/v1/player") /\
     req_body (InnerTubeApiRequest identifier)
     = Some (VObject
         [(lit "context",
           VObject [(lit "client",
             VObject [(lit "clientName", VString (lit "WEB"));
                      (lit "clientVersion", VString (lit "2.20241211.01.00"))])]);
          (lit "videoId", VString identifier)])) /\
  (forall videoId config log l r,
     snd (fetchTranscript parseFloat numeral_falsy JSON_parse respond videoId config log)
     = log ++ l ->
     In r l ->
     req_method r = POST ->
     exists identifier,
       retrieveVideoId videoId = Ok identifier /\ r = InnerTubeApiRequest identifier).
Proof.
  split; [|split].
  - apply innerTube_first_request.
  - intros identifier. repeat split.
  - intros videoId config log l r Hlog Hin Hpost.
    destruct (fetchTranscript_issues videoId config log) as (l' & Hl' & HP).
    rewrite Hlog in Hl'. apply app_inv_head in Hl'. subst l'.
    rewrite Forall_forall in HP.
    destruct (HP r Hin) as (identifier & Hid & Hr).
    exists identifier. split; [exact Hid|].
    destruct Hr as [->|[(u & ->)|[->|(u & ->)]]];
      try reflexivity; discriminate Hpost.
Qed.

(** ** Two runs against the same network *)

Lemma steady_lift {A : Type} (c : outcome A) : steady (lift c).
Proof. intros log log'. reflexivity. Qed.

Lemma steady_ret {A : Type} (a : A) : steady (ret a).
Proof. intros log log'. reflexivity. Qed.

Lemma steady_throw {A : Type} (e : exn) : steady (@throw A e).
Proof. intros log log'. reflexivity. Qed.

Lemma steady_bind {A B : Type} (c : M A) (k : A -> M B) :
  steady c -> (forall a, steady (k a)) -> steady (bind c k).
Proof.
  intros Hc Hk log log'. unfold bind.
  specialize (Hc log log').
  destruct (c log) as [[a|e] l], (c log') as [[a'|e'] l']; simpl in Hc;
    try discriminate; inversion Hc; subst; [apply Hk|reflexivity].
Qed.

Lemma steady_try_catch {A : Type} (c : M A) (handler : exn -> M A) :
  steady c -> (forall e, steady (handler e)) -> steady (try_catch c handler).
Proof.
  intros Hc Hk log log'. unfold try_catch.
  specialize (Hc log log').
  destruct (c log) as [[a|e] l], (c log') as [[a'|e'] l']; simpl in Hc;
    try discriminate; inversion Hc; subst; [reflexivity|apply Hk].
Qed.

Lemma steady_text_of (res : response) : steady (text_of res).
Proof.
  unfold text_of. destruct (body res); [apply steady_ret|apply steady_throw].
Qed.

Lemma steady_fetch (r : request) : deterministic_stub respond -> steady (fetch respond r).
Proof.
  intros Hdet log log'. unfold fetch. rewrite (Hdet log log' r).
  destruct (respond log' r); reflexivity.
Qed.

Ltac steady_step Hdet :=
  first
    [ apply steady_ret | apply steady_throw | apply steady_lift
    | apply steady_text_of
    | apply (steady_fetch _ Hdet)
    | apply steady_bind; [|intros ?]
    | apply steady_try_catch; [|intros ?]
    | match goal with
      | |- steady (if ?b then _ else _) => destruct b
      | |- steady (match ?x with Some _ => _ | None => _ end) => destruct x
      | |- steady (let (_, _) := ?x in _) => destruct x
      end ].

(** C9 -- Against a deterministic stub, the outcome of [fetchTranscript]
    (the segments, or the exception) is the same from every log; so a second
    call with the same arguments, which starts from the log the first one
    left, has the outcome of the first. *)
Theorem fetchTranscript_repeatable (videoId : str)
    (config : option TranscriptConfig) :
  deterministic_stub respond ->
  steady (fetchTranscript parseFloat numeral_falsy JSON_parse respond videoId config) /\
  forall log,
    let first := fetchTranscript parseFloat numeral_falsy JSON_parse respond
                   videoId config log in
    let second := fetchTranscript parseFloat numeral_falsy JSON_parse respond
                    videoId config (snd first) in
    fst second = fst first.
Proof.
  intros Hdet.
  assert (H : steady (fetchTranscript parseFloat numeral_falsy JSON_parse respond
                        videoId config)).
  { unfold fetchTranscript, locateCaptions, readVideoPage, readTranscript,
      innerTube, innerTubeLocate, innerTubeRead, json_of.
    repeat steady_step Hdet. }
  split; [exact H|]. intros log first second. apply H.
Qed.

(** ** The identifier that cannot be found *)

(** C7 (amended) -- For every input that is not 11 code units long and that
    [RE_YOUTUBE] does not match, [retrieveVideoId] throws an instance of the
    base class [YoutubeTranscriptError] itself, with the message
    [Impossible to retrieve Youtube video ID.]: an instance of no subclass. *)
Theorem retrieveVideoId_unparseable (videoId : str) :
  length videoId <> 11 ->
  regex_match RE_YOUTUBE videoId = None ->
  retrieveVideoId videoId
  = Throw (YoutubeTranscriptError (lit "Impossible to retrieve Youtube video ID.")) /\
  forall e, retrieveVideoId videoId = Throw e ->
    is_YoutubeTranscriptError e = true /\ is_subclass_instance e = false.
Proof.
  intros Hlen Hre. unfold retrieveVideoId.
  apply Nat.eqb_neq in Hlen. rewrite Hlen, Hre.
  split; [reflexivity|]. intros e [= <-]. split; reflexivity.
Qed.

(** ** An empty body in the fallback *)

Lemma innerTube_located (identifier : str) (config : option TranscriptConfig)
    (log log' : list request) (innerTubeCaptions url : value) :
  innerTubeLocate numeral_falsy JSON_parse respond identifier config log
  = (Ok (Some (innerTubeCaptions, url)), log') ->
  innerTube parseFloat numeral_falsy JSON_parse respond identifier config log
  = innerTubeRead parseFloat respond identifier config innerTubeCaptions url log'.
Proof. unfold innerTube, bind. now intros ->. Qed.

Lemma innerTubeRead_body (identifier : str) (config : option TranscriptConfig)
    (innerTubeCaptions url : value) (log : list request) (res : response)
    (innerTubeTranscriptBody : str) :
  respond log (innerTubeTranscriptRequest url identifier config) = Resolved res ->
  ok res = true ->
  body res = Some innerTubeTranscriptBody ->
  innerTubeRead parseFloat respond identifier config innerTubeCaptions url log
  = (if 0 <? length innerTubeTranscriptBody then
       results <~ parseTranscript parseFloat innerTubeTranscriptBody config
                    innerTubeCaptions ;;
       Ok (Some results)
     else Ok None,
     log ++ [innerTubeTranscriptRequest url identifier config]).
Proof.
  intros Hres Hok Hbody. unfold innerTubeRead. unfold_M.
  rewrite Hres, Hok, Hbody.
  destruct (0 <? length innerTubeTranscriptBody); [|reflexivity].
  destruct (parseTranscript _ _ _ _); reflexivity.
Qed.

(** C10 (amended) -- In every run in which the track of the watch page is
    fetched with an empty body and the fallback reaches its own track: if
    the body of that track is empty too, [fetchTranscript] ends in
    [YoutubeTranscriptNotAvailableError]; if it is not empty and holds no
    element, the fallback returns the empty list, just as the track of the
    watch page does with such a body. *)
Theorem empty_fallback_body_is_unavailable (videoId : str)
    (config : option TranscriptConfig) (log : list request) (identifier : str)
    (captions transcriptURL : value) (log1 : list request) (res : response) :
  selects numeral_falsy JSON_parse respond videoId config log identifier captions transcriptURL log1 ->
  respond log1 (transcriptRequest transcriptURL config) = Resolved res ->
  ok res = true ->
  let log2 := log1 ++ [transcriptRequest transcriptURL config] in
  let run := fetchTranscript parseFloat numeral_falsy JSON_parse respond
               videoId config log in
  (forall transcriptBody,
     body res = Some transcriptBody ->
     transcriptBody <> [] ->
     matchAll RE_XML_TRANSCRIPT transcriptBody = [] ->
     run = (Ok [], log2)) /\
  (body res = Some [] ->
   forall innerTubeCaptions innerTubeTranscriptURL log3 res',
     innerTubeLocate numeral_falsy JSON_parse respond identifier config log2
     = (Ok (Some (innerTubeCaptions, innerTubeTranscriptURL)), log3) ->
     let request' :=
       innerTubeTranscriptRequest innerTubeTranscriptURL identifier config in
     respond log3 request' = Resolved res' ->
     ok res' = true ->
     (body res' = Some [] ->
      run = (Throw (YoutubeTranscriptNotAvailableError videoId), log3 ++ [request'])) /\
     (forall innerTubeTranscriptBody,
        body res' = Some innerTubeTranscriptBody ->
        innerTubeTranscriptBody <> [] ->
        matchAll RE_XML_TRANSCRIPT innerTubeTranscriptBody = [] ->
        run = (Ok [], log3 ++ [request']))).
Proof.
  intros Hsel Hres Hok log2 run.
  unfold run. rewrite (fetchTranscript_selects _ _ _ _ _ _ _ Hsel). split.
  - intros transcriptBody Hbody Hne Hnone.
    unfold readTranscript. unfold_M. rewrite Hres, Hok, Hbody. simpl.
    destruct transcriptBody; [congruence|]. simpl.
    unfold parseTranscript. now rewrite Hnone.
  - intros Hbody innerTubeCaptions innerTubeTranscriptURL log3 res' Hloc Hres' Hok'.
    rewrite (readTranscript_empty_body _ _ _ _ _ _ _ Hres Hok Hbody).
    fold log2. rewrite (innerTube_located _ _ _ _ _ _ Hloc). split.
    + intros Hbody'.
      now rewrite (innerTubeRead_body _ _ _ _ _ _ _ Hres' Hok' Hbody').
    + intros innerTubeTranscriptBody Hbody' Hne Hnone.
      rewrite (innerTubeRead_body _ _ _ _ _ _ _ Hres' Hok' Hbody').
      destruct innerTubeTranscriptBody; [congruence|]. simpl.
      unfold parseTranscript. now rewrite Hnone.
Qed.

(** ** The parser *)

Lemma map_results_segments (config : option TranscriptConfig) (captions : value)
    (l : value) (results : list captures) :
  segment_lang config captions = Ok l ->
  map_results parseFloat config captions results
  = Ok (List.map (fun result => segment parseFloat l (fields result)) results).
Proof.
  intros Hl. induction results as [|result results IH]; simpl; [reflexivity|].
  now rewrite Hl, IH.
Qed.

(** After a selection that succeeded, the language of a segment is
    defined: line 234 reads the track that line 148 read. *)
Lemma segment_lang_after_selection (captions : value)
    (config : option TranscriptConfig) (videoId : str) (url : value) :
  selectTrack captions config videoId = Ok url ->
  exists l, segment_lang config captions = Ok l.
Proof.
  unfold selectTrack, checkLanguage, selectedTrack, segment_lang, requested.
  destruct (config_lang config) as [l|]; [eauto|].
  simpl. destruct (get captions (lit "captionTracks")) as [tracks|]; [|discriminate].
  simpl. destruct (get0 tracks) as [track|]; [|discriminate].
  simpl. destruct track; simpl; try discriminate; eauto.
Qed.

(** A track of the watch page that is not empty is what the parser reads. *)
Lemma fetchTranscript_parses (videoId : str) (config : option TranscriptConfig)
    (log : list request) (identifier : str) (captions transcriptURL : value)
    (log1 : list request) (res : response) (transcriptBody : str) :
  selects numeral_falsy JSON_parse respond videoId config log identifier captions
    transcriptURL log1 ->
  respond log1 (transcriptRequest transcriptURL config) = Resolved res ->
  ok res = true ->
  body res = Some transcriptBody ->
  transcriptBody <> [] ->
  fetchTranscript parseFloat numeral_falsy JSON_parse respond videoId config log
  = (parseTranscript parseFloat transcriptBody config captions,
     log1 ++ [transcriptRequest transcriptURL config]).
Proof.
  intros Hsel Hres Hok Hbody Hne.
  rewrite (fetchTranscript_selects _ _ _ _ _ _ _ Hsel).
  unfold readTranscript. unfold_M. rewrite Hres, Hok, Hbody. simpl.
  destruct transcriptBody; [congruence|]. reflexivity.
Qed.

(** The parser alone.  For every body, it returns one segment for each element
    of the scan of the body (the elements [<text start=S dur=D>TEXT</text>]
    whose attributes are between double quotes and hold none, and whose text
    holds no [<], found left to right without overlap), in the order of the
    document: its text is [TEXT] as it stands, its offset [parseFloat S],
    its duration [parseFloat D], and its language the configured one when
    there is one and the [languageCode] of the first track otherwise.  A body
    without an element gives the empty list and no exception. *)
Lemma parseTranscript_segments (transcriptBody : str)
    (config : option TranscriptConfig) (captions : value) :
  exists found,
    scan transcriptBody found /\
    (forall found', scan transcriptBody found' -> found' = found) /\
    (forall l, segment_lang config captions = Ok l ->
       parseTranscript parseFloat transcriptBody config captions
       = Ok (List.map (segment parseFloat l) found)) /\
    (found = [] ->
     parseTranscript parseFloat transcriptBody config captions = Ok []) /\
    (forall l, config_lang config = Some l ->
       segment_lang config captions = Ok (VString l)) /\
    (config_lang config = None ->
     forall track tracks,
       get captions (lit "captionTracks") = Ok (VArray (track :: tracks)) ->
       is_object track = true ->
       segment_lang config captions = Ok (languageCode track)) /\
    (forall videoId url,
       selectTrack captions config videoId = Ok url ->
       exists l, segment_lang config captions = Ok l).
Proof.
  exists (List.map fields (matchAll RE_XML_TRANSCRIPT transcriptBody)).
  pose proof (scan_matchAll transcriptBody) as Hscan.
  split; [exact Hscan|]. split; [|split; [|split; [|split; [|split]]]].
  - intros found' H'. exact (scan_unique _ _ _ H' Hscan).
  - intros l Hl. unfold parseTranscript.
    rewrite (map_results_segments _ _ _ _ Hl). now rewrite map_map.
  - intros Hnone. unfold parseTranscript.
    destruct (matchAll RE_XML_TRANSCRIPT transcriptBody); [reflexivity|discriminate].
  - intros l Hl. unfold segment_lang. now rewrite Hl.
  - intros Hl track tracks Hget Hobj. unfold segment_lang. rewrite Hl, Hget.
    simpl. now apply get_object.
  - apply segment_lang_after_selection.
Qed.

End Pipeline.

(** * Further properties *)

(** ** Where the identifier comes from *)

Lemma strip_prefix_ci_split (p s rest : str) :
  strip_prefix_ci p s = Some rest ->
  exists a, s = a ++ rest /\ length a = length p.
Proof.
  revert s. induction p as [|x p IH]; intros s H; simpl in H.
  - injection H as ->. now exists [].
  - destruct s as [|y s]; [discriminate|].
    destruct (is_ci x y); [|discriminate].
    destruct (IH _ H) as (a & -> & Hlen).
    exists (y :: a). split; [reflexivity|]. simpl. now rewrite Hlen.
Qed.

(** The continuation of a match runs on a suffix of the text. *)
Lemma iterate_suffix
    (step : str -> captures -> (str -> captures -> option matched) -> option matched)
    (k : str -> captures -> option matched) :
  (forall s caps k' m, step s caps k' = Some m ->
     exists a s' caps', s = a ++ s' /\ k' s' caps' = Some m) ->
  forall n s caps m, iterate step k n s caps = Some m ->
    exists a s' caps', s = a ++ s' /\ k s' caps' = Some m.
Proof.
  intros Hstep. induction n as [|n IH]; intros s caps m H; simpl in H.
  - now exists [], s, caps.
  - destruct (step s caps _) as [m'|] eqn:E; [|now exists [], s, caps].
    inversion H. subst m'.
    destruct (Hstep _ _ _ _ E) as (a & s' & caps' & -> & H').
    destruct (length s' <? length (a ++ s')); [|discriminate].
    destruct (IH _ _ _ H') as (a' & s'' & caps'' & -> & H'').
    exists (a ++ a'), s'', caps''. now rewrite <- app_assoc.
Qed.

Lemma rmatch_suffix (r : regex) :
  forall s caps k m, rmatch r s caps k = Some m ->
    exists a s' caps', s = a ++ s' /\ k s' caps' = Some m.
Proof.
  induction r as [|p|r1 IH1 r2 IH2|r1 IH1 r2 IH2|r IH|i r IH];
    intros s caps k m H; cbn [rmatch] in H.
  - now exists [], s, caps.
  - destruct s as [|c s]; [discriminate|].
    destruct (p c); [|discriminate]. now exists [c], s, caps.
  - destruct (IH1 _ _ _ _ H) as (a & s1 & c1 & -> & H1).
    destruct (IH2 _ _ _ _ H1) as (a' & s2 & c2 & -> & H2).
    exists (a ++ a'), s2, c2. now rewrite <- app_assoc.
  - destruct (rmatch r1 s caps k) as [m'|] eqn:E; [|eauto].
    inversion H. subst m'. eauto.
  - now apply (iterate_suffix (rmatch r) k IH _ _ _ _ H).
  - destruct (IH _ _ _ _ H) as (a & s1 & c1 & -> & H1). eauto.
Qed.

(** A match of [RE_YOUTUBE] at the start of [b]: the name of a site, nine
    code units or more, then the eleven code units of the group. *)
Lemma match_here_RE_YOUTUBE_parts (b : str) (m : matched) :
  match_here RE_YOUTUBE b = Some m ->
  exists a id rest,
    b = a ++ id ++ rest /\ 9 <= length a /\ is_id id /\ group 1 (fst m) = id.
Proof.
  intros H.
  assert (Hparts : exists a s1 caps,
            b = a ++ s1 /\ 9 <= length a /\ then_id s1 caps = Some m).
  { rewrite match_here_RE_YOUTUBE in H.
    destruct (strip_prefix_ci (lit "youtube.com/") b) as [s1|] eqn:E1.
    - destruct (strip_prefix_ci_split _ _ _ E1) as (a0 & -> & Hlen0).
      assert (Hsite : forall r, rmatch r s1 [] then_id = Some m ->
                exists a s2 caps,
                  a0 ++ s1 = a ++ s2 /\ 9 <= length a /\ then_id s2 caps = Some m).
      { intros r Hr. destruct (rmatch_suffix _ _ _ _ _ Hr) as (a' & s2 & c2 & -> & H2).
        exists (a0 ++ a'), s2, c2. rewrite <- app_assoc. split; [reflexivity|].
        split; [|exact H2]. rewrite length_app, Hlen0. simpl. lia. }
      destruct (rmatch RE_YOUTUBE_path s1 [] then_id) as [m1|] eqn:Ep.
      { apply (Hsite RE_YOUTUBE_path). congruence. }
      destruct (rmatch RE_YOUTUBE_embed s1 [] then_id) as [m2|] eqn:Ee.
      { apply (Hsite RE_YOUTUBE_embed). congruence. }
      destruct (rmatch RE_YOUTUBE_query s1 [] then_id) as [m3|] eqn:Eq.
      { apply (Hsite RE_YOUTUBE_query). congruence. }
      destruct (strip_prefix_ci (lit "youtu.be/") (a0 ++ s1)) as [s2|] eqn:E2;
        [|discriminate].
      destruct (strip_prefix_ci_split _ _ _ E2) as (a & Hb & Hlen).
      exists a, s2, []. rewrite Hlen. simpl. auto.
    - destruct (strip_prefix_ci (lit "youtu.be/") b) as [s2|] eqn:E2;
        [|discriminate].
      destruct (strip_prefix_ci_split _ _ _ E2) as (a & Hb & Hlen).
      exists a, s2, []. rewrite Hlen. simpl. auto. }
  destruct Hparts as (a & s1 & caps & -> & Hlen & Hid).
  pose proof (then_id_is_id _ _ _ Hid) as His.
  rewrite then_id_eq in Hid.
  destruct ((11 <=? length s1) && forallb id_char (firstn 11 s1)); [|discriminate].
  destruct m as [caps' rest']. 
  assert (Hcaps : caps' = (1, firstn 11 s1) :: caps) by congruence.
  exists a, (firstn 11 s1), (skipn 11 s1).
  rewrite firstn_skipn. repeat split; try assumption; try exact (proj1 His).
  - rewrite Hcaps in His. exact (proj1 His).
  - rewrite Hcaps in His. exact (proj2 His).
  - now rewrite Hcaps.
Qed.

Lemma regex_match_RE_YOUTUBE_parts (s : str) (m : matched) :
  regex_match RE_YOUTUBE s = Some m ->
  exists a id rest,
    s = a ++ id ++ rest /\ 9 <= length a /\ is_id id /\ group 1 (fst m) = id.
Proof.
  intros H. destruct (regex_match_somewhere _ _ _ H) as (a0 & b & -> & Hb).
  destruct (match_here_RE_YOUTUBE_parts _ _ Hb) as (a & id & rest & -> & Hlen & Hid & Hg).
  exists (a0 ++ a), id, rest. rewrite <- app_assoc. repeat split; try tauto.
  - rewrite length_app. lia.
  - exact (proj1 Hid).
  - exact (proj2 Hid).
Qed.

(** X1 -- What [retrieveVideoId] returns is a piece of its input: eleven
    consecutive code units of it.  When the input is not itself eleven code
    units long, nine code units or more stand before that piece (the name of
    the site), and none of the eleven is the double quote, [&], [?], [/] or
    white space. *)
Theorem retrieveVideoId_piece_of_input (videoId id : str) :
  retrieveVideoId videoId = Ok id ->
  exists a b,
    videoId = a ++ id ++ b /\ length id = 11 /\
    (length videoId <> 11 -> 9 <= length a /\ forallb id_char id = true).
Proof.
  unfold retrieveVideoId. destruct (length videoId =? 11) eqn:E.
  - intros [= <-]. apply Nat.eqb_eq in E. exists [], [].
    rewrite app_nil_r. repeat split; [exact E|congruence|congruence].
  - destruct (regex_match RE_YOUTUBE videoId) as [[caps rest]|] eqn:Em;
      [|discriminate].
    intros [= <-].
    destruct (regex_match_RE_YOUTUBE_parts _ _ Em)
      as (a & id & b & -> & Hlen & [Hid Hclass] & Hg).
    cbn [fst] in Hg. exists a, b. rewrite Hg. repeat split; assumption.
Qed.

(** X2 -- An input shorter than twenty code units, and not eleven long, is
    no address: [retrieveVideoId] throws.  Twenty is the length of the
    shortest address, [youtu.be/] and an identifier. *)
Theorem retrieveVideoId_short_input (videoId : str) :
  length videoId < 20 ->
  length videoId <> 11 ->
  retrieveVideoId videoId
  = Throw (YoutubeTranscriptError (lit "Impossible to retrieve Youtube video ID.")).
Proof.
  intros Hshort Hlen. unfold retrieveVideoId.
  apply Nat.eqb_neq in Hlen. rewrite Hlen.
  destruct (regex_match RE_YOUTUBE videoId) as [[caps rest]|] eqn:Em;
    [|reflexivity].
  destruct (regex_match_RE_YOUTUBE_parts _ _ Em)
    as (a & id & b & -> & Ha & [Hid _] & _).
  rewrite !length_app in Hshort. lia.
Qed.

(** X3 -- The identifier of an address is accepted as an input and stands
    for itself: [retrieveVideoId] is idempotent. *)
Theorem retrieveVideoId_idempotent (videoId id : str) :
  retrieveVideoId videoId = Ok id -> retrieveVideoId id = Ok id.
Proof.
  intros H.
  assert (Hlen : length id = 11).
  { revert H. unfold retrieveVideoId. destruct (length videoId =? 11) eqn:E.
    - intros [= <-]. now apply Nat.eqb_eq.
    - destruct (regex_match RE_YOUTUBE videoId) as [[caps rest]|] eqn:Em;
        [|discriminate].
      intros [= <-]. exact (proj1 (regex_match_RE_YOUTUBE_is_id _ _ Em)). }
  unfold retrieveVideoId. now rewrite Hlen.
Qed.

(** The name of a site is compared up to the case of its letters. *)
Lemma strip_prefix_ci_canonical (p w s : str) :
  List.map canonicalize w = List.map canonicalize p ->
  strip_prefix_ci p (w ++ s) = Some s.
Proof.
  revert w. induction p as [|x p IH]; intros w H.
  - destruct w; [reflexivity|discriminate].
  - destruct w as [|y w]; [discriminate|]. simpl in H. injection H as Hy Hw.
    simpl. unfold is_ci. rewrite Hy, char_eqb_refl. now apply IH.
Qed.

(** X4 -- The expression has the [i] flag: [youtu.be/] is recognised in
    any letter case, and the identifier after it is returned as it is
    written, whatever follows it. *)
Theorem retrieveVideoId_ignores_case (pre site id post : str) :
  no_y pre ->
  List.map canonicalize site = List.map canonicalize (lit "youtu.be/") ->
  is_id id ->
  retrieveVideoId (pre ++ site ++ id ++ post) = Ok id.
Proof.
  intros Hpre Hsite Hid.
  apply retrieveVideoId_address with (rest := post); [exact Hpre| |].
  - apply longer_than_11.
    + intros ->. discriminate.
    + rewrite length_app, (proj1 Hid). lia.
  - rewrite match_here_RE_YOUTUBE.
    rewrite (strip_prefix_ci_canonical (lit "youtu.be/") site _ Hsite).
    replace (strip_prefix_ci (lit "youtube.com/") (site ++ id ++ post))
      with (@None str); [now apply then_id_here|].
    do 6 (destruct site as [|? site]; [discriminate|]).
    simpl in Hsite. injection Hsite as H1 H2 H3 H4 H5 H6 _.
    change (lit "youtube.com/") with
      (ch "y" :: ch "o" :: ch "u" :: ch "t" :: ch "u" :: ch "b" :: lit "e.com/").
    cbn [strip_prefix_ci app]. unfold is_ci.
    rewrite H1, H2, H3, H4, H5, H6. reflexivity.
Qed.

(** ** An identifier that is passed over *)

(** C6 -- The alternative [[^/]+/.+/] of the expression stands before the
    one of [embed/], [v/] and [e/], and its [.+] is greedy.  So for an
    address of one of these shapes in which the identifier [id] is followed
    by a text on one line, a slash and eleven code units of the class that
    end the address (an [origin] parameter with the address of a site, say),
    [retrieveVideoId] returns these last eleven code units and not the
    identifier of the address. *)
Theorem embedded_identifier_is_passed_over (pre id mid id' : str) :
  no_y pre ->
  is_id id ->
  forallb dot mid = true ->
  is_id id' ->
  let after := id ++ mid ++ ch "/" :: id' in
  retrieveVideoId (pre ++ lit "youtube.com/embed/" ++ after) = Ok id' /\
  retrieveVideoId (pre ++ lit "youtube.com/v/" ++ after) = Ok id' /\
  retrieveVideoId (pre ++ lit "youtube.com/e/" ++ after) = Ok id' /\
  (id' <> id ->
   retrieveVideoId (pre ++ lit "youtube.com/embed/" ++ after) <> Ok id).
Proof.
  intros Hpre Hid Hmid Hid' after.
  assert (Hdot : forallb dot (id ++ mid) = true).
  { rewrite forallb_app, Hmid, andb_true_r.
    apply forallb_forall. intros c Hc.
    destruct Hid as [_ Hclass].
    rewrite forallb_forall in Hclass. now apply id_char_spec, Hclass. }
  assert (Hne : id ++ mid <> []).
  { destruct Hid as [Hlen _]. destruct id; [discriminate|discriminate]. }
  assert (Hpath : forall seg : str,
            seg <> [] -> no_slash seg ->
            retrieveVideoId
              (pre ++ lit "youtube.com/" ++ seg ++ ch "/" :: (id ++ mid) ++ ch "/" :: id')
            = Ok id').
  { intros seg Hseg Hns.
    apply retrieveVideoId_address with (rest := []);
      [exact Hpre| |now apply match_here_path].
    pose proof Hid' as [Hlen _]. address_is_long Hlen. }
  assert (Hembed : retrieveVideoId (pre ++ lit "youtube.com/embed/" ++ after) = Ok id').
  { unfold after. rewrite (app_assoc id).
    apply (Hpath (lit "embed")); [discriminate|reflexivity]. }
  split; [exact Hembed|]. split; [|split].
  - unfold after. rewrite (app_assoc id).
    apply (Hpath (lit "v")); [discriminate|reflexivity].
  - unfold after. rewrite (app_assoc id).
    apply (Hpath (lit "e")); [discriminate|reflexivity].
  - intros Hdiff. rewrite Hembed. intros [= E]. now apply Hdiff.
Qed.

(** ** The exceptions of the pure stages *)

Lemma oraises_bind {A B : Type} (P : exn -> Prop) (c : outcome A)
    (k : A -> outcome B) :
  oraises P c -> (forall a, oraises P (k a)) -> oraises P (obind c k).
Proof.
  intros Hc Hk e. destruct c as [a|e']; simpl.
  - apply Hk.
  - intros [= <-]. now apply Hc.
Qed.

Lemma oraises_weaken {A : Type} (P Q : exn -> Prop) (c : outcome A) :
  (forall e, P e -> Q e) -> oraises P c -> oraises Q c.
Proof. intros HPQ Hc e H. apply HPQ. now apply Hc. Qed.

(** Reading a value throws nothing but a TypeError. *)
Ltac reads_value :=
  let e := fresh "e" in
  let H := fresh "H" in
  intros e H;
  repeat match type of H with
         | context [match ?x with _ => _ end] => destruct x
         end;
  try discriminate; injection H as <-; assumption.

Section TypeErrors.

Variable P : exn -> Prop.
Hypothesis TypeError_in : P (Runtime TypeError).

Lemma oraises_get (v : value) (key : str) : oraises P (get v key).
Proof. unfold get. reads_value. Qed.

Lemma oraises_optional_get (v : value) (key : str) : oraises P (optional_get v key).
Proof. unfold optional_get, get. reads_value. Qed.

Lemma oraises_get0 (v : value) : oraises P (get0 v).
Proof. unfold get0. reads_value. Qed.

Lemma oraises_has (key : str) (v : value) : oraises P (has key v).
Proof. unfold has. reads_value. Qed.

Lemma oraises_as_array (v : value) : oraises P (as_array v).
Proof. unfold as_array. reads_value. Qed.

Lemma oraises_speaks (l : str) (track : value) : oraises P (speaks l track).
Proof.
  unfold speaks. apply oraises_bind; [apply oraises_get|].
  intros code e. discriminate.
Qed.

Lemma oraises_some_speaks (l : str) (tracks : list value) :
  oraises P (some_speaks l tracks).
Proof.
  induction tracks as [|track tracks IH]; simpl; [intros e; discriminate|].
  apply oraises_bind; [apply oraises_speaks|]. intros [|]; [|exact IH].
  intros e. discriminate.
Qed.

Lemma oraises_find_speaks (l : str) (tracks : list value) :
  oraises P (find_speaks l tracks).
Proof.
  induction tracks as [|track tracks IH]; simpl; [intros e; discriminate|].
  apply oraises_bind; [apply oraises_speaks|]. intros [|]; [|exact IH].
  intros e. discriminate.
Qed.

Lemma oraises_map_languageCode (tracks : list value) :
  oraises P (map_languageCode tracks).
Proof.
  induction tracks as [|track tracks IH]; simpl; [intros e; discriminate|].
  apply oraises_bind; [apply oraises_get|]. intros code.
  apply oraises_bind; [exact IH|]. intros codes e. discriminate.
Qed.

Lemma oraises_selectedTrack (captions : value) (config : option TranscriptConfig) :
  oraises P (selectedTrack captions config).
Proof.
  unfold selectedTrack. apply oraises_bind; [apply oraises_get|].
  intros captionTracks. destruct (requested config); [|apply oraises_get0].
  apply oraises_bind; [apply oraises_as_array|]. intros tracks.
  apply oraises_find_speaks.
Qed.

Lemma oraises_parseTranscript (number : Type) (parseFloat : str -> number)
    (transcriptBody : str) (config : option TranscriptConfig) (captions : value) :
  oraises P (parseTranscript parseFloat transcriptBody config captions).
Proof.
  unfold parseTranscript.
  induction (matchAll RE_XML_TRANSCRIPT transcriptBody) as [|result results IH];
    simpl; [intros e; discriminate|].
  apply oraises_bind.
  - unfold segment_lang. destruct (config_lang config); [intros e; discriminate|].
    apply oraises_bind; [apply oraises_get|]. intros captionTracks.
    apply oraises_bind; [apply oraises_get0|]. intros track. apply oraises_get.
  - intros l. apply oraises_bind; [exact IH|]. intros rest e. discriminate.
Qed.

End TypeErrors.

(** The selection throws a TypeError, or the error of the language that
    is requested. *)
Lemma selectTrack_raises (captions : value) (config : option TranscriptConfig)
    (videoId : str) :
  oraises (after_page_error videoId config) (selectTrack captions config videoId).
Proof.
  assert (HT : after_page_error videoId config (Runtime TypeError))
    by (right; right; now left).
  unfold selectTrack. apply oraises_bind.
  - unfold checkLanguage. destruct (requested config) as [l|] eqn:El;
      [|intros e; discriminate].
    apply oraises_bind; [now apply oraises_get|]. intros captionTracks.
    apply oraises_bind; [now apply oraises_as_array|]. intros tracks.
    apply oraises_bind; [now apply oraises_some_speaks|].
    intros [|]; [intros e; discriminate|].
    apply oraises_bind; [now apply oraises_map_languageCode|].
    intros codes. unfold new_YoutubeTranscriptNotAvailableLanguageError.
    destruct (join_throws codes); simpl; intros e [= <-]; [exact HT|].
    right; left. now exists l, codes.
  - intros _. apply oraises_bind; [now apply oraises_selectedTrack|].
    intros track. now apply oraises_get.
Qed.

Lemma retrieveVideoId_raises (videoId : str) (e : exn) :
  retrieveVideoId videoId = Throw e ->
  e = YoutubeTranscriptError (lit "Impossible to retrieve Youtube video ID.").
Proof.
  unfold retrieveVideoId. destruct (length videoId =? 11); [discriminate|].
  destruct (regex_match RE_YOUTUBE videoId) as [[caps rest]|]; [discriminate|].
  now intros [= <-].
Qed.

Section Outcomes.

Variable number : Type.
Variable parseFloat : str -> number.
Variable numeral_falsy : str -> bool.
Variable JSON_parse : str -> option value.
Variable respond : list request -> request -> fetch_result.

(** ** The exceptions of a call *)

Lemma raises_weaken {A : Type} (P Q : exn -> Prop) (c : M A) :
  (forall e, P e -> Q e) -> raises P c -> raises Q c.
Proof. intros HPQ Hc log e H. apply HPQ. now apply (Hc log). Qed.

Lemma raises_ret {A : Type} (P : exn -> Prop) (a : A) : raises P (ret a).
Proof. intros log e. discriminate. Qed.

Lemma raises_throw {A : Type} (P : exn -> Prop) (e : exn) :
  P e -> raises P (@throw A e).
Proof. intros He log e' [= <-]. exact He. Qed.

Lemma raises_lift {A : Type} (P : exn -> Prop) (c : outcome A) :
  oraises P c -> raises P (lift c).
Proof. intros Hc log e. apply Hc. Qed.

Lemma raises_bind {A B : Type} (P : exn -> Prop) (c : M A) (k : A -> M B) :
  raises P c -> (forall a, raises P (k a)) -> raises P (bind c k).
Proof.
  intros Hc Hk log e. unfold bind.
  specialize (Hc log). destruct (c log) as [[a|e'] log'].
  - apply Hk.
  - simpl. intros [= <-]. now apply Hc.
Qed.

(** A [try] raises what its handler raises. *)
Lemma raises_try_catch {A : Type} (P : exn -> Prop) (c : M A)
    (handler : exn -> M A) :
  (forall e, raises P (handler e)) -> raises P (try_catch c handler).
Proof.
  intros Hh log e. unfold try_catch. destruct (c log) as [[a|e'] log'].
  - discriminate.
  - apply Hh.
Qed.

Lemma raises_fetch (P : exn -> Prop) (r : request) :
  P (Runtime NetworkError) -> raises P (fetch respond r).
Proof.
  intros HP log e. unfold fetch. destruct (respond log r); [discriminate|].
  now intros [= <-].
Qed.

Lemma raises_text_of (P : exn -> Prop) (res : response) :
  P (Runtime NetworkError) -> raises P (text_of res).
Proof.
  intros HP log e. unfold text_of. destruct (body res); [discriminate|].
  now intros [= <-].
Qed.

Lemma readTranscript_raises (videoId identifier : str)
    (config : option TranscriptConfig) (captions transcriptURL : value) :
  raises (after_page_error videoId config)
    (readTranscript parseFloat numeral_falsy JSON_parse respond
       videoId identifier config captions transcriptURL).
Proof.
  assert (HT : after_page_error videoId config (Runtime TypeError))
    by (right; right; now left).
  assert (HN : after_page_error videoId config (Runtime NetworkError))
    by (right; right; now right).
  assert (HA : after_page_error videoId config
                 (YoutubeTranscriptNotAvailableError videoId)) by now left.
  unfold readTranscript.
  apply raises_bind; [now apply raises_fetch|]. intros res.
  destruct (negb (ok res)); [now apply raises_throw|].
  apply raises_bind; [now apply raises_text_of|]. intros transcriptBody.
  destruct (length transcriptBody =? 0).
  - apply raises_bind.
    + apply raises_try_catch. intros e. apply raises_ret.
    + intros [results|]; [apply raises_ret|now apply raises_throw].
  - apply raises_lift. now apply oraises_parseTranscript.
Qed.

(** The run after a watch page that gave [captions]. *)
Lemma fetchTranscript_after_page (videoId : str) (config : option TranscriptConfig)
    (log : list request) (identifier : str) (captions : value)
    (log1 : list request) :
  retrieveVideoId videoId = Ok identifier ->
  locateCaptions JSON_parse respond videoId identifier config log = (Ok captions, log1) ->
  fetchTranscript parseFloat numeral_falsy JSON_parse respond videoId config log
  = (if negb (truthy numeral_falsy captions) then
       throw (YoutubeTranscriptDisabledError videoId)
     else
       present <- lift (has (lit "captionTracks") captions) ;;
       if negb present then throw (YoutubeTranscriptNotAvailableError videoId)
       else
         transcriptURL <- lift (selectTrack captions config videoId) ;;
         readTranscript parseFloat numeral_falsy JSON_parse respond
           videoId identifier config captions transcriptURL) log1.
Proof.
  intros Hid Hloc. unfold fetchTranscript.
  unfold bind at 1. unfold lift at 1. rewrite Hid.
  unfold bind at 1. now rewrite Hloc.
Qed.

Lemma after_page_raises (videoId identifier : str)
    (config : option TranscriptConfig) (captions : value) :
  raises (after_page_error videoId config)
    (present <- lift (has (lit "captionTracks") captions) ;;
     if negb present then throw (YoutubeTranscriptNotAvailableError videoId)
     else
       transcriptURL <- lift (selectTrack captions config videoId) ;;
       readTranscript parseFloat numeral_falsy JSON_parse respond
         videoId identifier config captions transcriptURL).
Proof.
  apply raises_bind.
  - apply raises_lift, oraises_has. right; right; now left.
  - intros present. destruct (negb present).
    + apply raises_throw. now left.
    + apply raises_bind; [apply raises_lift, selectTrack_raises|].
      intros transcriptURL. apply readTranscript_raises.
Qed.

Lemma fetchTranscript_raises (videoId : str) (config : option TranscriptConfig) :
  raises (call_error videoId config)
    (fetchTranscript parseFloat numeral_falsy JSON_parse respond videoId config).
Proof.
  unfold fetchTranscript. apply raises_bind.
  { apply raises_lift. intros e H. left. now apply retrieveVideoId_raises with videoId. }
  intros identifier. apply raises_bind.
  { unfold locateCaptions. apply raises_try_catch. intros e. apply raises_ret. }
  intros captions. destruct (negb (truthy numeral_falsy captions)).
  { apply raises_throw. right. now left. }
  apply raises_weaken with (P := after_page_error videoId config).
  { intros e He. right. now right. }
  apply after_page_raises.
Qed.

(** X5 -- Whatever the input, the configuration and the network, a call
    that fails throws the base error of an input without identifier,
    [YoutubeTranscriptDisabledError], [YoutubeTranscriptNotAvailableError],
    [YoutubeTranscriptNotAvailableLanguageError] for the language that is
    requested, each with the input as it was given, or a TypeError or a
    network error of the runtime.  It never throws
    [YoutubeTranscriptTooManyRequestError] nor
    [YoutubeTranscriptVideoUnavailableError], which lines 93 and 96
    construct, and no SyntaxError of [JSON.parse] leaves it. *)
Theorem fetchTranscript_errors (videoId : str) (config : option TranscriptConfig)
    (log : list request) (e : exn) :
  fst (fetchTranscript parseFloat numeral_falsy JSON_parse respond videoId config log)
  = Throw e ->
  call_error videoId config e /\
  e <> YoutubeTranscriptTooManyRequestError /\
  (forall v, e <> YoutubeTranscriptVideoUnavailableError v) /\
  e <> Runtime SyntaxError.
Proof.
  intros H. pose proof (fetchTranscript_raises videoId config log e H) as He.
  split; [exact He|].
  destruct He as [->|[->|[->|[(l & codes & _ & ->)|[->| ->]]]]];
    repeat split; try discriminate; intros v; discriminate.
Qed.

(** X6 -- For an input with an identifier, the call throws
    [YoutubeTranscriptDisabledError] exactly when the [try] of the watch
    page leaves [captions] falsy: no later stage throws that error. *)
Theorem disabled_iff_no_captions (videoId : str) (config : option TranscriptConfig)
    (log : list request) (identifier : str) (captions : value)
    (log1 : list request) :
  retrieveVideoId videoId = Ok identifier ->
  locateCaptions JSON_parse respond videoId identifier config log = (Ok captions, log1) ->
  (fst (fetchTranscript parseFloat numeral_falsy JSON_parse respond videoId config log)
   = Throw (YoutubeTranscriptDisabledError videoId)
   <-> truthy numeral_falsy captions = false).
Proof.
  intros Hid Hloc. rewrite (fetchTranscript_after_page _ _ _ _ _ _ Hid Hloc).
  destruct (truthy numeral_falsy captions) eqn:E; simpl.
  - split; [|discriminate]. intros H.
    apply (after_page_raises videoId identifier config captions log1) in H.
    destruct H as [H|[(l & codes & _ & H)|[H|H]]]; discriminate.
  - split; reflexivity.
Qed.

(** ** The requests of a call, in order *)

(** The watch page is requested once, whatever comes of it. *)
Lemma locateCaptions_log (videoId identifier : str)
    (config : option TranscriptConfig) (log : list request) :
  snd (locateCaptions JSON_parse respond videoId identifier config log)
  = log ++ [videoPageRequest identifier config].
Proof.
  unfold locateCaptions, readVideoPage. unfold_M.
  destruct (respond log _) as [res|]; [|reflexivity].
  destruct (body res) as [videoPageBody|]; [|reflexivity].
  destruct (length _ <=? 1).
  - destruct (includes _ _); [reflexivity|]. now destruct (negb _).
  - now destruct (obind _ _).
Qed.

(** The player endpoint is requested once. *)
Lemma innerTubeLocate_log (identifier : str) (config : option TranscriptConfig)
    (log : list request) :
  snd (innerTubeLocate numeral_falsy JSON_parse respond identifier config log)
  = log ++ [InnerTubeApiRequest identifier].
Proof.
  unfold innerTubeLocate. unfold_M.
  destruct (respond log _) as [res|]; [|reflexivity].
  destruct (ok res); [|reflexivity].
  destruct (body res) as [t|]; [|reflexivity].
  destruct (parse_json JSON_parse t) as [data|]; [|reflexivity].
  destruct (obind _ _) as [innerTubeCaptions|]; [|reflexivity].
  destruct (if truthy numeral_falsy innerTubeCaptions then _ else _)
    as [captionTracks|]; [|reflexivity].
  destruct (truthy numeral_falsy captionTracks); [|reflexivity].
  now destruct (obind _ _).
Qed.

Lemma innerTube_log (identifier : str) (config : option TranscriptConfig)
    (log : list request) :
  let l := snd (innerTube parseFloat numeral_falsy JSON_parse respond
                  identifier config log) in
  l = log ++ [InnerTubeApiRequest identifier] \/
  exists u,
    l = log ++ [InnerTubeApiRequest identifier;
                innerTubeTranscriptRequest u identifier config].
Proof.
  cbv zeta. unfold innerTube, bind.
  pose proof (innerTubeLocate_log identifier config log) as Hlog.
  destruct (innerTubeLocate _ _ _ _ _ _) as [[[[innerTubeCaptions u]|]|e] log1];
    simpl in Hlog; subst log1; simpl; auto.
  right. exists u. rewrite innerTubeRead_log, <- app_assoc. reflexivity.
Qed.

Lemma readTranscript_log (videoId identifier : str)
    (config : option TranscriptConfig) (captions transcriptURL : value)
    (log : list request) :
  let l := snd (readTranscript parseFloat numeral_falsy JSON_parse respond
                  videoId identifier config captions transcriptURL log) in
  l = log ++ [transcriptRequest transcriptURL config] \/
  l = log ++ [transcriptRequest transcriptURL config; InnerTubeApiRequest identifier] \/
  exists u,
    l = log ++ [transcriptRequest transcriptURL config; InnerTubeApiRequest identifier;
                innerTubeTranscriptRequest u identifier config].
Proof.
  cbv zeta. unfold readTranscript. unfold_M.
  destruct (respond log _) as [res|]; [|now left].
  destruct (negb (ok res)); [now left|].
  destruct (body res) as [transcriptBody|]; [|now left].
  destruct (length transcriptBody =? 0); [|now left].
  right.
  pose proof (innerTube_log identifier config
                (log ++ [transcriptRequest transcriptURL config])) as Hlog.
  destruct (innerTube _ _ _ _ _ _ _) as [[[results|]|e] log2]; simpl in Hlog; simpl;
    (destruct Hlog as [->|(u & ->)];
     [left|right; exists u]; now rewrite <- app_assoc).
Qed.

(** X7 -- A call issues between no request and four.  An input without
    identifier is refused before any request; otherwise the watch page is
    requested first, and what follows is, in this order and each once at
    most, the selected track, the POST to the player endpoint and the track
    of the fallback. *)
Theorem fetchTranscript_requests (videoId : str) (config : option TranscriptConfig)
    (log : list request) :
  exists l,
    snd (fetchTranscript parseFloat numeral_falsy JSON_parse respond videoId config log)
    = log ++ l /\
    match retrieveVideoId videoId with
    | Throw _ => l = []
    | Ok identifier => in_order identifier config l
    end.
Proof.
  destruct (retrieveVideoId videoId) as [identifier|e] eqn:Hid.
  - destruct (locateCaptions JSON_parse respond videoId identifier config log)
      as [[captions|e] log1] eqn:Hloc.
    2:{ destruct (locateCaptions_never_throws JSON_parse respond
                    videoId identifier config log) as (c & Hc).
        rewrite Hloc in Hc. discriminate. }
    pose proof (locateCaptions_log videoId identifier config log) as Hlog.
    rewrite Hloc in Hlog. simpl in Hlog. subst log1.
    rewrite (fetchTranscript_after_page _ _ _ _ _ _ Hid Hloc).
    set (p := videoPageRequest identifier config).
    destruct (negb (truthy numeral_falsy captions)).
    { exists [p]. split; [reflexivity|now left]. }
    unfold bind at 1. unfold lift at 1.
    destruct (has (lit "captionTracks") captions) as [present|e].
    2:{ exists [p]. split; [reflexivity|now left]. }
    destruct (negb present).
    { exists [p]. split; [reflexivity|now left]. }
    unfold bind at 1. unfold lift at 1.
    destruct (selectTrack captions config videoId) as [transcriptURL|e].
    2:{ exists [p]. split; [reflexivity|now left]. }
    destruct (readTranscript_log videoId identifier config captions transcriptURL
                (log ++ [p])) as [H|[H|(u & H)]];
      rewrite H, <- app_assoc; eexists; (split; [reflexivity|]);
      right; exists transcriptURL.
    + now left.
    + right. now left.
    + right. right. now exists u.
  - exists []. unfold fetchTranscript, bind, lift. rewrite Hid.
    now rewrite app_nil_r.
Qed.

(** The fallback returns results only after it has fetched its track. *)
Lemma innerTube_results_log (identifier : str) (config : option TranscriptConfig)
    (log : list request) (results : list (TranscriptResponse number)) :
  fst (innerTube parseFloat numeral_falsy JSON_parse respond identifier config log)
  = Ok (Some results) ->
  exists u,
    snd (innerTube parseFloat numeral_falsy JSON_parse respond identifier config log)
    = log ++ [InnerTubeApiRequest identifier;
              innerTubeTranscriptRequest u identifier config].
Proof.
  unfold innerTube, bind.
  pose proof (innerTubeLocate_log identifier config log) as Hlog.
  destruct (innerTubeLocate _ _ _ _ _ _) as [[[[innerTubeCaptions u]|]|e] log1];
    simpl in Hlog; subst log1; simpl; try discriminate.
  intros _. exists u. rewrite innerTubeRead_log, <- app_assoc. reflexivity.
Qed.

(** X18 -- A call that returns segments has fetched a track: it issued
    exactly two requests, the watch page and the selected track, or exactly
    four, when the segments are those of the fallback.  No segment comes
    from the watch page or from the player endpoint alone. *)
Theorem successful_call_requests (videoId : str) (config : option TranscriptConfig)
    (log : list request) (results : list (TranscriptResponse number)) :
  fst (fetchTranscript parseFloat numeral_falsy JSON_parse respond videoId config log)
  = Ok results ->
  exists identifier u,
    retrieveVideoId videoId = Ok identifier /\
    let requests :=
      snd (fetchTranscript parseFloat numeral_falsy JSON_parse respond
             videoId config log) in
    requests
    = log ++ [videoPageRequest identifier config; transcriptRequest u config] \/
    exists u',
      requests
      = log ++ [videoPageRequest identifier config; transcriptRequest u config;
                InnerTubeApiRequest identifier;
                innerTubeTranscriptRequest u' identifier config].
Proof.
  destruct (retrieveVideoId videoId) as [identifier|e] eqn:Hid.
  2:{ unfold fetchTranscript, bind, lift. rewrite Hid. discriminate. }
  destruct (locateCaptions JSON_parse respond videoId identifier config log)
    as [[captions|e] log1] eqn:Hloc.
  2:{ destruct (locateCaptions_never_throws JSON_parse respond
                  videoId identifier config log) as (c & Hc).
      rewrite Hloc in Hc. discriminate. }
  pose proof (locateCaptions_log videoId identifier config log) as Hlog.
  rewrite Hloc in Hlog. simpl in Hlog. subst log1.
  rewrite (fetchTranscript_after_page _ _ _ _ _ _ Hid Hloc).
  cbv zeta. unfold_M.
  destruct (negb (truthy numeral_falsy captions)); [discriminate|].
  destruct (has (lit "captionTracks") captions) as [present|e]; [|discriminate].
  destruct (negb present); [discriminate|].
  destruct (selectTrack captions config videoId) as [transcriptURL|e];
    [|discriminate].
  intros Hok. exists identifier, transcriptURL. split; [reflexivity|].
  revert Hok. unfold readTranscript. unfold_M.
  destruct (respond _ _) as [res|]; [|discriminate].
  destruct (negb (ok res)); [discriminate|].
  destruct (body res) as [transcriptBody|]; [|discriminate].
  destruct (length transcriptBody =? 0).
  - pose proof (innerTube_results_log identifier config
                  ((log ++ [videoPageRequest identifier config])
                     ++ [transcriptRequest transcriptURL config])) as Hfb.
    destruct (innerTube _ _ _ _ _ _ _) as [[[results'|]|e] log2]; simpl;
      try discriminate.
    intros _. right. destruct (Hfb results' eq_refl) as (u' & Hu).
    exists u'. simpl in Hu. rewrite Hu, <- !app_assoc. reflexivity.
  - intros _. left. now rewrite <- app_assoc.
Qed.

(** ** The headers *)

Lemma literal_differs (a b : string) (x y : str) :
  str_eqb (lit a) (lit b) = false -> (lit a, x) <> (lit b, y).
Proof.
  intros H E. injection E as E _. rewrite E in H.
  assert (Hrefl : forall s, str_eqb s s = true).
  { induction s as [|c s IH]; simpl; [reflexivity|].
    now rewrite char_eqb_refl. }
  now rewrite Hrefl in H.
Qed.

(** X8 -- Every request of a call carries the [User-Agent] of line 3.  A
    GET request has no body, and carries [Accept-Language] exactly when a
    language is requested, with that language; the POST to the player
    endpoint never carries it. *)
Theorem fetchTranscript_headers (videoId : str) (config : option TranscriptConfig)
    (log : list request) :
  exists l,
    snd (fetchTranscript parseFloat numeral_falsy JSON_parse respond videoId config log)
    = log ++ l /\
    Forall (fun r =>
              sent r (lit "User-Agent") USER_AGENT /\
              (req_method r = GET ->
               req_body r = None /\
               forall l', sent r (lit "Accept-Language") l' <->
                          requested config = Some l') /\
              (req_method r = POST ->
               forall l', ~ sent r (lit "Accept-Language") l')) l.
Proof.
  destruct (fetchTranscript_issues number parseFloat numeral_falsy JSON_parse respond
              videoId config log) as (l & Hlog & Hall).
  exists l. split; [exact Hlog|].
  apply (Forall_impl _ (P := fun r => exists identifier,
                          retrieveVideoId videoId = Ok identifier /\
                          of_pipeline identifier config r)); [|exact Hall].
  intros r (identifier & _ & Hr).
  assert (Hget : forall extra : list (str * str),
            (forall l', ~ In (lit "Accept-Language", l') extra) ->
            forall l', In (lit "Accept-Language", l') (accept_language config ++ extra)
                       <-> requested config = Some l').
  { intros extra Hextra l'. unfold accept_language.
    destruct (requested config) as [l0|]; simpl.
    - split.
      + intros [[= ->]|H]; [reflexivity|now destruct (Hextra l')].
      + intros [= ->]. now left.
    - split; [intros H; now destruct (Hextra l')|discriminate]. }
  assert (HUA : forall l', (lit "User-Agent", USER_AGENT) <> (lit "Accept-Language", l'))
    by (intros l'; now apply literal_differs).
  assert (HRef : forall l', (lit "Referer", watch_url identifier)
                            <> (lit "Accept-Language", l'))
    by (intros l'; now apply literal_differs).
  assert (Hone : forall l', ~ In (lit "Accept-Language", l')
                              [(lit "User-Agent", USER_AGENT)]).
  { intros l' [H|[]]. now apply (HUA l'). }
  destruct Hr as [->|[(u & ->)|[->|(u & ->)]]]; unfold sent; cbn [req_headers req_method req_body].
  - split; [apply in_or_app; right; now left|].
    split; [|discriminate]. intros _. split; [reflexivity|]. now apply Hget.
  - split; [apply in_or_app; right; now left|].
    split; [|discriminate]. intros _. split; [reflexivity|]. now apply Hget.
  - split; [right; now left|]. split; [discriminate|].
    intros _ l' [H|[H|[H|[H|[]]]]].
    + revert H. now apply literal_differs.
    + now apply (HUA l').
    + now apply (HRef l').
    + revert H. now apply literal_differs.
  - split; [apply in_or_app; right; now left|].
    split; [|discriminate]. intros _. split; [reflexivity|]. apply Hget.
    intros l' [H|[H|[]]]; [now apply (HUA l')|now apply (HRef l')].
Qed.

(** ** The watch page, when it cannot be used *)

(** X9 -- When the request for the watch page is rejected, or its body
    cannot be read, the [catch] of line 115 takes the failure for an absent
    catalog: the call throws [YoutubeTranscriptDisabledError] and issues no
    other request. *)
Theorem unreachable_page_is_reported_disabled (videoId identifier : str)
    (config : option TranscriptConfig) (log : list request) :
  retrieveVideoId videoId = Ok identifier ->
  respond log (videoPageRequest identifier config) = Rejected \/
  (exists res, respond log (videoPageRequest identifier config) = Resolved res /\
               body res = None) ->
  fetchTranscript parseFloat numeral_falsy JSON_parse respond videoId config log
  = (Throw (YoutubeTranscriptDisabledError videoId),
     log ++ [videoPageRequest identifier config]).
Proof.
  intros Hid H.
  assert (Hloc : locateCaptions JSON_parse respond videoId identifier config log
                 = (Ok VNull, log ++ [videoPageRequest identifier config])).
  { unfold locateCaptions, readVideoPage. unfold_M.
    destruct H as [->|(res & -> & ->)]; reflexivity. }
  now rewrite (fetchTranscript_after_page _ _ _ _ _ _ Hid Hloc).
Qed.

(** X10 -- A watch page that holds the marker of the captions, but from
    which no JSON can be read (neither the text up to [videoDetails] nor the
    match of the expression of line 109 parses, or there is no such match),
    leaves [captions] falsy: the call throws
    [YoutubeTranscriptDisabledError]. *)
Theorem unparseable_captions_is_reported_disabled (videoId identifier : str)
    (config : option TranscriptConfig) (log : list request)
    (res : response) (videoPageBody : str) :
  retrieveVideoId videoId = Ok identifier ->
  respond log (videoPageRequest identifier config) = Resolved res ->
  body res = Some videoPageBody ->
  includes videoPageBody captions_marker = true ->
  JSON_parse (captionsText videoPageBody) = None ->
  (forall altMatch rest,
     regex_match RE_CAPTIONS videoPageBody = Some (altMatch, rest) ->
     JSON_parse (group 1 altMatch) = None) ->
  fetchTranscript parseFloat numeral_falsy JSON_parse respond videoId config log
  = (Throw (YoutubeTranscriptDisabledError videoId),
     log ++ [videoPageRequest identifier config]).
Proof.
  intros Hid Hres Hbody Hmark Hfirst Hsecond.
  assert (Hloc : exists captions,
            locateCaptions JSON_parse respond videoId identifier config log
            = (Ok captions, log ++ [videoPageRequest identifier config]) /\
            truthy numeral_falsy captions = false).
  { unfold locateCaptions, readVideoPage. unfold_M. rewrite Hres, Hbody.
    rewrite split_length_le_1, Hmark. cbn [negb].
    unfold extractCaptions. unfold captionsText in Hfirst. rewrite Hfirst.
    destruct (regex_match RE_CAPTIONS videoPageBody) as [[altMatch rest]|] eqn:E.
    - unfold parse_json. rewrite (Hsecond _ _ eq_refl). simpl. now exists VNull.
    - simpl. now exists VUndefined. }
  destruct Hloc as (captions & Hloc & Hfalsy).
  rewrite (fetchTranscript_after_page _ _ _ _ _ _ Hid Hloc). now rewrite Hfalsy.
Qed.

(** X11 -- When the watch page gives an object without the property
    [captionTracks], the call throws [YoutubeTranscriptNotAvailableError]
    and requests nothing after the page; so it does when the page gives an
    array. *)
Theorem missing_captionTracks_is_not_available (videoId identifier : str)
    (config : option TranscriptConfig) (log log1 : list request)
    (captions : value) :
  retrieveVideoId videoId = Ok identifier ->
  locateCaptions JSON_parse respond videoId identifier config log = (Ok captions, log1) ->
  (exists fields,
     captions = VObject fields /\ property (lit "captionTracks") fields = None) \/
  (exists items, captions = VArray items) ->
  fetchTranscript parseFloat numeral_falsy JSON_parse respond videoId config log
  = (Throw (YoutubeTranscriptNotAvailableError videoId), log1) /\
  log1 = log ++ [videoPageRequest identifier config].
Proof.
  intros Hid Hloc H. split.
  - rewrite (fetchTranscript_after_page _ _ _ _ _ _ Hid Hloc).
    destruct H as [(fields & -> & Hnone)|(items & ->)]; cbn [truthy negb].
    + unfold bind, lift, has. now rewrite Hnone.
    + reflexivity.
  - pose proof (locateCaptions_log videoId identifier config log) as Hlog.
    now rewrite Hloc in Hlog.
Qed.

(** ** The track, when it cannot be fetched *)

(** X12 -- When the response for the selected track has a status that is
    not a success, the call throws [YoutubeTranscriptNotAvailableError]
    without trying the fallback.  When that request is rejected, or the body
    of its response cannot be read, the error of the runtime leaves the call
    as it is: lines 151 to 160 stand in no [try]. *)
Theorem track_failure (videoId : str) (config : option TranscriptConfig)
    (log : list request) (identifier : str) (captions transcriptURL : value)
    (log1 : list request) :
  selects numeral_falsy JSON_parse respond videoId config log identifier captions
    transcriptURL log1 ->
  let run := fetchTranscript parseFloat numeral_falsy JSON_parse respond
               videoId config log in
  let log2 := log1 ++ [transcriptRequest transcriptURL config] in
  (forall res,
     respond log1 (transcriptRequest transcriptURL config) = Resolved res ->
     ok res = false ->
     run = (Throw (YoutubeTranscriptNotAvailableError videoId), log2)) /\
  (respond log1 (transcriptRequest transcriptURL config) = Rejected ->
   run = (Throw (Runtime NetworkError), log2)) /\
  (forall res,
     respond log1 (transcriptRequest transcriptURL config) = Resolved res ->
     ok res = true -> body res = None ->
     run = (Throw (Runtime NetworkError), log2)).
Proof.
  intros Hsel run log2. unfold run.
  rewrite (fetchTranscript_selects _ _ _ _ _ _ _ _ _ _ _ _ Hsel).
  unfold readTranscript. unfold_M. repeat split.
  - intros res -> ->. reflexivity.
  - intros ->. reflexivity.
  - intros res -> -> ->. reflexivity.
Qed.

(** ** The fallback *)

Lemma find_speaks_none (l : str) (tracks : list value) :
  forallb is_object tracks = true ->
  existsb (fun track => strict_eq (languageCode track) l) tracks = false ->
  find_speaks l tracks = Ok VUndefined.
Proof.
  induction tracks as [|track tracks IH]; simpl; [reflexivity|].
  intros [Ht Hts]%andb_prop [Hn Hns]%orb_false_elim.
  rewrite (speaks_object _ _ Ht), Hn. simpl. auto.
Qed.

(** X13 -- The fallback has no guard for the language.  When the track of
    the watch page is empty and the catalog of the player endpoint lists no
    track in the requested language, or no track at all, reading [baseUrl]
    of the missing track is a TypeError that the [catch] of line 223
    swallows: the call throws [YoutubeTranscriptNotAvailableError], not the
    error of the language, after the POST. *)
Theorem fallback_without_track_is_unavailable (videoId : str)
    (config : option TranscriptConfig) (log : list request) (identifier : str)
    (captions transcriptURL : value) (log1 : list request) (res r : response)
    (t : str) (data innerTubeCaptions : value) (tracks : list value) :
  selects numeral_falsy JSON_parse respond videoId config log identifier captions
    transcriptURL log1 ->
  respond log1 (transcriptRequest transcriptURL config) = Resolved res ->
  ok res = true ->
  body res = Some [] ->
  let log2 := log1 ++ [transcriptRequest transcriptURL config] in
  respond log2 (InnerTubeApiRequest identifier) = Resolved r ->
  ok r = true ->
  body r = Some t ->
  JSON_parse t = Some data ->
  (c <~ optional_get data (lit "captions") ;;
   optional_get c (lit "playerCaptionsTracklistRenderer")) = Ok innerTubeCaptions ->
  get innerTubeCaptions (lit "captionTracks") = Ok (VArray tracks) ->
  forallb is_object tracks = true ->
  (requested config = None /\ tracks = []) \/
  (exists l, requested config = Some l /\
             existsb (fun track => strict_eq (languageCode track) l) tracks = false) ->
  fetchTranscript parseFloat numeral_falsy JSON_parse respond videoId config log
  = (Throw (YoutubeTranscriptNotAvailableError videoId),
     log2 ++ [InnerTubeApiRequest identifier]).
Proof.
  intros Hsel Hres Hok Hbody log2 Hr Hokr Hbr Hp Hc Hget Hobj Hmiss.
  rewrite (fetchTranscript_selects _ _ _ _ _ _ _ _ _ _ _ _ Hsel).
  rewrite (readTranscript_empty_body _ _ _ _ _ _ _ _ _ _ _ _ Hres Hok Hbody).
  fold log2.
  assert (Hfb : innerTube parseFloat numeral_falsy JSON_parse respond
                  identifier config log2
                = (Throw (Runtime TypeError), log2 ++ [InnerTubeApiRequest identifier])).
  { unfold innerTube, innerTubeLocate. unfold_M. unfold parse_json.
    rewrite Hr, Hokr, Hbr, Hp, Hc.
    destruct (get_array_object _ _ _ Hget) as (fields & -> & Hprop).
    cbn [truthy]. rewrite Hget. cbn [truthy].
    unfold selectedTrack. rewrite Hget.
    destruct Hmiss as [[-> ->]|(l & -> & Hnone)]; simpl; [reflexivity|].
    now rewrite (find_speaks_none _ _ Hobj Hnone). }
  now rewrite Hfb.
Qed.

(** X14 -- When the track of the watch page is empty and the fallback
    reaches a track with a body that is not empty, the call returns what the
    parser makes of that body with the catalog of the player endpoint: the
    catalog of the watch page plays no part in the segments.  An exception
    of the parser would end in [YoutubeTranscriptNotAvailableError]. *)
Theorem fallback_results_are_returned (videoId : str)
    (config : option TranscriptConfig) (log : list request) (identifier : str)
    (captions transcriptURL : value) (log1 : list request) (res : response)
    (innerTubeCaptions innerTubeTranscriptURL : value) (log3 : list request)
    (res' : response) (innerTubeTranscriptBody : str) :
  selects numeral_falsy JSON_parse respond videoId config log identifier captions
    transcriptURL log1 ->
  respond log1 (transcriptRequest transcriptURL config) = Resolved res ->
  ok res = true ->
  body res = Some [] ->
  innerTubeLocate numeral_falsy JSON_parse respond identifier config
    (log1 ++ [transcriptRequest transcriptURL config])
  = (Ok (Some (innerTubeCaptions, innerTubeTranscriptURL)), log3) ->
  let request' := innerTubeTranscriptRequest innerTubeTranscriptURL identifier config in
  respond log3 request' = Resolved res' ->
  ok res' = true ->
  body res' = Some innerTubeTranscriptBody ->
  innerTubeTranscriptBody <> [] ->
  fetchTranscript parseFloat numeral_falsy JSON_parse respond videoId config log
  = (match parseTranscript parseFloat innerTubeTranscriptBody config innerTubeCaptions with
     | Ok results => Ok results
     | Throw _ => Throw (YoutubeTranscriptNotAvailableError videoId)
     end,
     log3 ++ [request']) /\
  log3 = log1 ++ [transcriptRequest transcriptURL config; InnerTubeApiRequest identifier].
Proof.
  intros Hsel Hres Hok Hbody Hloc request' Hres' Hok' Hbody' Hne. split.
  - rewrite (fetchTranscript_selects _ _ _ _ _ _ _ _ _ _ _ _ Hsel).
    rewrite (readTranscript_empty_body _ _ _ _ _ _ _ _ _ _ _ _ Hres Hok Hbody).
    rewrite (innerTube_located _ _ _ _ _ _ _ _ _ _ _ Hloc).
    rewrite (innerTubeRead_body _ _ _ _ _ _ _ _ _ _ Hres' Hok' Hbody').
    destruct innerTubeTranscriptBody as [|c b]; [congruence|]. simpl.
    now destruct (parseTranscript _ _ _ _).
  - pose proof (innerTubeLocate_log identifier config
                  (log1 ++ [transcriptRequest transcriptURL config])) as Hlog.
    rewrite Hloc in Hlog. simpl in Hlog. now rewrite <- app_assoc in Hlog.
Qed.

(** ** A call with the address and a call with the identifier *)

Lemma follows_bind {A B : Type} (v : str) (c1 c2 : M A) (k1 k2 : A -> M B) :
  follows v c1 c2 -> (forall a, follows v (k1 a) (k2 a)) ->
  follows v (bind c1 k1) (bind c2 k2).
Proof.
  intros Hc Hk log. unfold bind. rewrite (Hc log).
  destruct (c1 log) as [[a|e] log']; simpl; [apply Hk|reflexivity].
Qed.

(** A computation whose exceptions carry no identifier follows itself. *)
Lemma follows_fixed {A : Type} (v : str) (c : M A) :
  raises (fun e => rename v e = e) c -> follows v c c.
Proof.
  intros H log. specialize (H log).
  destruct (c log) as [[a|e] log']; simpl; [reflexivity|].
  now rewrite (H e eq_refl).
Qed.

Lemma follows_throw {A : Type} (v : str) (e e' : exn) :
  e' = rename v e -> follows v (@throw A e) (throw e').
Proof. intros -> log. reflexivity. Qed.

Lemma follows_lift {A : Type} (v : str) (o1 o2 : outcome A) :
  o2 = renamed v o1 -> follows v (lift o1) (lift o2).
Proof. intros -> log. reflexivity. Qed.

Lemma renamed_obind {A B : Type} (v : str) (c : outcome A)
    (k k' : A -> outcome B) :
  oraises (fun e => rename v e = e) c ->
  (forall a, k' a = renamed v (k a)) ->
  obind c k' = renamed v (obind c k).
Proof.
  intros Hc Hk. destruct c as [a|e]; simpl; [apply Hk|].
  now rewrite (Hc e eq_refl).
Qed.

(** Only the identifier of the error of the language depends on the
    input. *)
Lemma selectTrack_renamed (captions : value) (config : option TranscriptConfig)
    (v v' : str) :
  selectTrack captions config v' = renamed v' (selectTrack captions config v).
Proof.
  assert (HT : rename v' (Runtime TypeError) = Runtime TypeError) by reflexivity.
  assert (Hcheck : checkLanguage captions config v'
                   = renamed v' (checkLanguage captions config v)).
  { unfold checkLanguage. destruct (requested config) as [l|]; [|reflexivity].
    apply renamed_obind; [now apply oraises_get|]. intros captionTracks.
    apply renamed_obind; [now apply oraises_as_array|]. intros tracks.
    apply renamed_obind; [now apply oraises_some_speaks|].
    intros [|]; [reflexivity|].
    apply renamed_obind; [now apply oraises_map_languageCode|]. intros codes.
    unfold new_YoutubeTranscriptNotAvailableLanguageError.
    now destruct (join_throws codes). }
  unfold selectTrack. rewrite Hcheck.
  destruct (checkLanguage captions config v) as [[]|e]; simpl; [|reflexivity].
  apply renamed_obind; [now apply oraises_selectedTrack|]. intros track.
  destruct (get track (lit "baseUrl")) as [x|e] eqn:E; [reflexivity|].
  pose proof (oraises_get (fun e => rename v' e = e) HT _ _ _ E) as He.
  simpl in *. now rewrite He.
Qed.

(** The [catch] of line 115 drops the exception, and with it the input. *)
Lemma locateCaptions_any_input (v v' identifier : str)
    (config : option TranscriptConfig) (log : list request) :
  locateCaptions JSON_parse respond v identifier config log
  = locateCaptions JSON_parse respond v' identifier config log.
Proof.
  unfold locateCaptions, readVideoPage. unfold_M.
  destruct (respond log _) as [res|]; [|reflexivity].
  destruct (body res) as [videoPageBody|]; [|reflexivity].
  destruct (length _ <=? 1); [|reflexivity].
  destruct (includes _ _); [reflexivity|]. now destruct (negb _).
Qed.

Lemma readTranscript_follows (v v' identifier : str)
    (config : option TranscriptConfig) (captions transcriptURL : value) :
  follows v'
    (readTranscript parseFloat numeral_falsy JSON_parse respond
       v identifier config captions transcriptURL)
    (readTranscript parseFloat numeral_falsy JSON_parse respond
       v' identifier config captions transcriptURL).
Proof.
  unfold readTranscript.
  apply follows_bind; [apply follows_fixed; now apply raises_fetch|]. intros res.
  destruct (negb (ok res)); [now apply follows_throw|].
  apply follows_bind; [apply follows_fixed; now apply raises_text_of|].
  intros transcriptBody. destruct (length transcriptBody =? 0).
  - apply follows_bind.
    + apply follows_fixed, raises_try_catch. intros e. apply raises_ret.
    + intros [results|]; [apply follows_fixed, raises_ret|now apply follows_throw].
  - apply follows_fixed, raises_lift. now apply oraises_parseTranscript.
Qed.

Lemma fetchTranscript_follows (videoId identifier : str)
    (config : option TranscriptConfig) :
  retrieveVideoId videoId = Ok identifier ->
  follows identifier
    (fetchTranscript parseFloat numeral_falsy JSON_parse respond videoId config)
    (fetchTranscript parseFloat numeral_falsy JSON_parse respond identifier config).
Proof.
  intros Hid.
  assert (Hid' : retrieveVideoId identifier = Ok identifier).
  { assert (Hlen : length identifier = 11).
    { revert Hid. unfold retrieveVideoId. destruct (length videoId =? 11) eqn:E.
      - intros [= <-]. now apply Nat.eqb_eq.
      - destruct (regex_match RE_YOUTUBE videoId) as [[caps rest]|] eqn:Em;
          [|discriminate].
        intros [= <-]. exact (proj1 (regex_match_RE_YOUTUBE_is_id _ _ Em)). }
    unfold retrieveVideoId. now rewrite Hlen. }
  unfold fetchTranscript. rewrite Hid, Hid'.
  apply follows_bind; [apply follows_fixed, raises_lift; intros e; discriminate|].
  intros a. apply follows_bind.
  { intros log. rewrite (locateCaptions_any_input identifier videoId a config log).
    destruct (locateCaptions_never_throws JSON_parse respond videoId a config log)
      as (captions & Hc).
    destruct (locateCaptions _ _ _ _ _ _) as [o log']. simpl in Hc. subst o.
    reflexivity. }
  intros captions. destruct (negb (truthy numeral_falsy captions)).
  { now apply follows_throw. }
  apply follows_bind.
  { apply follows_fixed, raises_lift. now apply oraises_has. }
  intros present. destruct (negb present); [now apply follows_throw|].
  apply follows_bind; [apply follows_lift, selectTrack_renamed|].
  intros transcriptURL. apply readTranscript_follows.
Qed.

(** X15 -- A call with an address and a call with the identifier that
    [retrieveVideoId] reads from it issue the same requests and return the
    same segments; when they fail, they throw the same error, each with its
    own input in the place of the identifier. *)
Theorem address_or_identifier (videoId identifier : str)
    (config : option TranscriptConfig) (log : list request) :
  retrieveVideoId videoId = Ok identifier ->
  let with_address :=
    fetchTranscript parseFloat numeral_falsy JSON_parse respond videoId config log in
  fetchTranscript parseFloat numeral_falsy JSON_parse respond identifier config log
  = (renamed identifier (fst with_address), snd with_address).
Proof.
  intros Hid with_address.
  exact (fetchTranscript_follows videoId identifier config Hid log).
Qed.

End Outcomes.

(** ** Writing a document and reading it back *)

(** No element starts at a code unit that is not [<]. *)
Lemma no_element_at (c : char) (s start dur content rest : str) :
  no_lt c = true -> ~ starts_with_element (c :: s) start dur content rest.
Proof.
  intros Hc (Hs & _). unfold element, element_open in Hs.
  injection Hs as Hs _. subst c. discriminate Hc.
Qed.

Lemma scan_gap (gap s : str) (found : list (str * str * str)) :
  forallb no_lt gap = true -> scan s found -> scan (gap ++ s) found.
Proof.
  induction gap as [|c gap IH]; simpl; intros H Hs; [exact Hs|].
  apply andb_prop in H as [Hc Hgap]. apply scan_skip; [|now apply IH].
  intros start dur content rest. now apply no_element_at.
Qed.

Lemma scan_document (gap : str) (es : list (str * str * str)) :
  forallb no_lt gap = true ->
  forallb well_formed es = true ->
  scan (document gap es) es.
Proof.
  intros Hgap. induction es as [|[[start dur] content] es IH]; simpl; intros Hes.
  - rewrite <- (app_nil_r gap). apply scan_gap; [exact Hgap|apply scan_end].
  - apply andb_prop in Hes as [He Hes].
    apply andb_prop in He as [He Hc]. apply andb_prop in He as [Hs Hd].
    apply scan_gap; [exact Hgap|].
    apply scan_element with (rest := document gap es); [|now apply IH].
    repeat split; assumption.
Qed.

Section Documents.

Variable number : Type.
Variable parseFloat : str -> number.

(** X17 -- Reading back a document that was written from elements gives
    the segments of these elements, in order and with their texts as they
    were written: the elements stand one after the other, each after a text
    without [<] (a line break, say), their attributes hold no double quote
    and their texts no [<]. *)
Theorem parseTranscript_document (gap : str) (es : list (str * str * str))
    (config : option TranscriptConfig) (captions l : value) :
  forallb no_lt gap = true ->
  forallb well_formed es = true ->
  segment_lang config captions = Ok l ->
  parseTranscript parseFloat (document gap es) config captions
  = Ok (List.map (segment parseFloat l) es).
Proof.
  intros Hgap Hes Hl. unfold parseTranscript.
  rewrite (map_results_segments number parseFloat config captions l _ Hl).
  pose proof (scan_unique _ _ _ (scan_matchAll (document gap es))
                (scan_document gap es Hgap Hes)) as E.
  rewrite <- (List.map_map fields (segment parseFloat l)). now rewrite E.
Qed.

End Documents.

(** ** The messages *)

(** X16 -- The message of every instance of [YoutubeTranscriptError]
    starts with the marker of line 10, and an exception of the runtime has
    no message of the module.  Among the errors the module constructs, the
    message tells the class; for the classes with the input as only
    argument it tells the input too. *)
Theorem message_names_the_class (ToString : value -> str) :
  (forall e,
     is_YoutubeTranscriptError e = true <->
     exists t, message ToString e = Some (marker ++ t)) /\
  (forall e1 e2,
     constructed e1 -> constructed e2 ->
     message ToString e1 = message ToString e2 ->
     same_class e1 e2 = true /\
     ((forall l codes v,
         e1 <> YoutubeTranscriptNotAvailableLanguageError l codes v) ->
      e1 = e2)).
Proof.
  split.
  - intros e. split.
    + destruct e; try discriminate; intros _; simpl; eauto.
    + intros (t & H). destruct e; try reflexivity. discriminate.
  - intros e1 e2 C1 C2 H.
    destruct e1 as [m1| |v1|v1|v1|l1 c1 v1|r1], e2 as [m2| |v2|v2|v2|l2 c2 v2|r2];
      cbn [constructed] in C1, C2; try contradiction; subst;
      cbn [same_class]; unfold message in H;
      try (split; [reflexivity|intros _; reflexivity]);
      apply (f_equal (fun o => match o with Some x => x | None => [] end)) in H;
      cbv beta iota in H; apply app_inv_head in H;
      try (cbn in H; discriminate H);
      try (apply app_inv_head, app_inv_tail in H; subst;
           split; [reflexivity|intros _; reflexivity]).
    split; [reflexivity|]. intros Hne. now destruct (Hne l1 c1 v1).
Qed.

(** * The stages of a call *)

(** The language of a segment of the fallback is defined after its
    selection: line 217 reads the track that line 198 read. *)
Lemma segment_lang_after_selectedTrack (captions : value)
    (config : option TranscriptConfig) (url : value) :
  (track <~ selectedTrack captions config ;; get track (lit "baseUrl")) = Ok url ->
  exists l, segment_lang config captions = Ok l.
Proof.
  unfold selectedTrack, segment_lang, requested.
  destruct (config_lang config) as [l|]; [eauto|].
  simpl. destruct (get captions (lit "captionTracks")) as [tracks|]; [|discriminate].
  simpl. destruct (get0 tracks) as [track|]; [|discriminate].
  simpl. destruct track; simpl; try discriminate; eauto.
Qed.

Section Stages.

Variable number : Type.
Variable parseFloat : str -> number.
Variable numeral_falsy : str -> bool.
Variable JSON_parse : str -> option value.
Variable respond : list request -> request -> fetch_result.

Lemma innerTubeLocate_segment_lang (identifier : str)
    (config : option TranscriptConfig) (log log' : list request)
    (innerTubeCaptions url : value) :
  innerTubeLocate numeral_falsy JSON_parse respond identifier config log
  = (Ok (Some (innerTubeCaptions, url)), log') ->
  exists l, segment_lang config innerTubeCaptions = Ok l.
Proof.
  unfold innerTubeLocate. unfold_M.
  destruct (respond log _) as [res|]; [|discriminate].
  destruct (ok res); [|discriminate].
  destruct (body res) as [t|]; [|discriminate].
  destruct (parse_json JSON_parse t) as [data|]; [|discriminate].
  destruct (obind _ _) as [c|]; [|discriminate].
  destruct (if truthy numeral_falsy c then _ else _) as [captionTracks|];
    [|discriminate].
  destruct (truthy numeral_falsy captionTracks); [|discriminate].
  destruct (track <~ selectedTrack c config ;; get track (lit "baseUrl"))
    as [u|] eqn:E; [|discriminate].
  intros [= <- <- <-]. exact (segment_lang_after_selectedTrack _ _ _ E).
Qed.

(** C4 (amended) -- For a watch page whose catalog is a list of tracks
    that is not empty and whose tracks are objects, with [requested config]
    the configured language when it is a string that is not empty.  When a
    language is requested, every [languageCode] is a string and none is
    strictly equal to the language, the call throws
    [YoutubeTranscriptNotAvailableLanguageError] with the language, the
    [languageCode]s of all the tracks in order and the input [videoId] as it
    was given, and requests nothing after the page.  When a track matches,
    the first one that does is selected: its [baseUrl] is what is requested
    next.  When no language is requested (none configured, or the empty
    string), the first track is selected. *)
Theorem track_selection (videoId identifier : str)
    (config : option TranscriptConfig) (log log1 : list request)
    (captions : value) (tracks : list value) :
  retrieveVideoId videoId = Ok identifier ->
  locateCaptions JSON_parse respond videoId identifier config log = (Ok captions, log1) ->
  get captions (lit "captionTracks") = Ok (VArray tracks) ->
  forallb is_object tracks = true ->
  tracks <> [] ->
  let run := fetchTranscript parseFloat numeral_falsy JSON_parse respond
               videoId config log in
  (forall l,
     requested config = Some l ->
     forallb (fun track => is_string (languageCode track)) tracks = true ->
     existsb (fun track => strict_eq (languageCode track) l) tracks = false ->
     run = (Throw (YoutubeTranscriptNotAvailableLanguageError
                     l (List.map languageCode tracks) videoId), log1)) /\
  (forall l before track after,
     requested config = Some l ->
     tracks = before ++ track :: after ->
     existsb (fun t => strict_eq (languageCode t) l) before = false ->
     strict_eq (languageCode track) l = true ->
     selectedTrack captions config = Ok track /\
     exists rest,
       snd run = log1 ++ transcriptRequest (baseUrl track) config :: rest) /\
  (requested config = None ->
   selectedTrack captions config = Ok (hd VUndefined tracks) /\
   exists rest,
     snd run
     = log1 ++ transcriptRequest (baseUrl (hd VUndefined tracks)) config :: rest).
Proof.
  intros Hid Hloc Hget Hobj Hne run.
  destruct (selectTrack_cases captions tracks config videoId Hget Hobj Hne)
    as (Hmiss & Hhit & Hfirst).
  assert (Hrun : run
                 = (transcriptURL <- lift (selectTrack captions config videoId) ;;
                    readTranscript parseFloat numeral_falsy JSON_parse respond
                      videoId identifier config captions transcriptURL) log1).
  { unfold run.
    rewrite (fetchTranscript_after_page number parseFloat numeral_falsy JSON_parse
               respond _ _ _ _ _ _ Hid Hloc).
    destruct (get_array_object _ _ _ Hget) as (fields & -> & Hprop).
    cbn [truthy negb]. unfold bind at 1. unfold lift at 1. unfold has.
    now rewrite Hprop. }
  assert (Hnext : forall url,
            selectTrack captions config videoId = Ok url ->
            exists rest, snd run = log1 ++ transcriptRequest url config :: rest).
  { intros url Hurl. rewrite Hrun. unfold bind, lift. rewrite Hurl.
    destruct (readTranscript_log number parseFloat numeral_falsy JSON_parse respond
                videoId identifier config captions url log1) as [H|[H|(u & H)]];
      rewrite H; eauto. }
  split; [|split].
  - intros l Hl Hstr Hnone. rewrite Hrun. unfold bind, lift.
    now rewrite (Hmiss l Hl Hnone), (join_strings _ Hstr).
  - intros l before track after Hl Htracks Hnone Hmatch.
    destruct (Hhit l before track after Hl Htracks Hnone Hmatch) as [Hsel Hurl].
    split; [exact Hsel|]. now apply Hnext.
  - intros Hl. destruct (Hfirst Hl) as [Hsel Hurl].
    split; [exact Hsel|]. now apply Hnext.
Qed.

(** C5 (amended) -- A body that is not empty is what the parser reads, on
    either path: the body of the track of the watch page, and the body of
    the track of the fallback when the former is empty.  The call then
    returns one segment for each element of the scan of the body (the
    elements [<text start=S dur=D>TEXT</text>] whose attributes are between
    double quotes and hold none, and whose text holds no [<], found left to
    right without overlap), in the order of the document: its text is
    [TEXT] as it stands, its offset [parseFloat S], its duration
    [parseFloat D], and its language the configured one when there is one
    and the [languageCode] of the first track of the catalog of its path
    otherwise.  A body without an element gives the empty list and no
    exception. *)
Theorem fetchTranscript_segments (videoId : str)
    (config : option TranscriptConfig) (log : list request) (identifier : str)
    (captions transcriptURL : value) (log1 : list request) (res : response) :
  selects numeral_falsy JSON_parse respond videoId config log identifier captions
    transcriptURL log1 ->
  respond log1 (transcriptRequest transcriptURL config) = Resolved res ->
  ok res = true ->
  let log2 := log1 ++ [transcriptRequest transcriptURL config] in
  let run := fetchTranscript parseFloat numeral_falsy JSON_parse respond
               videoId config log in
  let language (catalog l : value) :=
    (forall l', config_lang config = Some l' -> l = VString l') /\
    (config_lang config = None ->
     forall track tracks,
       get catalog (lit "captionTracks") = Ok (VArray (track :: tracks)) ->
       l = languageCode track) in
  (forall transcriptBody,
     body res = Some transcriptBody ->
     transcriptBody <> [] ->
     exists found l,
       scan transcriptBody found /\
       (forall found', scan transcriptBody found' -> found' = found) /\
       language captions l /\
       run = (Ok (List.map (segment parseFloat l) found), log2) /\
       (found = [] -> run = (Ok [], log2))) /\
  (body res = Some [] ->
   forall innerTubeCaptions innerTubeTranscriptURL log3 res' innerTubeTranscriptBody,
     innerTubeLocate numeral_falsy JSON_parse respond identifier config log2
     = (Ok (Some (innerTubeCaptions, innerTubeTranscriptURL)), log3) ->
     let request' :=
       innerTubeTranscriptRequest innerTubeTranscriptURL identifier config in
     respond log3 request' = Resolved res' ->
     ok res' = true ->
     body res' = Some innerTubeTranscriptBody ->
     innerTubeTranscriptBody <> [] ->
     exists found l,
       scan innerTubeTranscriptBody found /\
       (forall found', scan innerTubeTranscriptBody found' -> found' = found) /\
       language innerTubeCaptions l /\
       run = (Ok (List.map (segment parseFloat l) found), log3 ++ [request']) /\
       (found = [] -> run = (Ok [], log3 ++ [request']))).
Proof.
  intros Hsel Hres Hok log2 run language.
  assert (Hparser : forall transcriptBody catalog l,
            segment_lang config catalog = Ok l ->
            exists found,
              scan transcriptBody found /\
              (forall found', scan transcriptBody found' -> found' = found) /\
              language catalog l /\
              parseTranscript parseFloat transcriptBody config catalog
              = Ok (List.map (segment parseFloat l) found)).
  { intros transcriptBody catalog l Hl.
    destruct (parseTranscript_segments number parseFloat transcriptBody config catalog)
      as (found & Hscan & Huniq & Hparse & _ & Hsome & _ & _).
    exists found. repeat split; try assumption.
    - intros l' Hl'. specialize (Hsome l' Hl'). congruence.
    - intros Hl' track tracks Hget. revert Hl.
      unfold segment_lang, languageCode, field. rewrite Hl', Hget. simpl.
      now intros ->.
    - now apply Hparse. }
  split.
  - intros transcriptBody Hbody Hne.
    destruct Hsel as (Hid & Hloc & Htruthy & Hhas & Hurl).
    destruct (segment_lang_after_selection _ _ _ _ Hurl) as (l & Hl).
    destruct (Hparser transcriptBody captions l Hl)
      as (found & Hscan & Huniq & Hlang & Hparse).
    assert (Hrun : run = (Ok (List.map (segment parseFloat l) found), log2)).
    { unfold run.
      rewrite (fetchTranscript_parses number parseFloat numeral_falsy JSON_parse
                 respond videoId config log identifier captions transcriptURL log1
                 res transcriptBody
                 (conj Hid (conj Hloc (conj Htruthy (conj Hhas Hurl))))
                 Hres Hok Hbody Hne).
      now rewrite Hparse. }
    exists found, l. repeat split; try assumption; try apply Hlang.
    intros ->. exact Hrun.
  - intros Hbody innerTubeCaptions innerTubeTranscriptURL log3 res'
      innerTubeTranscriptBody Hloc request' Hres' Hok' Hbody' Hne.
    destruct (innerTubeLocate_segment_lang _ _ _ _ _ _ Hloc) as (l & Hl).
    destruct (Hparser innerTubeTranscriptBody innerTubeCaptions l Hl)
      as (found & Hscan & Huniq & Hlang & Hparse).
    assert (Hrun : run = (Ok (List.map (segment parseFloat l) found),
                          log3 ++ [request'])).
    { unfold run.
      rewrite (fetchTranscript_selects number parseFloat numeral_falsy JSON_parse
                 respond _ _ _ _ _ _ _ Hsel).
      rewrite (readTranscript_empty_body number parseFloat numeral_falsy JSON_parse
                 respond _ _ _ _ _ _ _ Hres Hok Hbody).
      fold log2.
      rewrite (innerTube_located number parseFloat numeral_falsy JSON_parse
                 respond _ _ _ _ _ _ Hloc).
      rewrite (innerTubeRead_body number parseFloat respond _ _ _ _ _ _ _
                 Hres' Hok' Hbody').
      destruct innerTubeTranscriptBody as [|c b]; [congruence|].
      cbn [length Nat.ltb Nat.leb]. rewrite Hparse. reflexivity. }
    exists found, l. repeat split; try assumption; try apply Hlang.
    intros ->. exact Hrun.
Qed.

End Stages.

(** * Examples *)

Example retrieveVideoId_bare :
  retrieveVideoId (lit "dQw4w9WgXcQ") = ok_id "dQw4w9WgXcQ".
Proof. vm_compute. reflexivity. Qed.

Example retrieveVideoId_watch :
  retrieveVideoId (lit "https://www.youtube.com/watch?v=dQw4w9WgXcQ&t=10s")
  = ok_id "dQw4w9WgXcQ".
Proof. vm_compute. reflexivity. Qed.

Example retrieveVideoId_short :
  retrieveVideoId (lit "https://youtu.be/dQw4w9WgXcQ?t=3") = ok_id "dQw4w9WgXcQ".
Proof. vm_compute. reflexivity. Qed.

Example retrieveVideoId_embed :
  retrieveVideoId (lit "https://www.YouTube.com/embed/dQw4w9WgXcQ") = ok_id "dQw4w9WgXcQ".
Proof. vm_compute. reflexivity. Qed.

Example retrieveVideoId_e :
  retrieveVideoId (lit "http://youtube.com/e/dQw4w9WgXcQ") = ok_id "dQw4w9WgXcQ".
Proof. vm_compute. reflexivity. Qed.

Example retrieveVideoId_origin :
  retrieveVideoId (lit "https://www.youtube.com/embed/dQw4w9WgXcQ?origin=https://example.com")
  = ok_id "example.com".
Proof. vm_compute. reflexivity. Qed.

Example retrieveVideoId_shorts :
  retrieveVideoId (lit "https://www.youtube.com/shorts/dQw4w9WgXcQ")
  = Throw (YoutubeTranscriptError (lit "Impossible to retrieve Youtube video ID.")).
Proof. vm_compute. reflexivity. Qed.

Example fetchTranscript_example :
  run [(watch_url vid, page watch_page); (lit "https://t/en", page timed_text)]
      (lit "https://www.youtube.com/watch?v=dQw4w9WgXcQ") None
  = (Ok [ {| text := lit "Hello"; duration := lit "2.5"; offset := lit "1.0";
             lang_ := VString (lit "en") |};
          {| text := lit "World"; duration := lit "1.0"; offset := lit "3.5";
             lang_ := VString (lit "en") |} ],
     [videoPageRequest vid None;
      transcriptRequest (VString (lit "https://t/en")) None]).
Proof. vm_compute. reflexivity. Qed.

Example scan_example :
  scan timed_text [(lit "1.0", lit "2.5", lit "Hello"); (lit "3.5", lit "1.0", lit "World")].
Proof.
  pose proof (scan_matchAll timed_text) as H. vm_compute in H. exact H.
Qed.

(** ** C1 *)

(** The failing input of C1: the watch page is a captcha page. *)
Lemma captcha_page_witness :
  includes captcha_page captions_marker = false /\
  includes captcha_page recaptcha_marker = true /\
  run [(watch_url vid, page captcha_page)] vid None
  = (Throw (YoutubeTranscriptDisabledError vid), [videoPageRequest vid None]).
Proof.
  split; [reflexivity|]. split; [reflexivity|].
  exact (captcha_page_is_reported_disabled
           Example.number Example.parseFloat Example.numeral_falsy Example.JSON_parse
           (serve [(watch_url vid, page captcha_page)])
           vid vid None [] (page captcha_page) captcha_page
           eq_refl eq_refl eq_refl eq_refl eq_refl).
Defined.

(** ** C2 *)

(** The failing input of C2: the catalog of the watch page lists no track
    and no language is configured. *)
Lemma empty_catalog_witness :
  locateCaptions Example.JSON_parse (serve [(watch_url vid, page empty_catalog_page)])
    vid vid None []
  = (Ok (VObject [(lit "captionTracks", VArray [])]), [videoPageRequest vid None]) /\
  run [(watch_url vid, page empty_catalog_page)] vid None
  = (Throw (Runtime TypeError), [videoPageRequest vid None]).
Proof.
  split; [vm_compute; reflexivity|].
  exact (proj1 (empty_catalog_raises_TypeError
                  Example.number Example.parseFloat Example.numeral_falsy
                  Example.JSON_parse
                  (serve [(watch_url vid, page empty_catalog_page)])
                  vid vid None [] [videoPageRequest vid None]
                  (VObject [(lit "captionTracks", VArray [])])
                  eq_refl eq_refl eq_refl eq_refl)).
Defined.

(** ** C3 *)

Lemma empty_body_witness :
  selects Example.numeral_falsy Example.JSON_parse (serve routes_player_down)
    vid None [] vid catalog (VString (lit "https://t/en")) [videoPageRequest vid None] /\
  run routes_player_down vid None
  = (Throw (YoutubeTranscriptNotAvailableError vid),
     [videoPageRequest vid None;
      transcriptRequest (VString (lit "https://t/en")) None;
      InnerTubeApiRequest vid]).
Proof.
  assert (Hsel : selects Example.numeral_falsy Example.JSON_parse
                   (serve routes_player_down) vid None [] vid catalog
                   (VString (lit "https://t/en")) [videoPageRequest vid None]).
  { repeat split; vm_compute; reflexivity. }
  split; [exact Hsel|].
  destruct (empty_body_runs_fallback
              Example.number Example.parseFloat Example.numeral_falsy
              Example.JSON_parse (serve routes_player_down)
              vid None [] vid catalog (VString (lit "https://t/en"))
              [videoPageRequest vid None] (page []) Hsel eq_refl eq_refl eq_refl)
    as ((rest & Hlog) & _ & _ & _ & Hdown & _).
  specialize (Hdown {| ok := false; body := Some (lit "Not Found") |} eq_refl eq_refl).
  apply injective_projections; [exact Hdown|vm_compute; reflexivity].
Defined.

(** ** C4 *)

(** The catalog of the specification: [de] is not available, [fr] selects
    the French track, and without a language the first track is selected. *)
Lemma track_selection_witness :
  run routes_watch vid (in_language "de")
  = (Throw (YoutubeTranscriptNotAvailableLanguageError
              (lit "de") [VString (lit "en"); VString (lit "fr")] vid),
     [videoPageRequest vid (in_language "de")]) /\
  (selectedTrack catalog (in_language "fr") = Ok track_fr /\
   exists rest,
     snd (run routes_watch vid (in_language "fr"))
     = [videoPageRequest vid (in_language "fr")]
         ++ transcriptRequest (VString (lit "https://t/fr")) (in_language "fr") :: rest) /\
  (selectedTrack catalog None = Ok track_en /\
   exists rest,
     snd (run routes_watch vid None)
     = [videoPageRequest vid None]
         ++ transcriptRequest (VString (lit "https://t/en")) None :: rest).
Proof.
  assert (Hne : [track_en; track_fr] <> []) by discriminate.
  assert (Hloc : forall config,
            locateCaptions Example.JSON_parse (serve routes_watch) vid vid config []
            = (Ok catalog, [videoPageRequest vid config])).
  { intros config. vm_compute. reflexivity. }
  pose proof (fun config =>
                track_selection Example.number Example.parseFloat
                  Example.numeral_falsy Example.JSON_parse (serve routes_watch)
                  vid vid config [] [videoPageRequest vid config] catalog
                  [track_en; track_fr] eq_refl (Hloc config) eq_refl eq_refl Hne)
    as Hcases.
  split; [|split].
  - exact (proj1 (Hcases (in_language "de")) (lit "de") eq_refl eq_refl eq_refl).
  - exact (proj1 (proj2 (Hcases (in_language "fr")))
             (lit "fr") [track_en] track_fr [] eq_refl eq_refl eq_refl eq_refl).
  - exact (proj2 (proj2 (Hcases None)) eq_refl).
Defined.

(** The claim as stated fails twice.  The empty string is a configured
    language that no track has, and the first track is selected and read.
    And the error of the language carries the input as it was given: for an
    address, the address and not the identifier read from it. *)
Lemma empty_language_selects_first_track :
  config_lang (in_language "") = Some [] /\
  selectTrack catalog (in_language "") vid = Ok (VString (lit "https://t/en")) /\
  ~ (forall captions tracks config videoId l,
       get captions (lit "captionTracks") = Ok (VArray tracks) ->
       forallb is_object tracks = true ->
       tracks <> [] ->
       config_lang config = Some l ->
       existsb (fun track => strict_eq (languageCode track) l) tracks = false ->
       selectTrack captions config videoId
       = Throw (YoutubeTranscriptNotAvailableLanguageError
                  l (List.map languageCode tracks) videoId)) /\
  run routes_watch vid (in_language "")
  = (Ok [ {| text := lit "Hello"; duration := lit "2.5"; offset := lit "1.0";
             lang_ := VString [] |};
          {| text := lit "World"; duration := lit "1.0"; offset := lit "3.5";
             lang_ := VString [] |} ],
     [videoPageRequest vid (in_language "");
      transcriptRequest (VString (lit "https://t/en")) (in_language "")]) /\
  retrieveVideoId short_address = Ok vid /\
  short_address <> vid /\
  run routes_watch short_address (in_language "de")
  = (Throw (YoutubeTranscriptNotAvailableLanguageError
              (lit "de") [VString (lit "en"); VString (lit "fr")] short_address),
     [videoPageRequest vid (in_language "de")]).
Proof.
  split; [reflexivity|]. split; [reflexivity|]. split.
  { intros H.
    specialize (H catalog [track_en; track_fr] (in_language "") vid []
                  eq_refl eq_refl ltac:(discriminate) eq_refl eq_refl).
    discriminate H. }
  split; [vm_compute; reflexivity|]. split; [vm_compute; reflexivity|].
  split; [discriminate|]. vm_compute. reflexivity.
Qed.

(** A [languageCode] that cannot be turned into a string: the constructor
    of the error throws before there is an error of the language. *)
Example language_error_needs_strings :
  selectTrack
    (VObject [(lit "captionTracks",
               VArray [VObject [(lit "baseUrl", VString (lit "https://t/en"));
                                (lit "languageCode",
                                 VObject [(lit "toString", VNumber (lit "1"))])]])])
    (in_language "de") vid
  = Throw (Runtime TypeError).
Proof. reflexivity. Qed.

(** ** C5 *)

(** The document of the specification, as the body of the English track. *)
Lemma fetchTranscript_segments_witness :
  selects Example.numeral_falsy Example.JSON_parse (serve routes_watch)
    vid None [] vid catalog (VString (lit "https://t/en")) [videoPageRequest vid None] /\
  exists found l,
    scan timed_text found /\
    l = VString (lit "en") /\
    run routes_watch vid None
    = (Ok (List.map (segment Example.parseFloat l) found),
       [videoPageRequest vid None]
         ++ [transcriptRequest (VString (lit "https://t/en")) None]).
Proof.
  assert (Hsel : selects Example.numeral_falsy Example.JSON_parse
                   (serve routes_watch) vid None [] vid catalog
                   (VString (lit "https://t/en")) [videoPageRequest vid None]).
  { repeat split; vm_compute; reflexivity. }
  split; [exact Hsel|].
  destruct (proj1 (fetchTranscript_segments
                     Example.number Example.parseFloat Example.numeral_falsy
                     Example.JSON_parse (serve routes_watch)
                     vid None [] vid catalog (VString (lit "https://t/en"))
                     [videoPageRequest vid None] (page timed_text)
                     Hsel eq_refl eq_refl)
              timed_text eq_refl ltac:(discriminate))
    as (found & l & Hscan & _ & [_ Hlang] & Hrun & _).
  exists found, l. split; [exact Hscan|]. split; [|exact Hrun].
  exact (Hlang eq_refl track_en [track_fr] eq_refl).
Defined.

(** The claim as stated fails for the empty body: it holds no element, and
    the call does not return the empty list.  The parser is not reached:
    the fallback runs, and with the player endpoint down the call throws. *)
Lemma empty_body_is_not_parsed :
  scan [] [] /\
  matchAll RE_XML_TRANSCRIPT [] = [] /\
  run routes_player_down vid None
  = (Throw (YoutubeTranscriptNotAvailableError vid),
     [videoPageRequest vid None;
      transcriptRequest (VString (lit "https://t/en")) None;
      InnerTubeApiRequest vid]).
Proof.
  split; [apply scan_end|]. split; vm_compute; reflexivity.
Qed.

(** ** C6 *)

(** An address of the shape [embed/] with the address of a site of eleven
    code units as its [origin]. *)
Lemma embedded_identifier_witness :
  lit "https://www.youtube.com/embed/dQw4w9WgXcQ?origin=https://example.com"
  = lit "https://www." ++ lit "youtube.com/embed/"
      ++ vid ++ lit "?origin=https:/" ++ ch "/" :: lit "example.com" /\
  retrieveVideoId
    (lit "https://www." ++ lit "youtube.com/embed/"
       ++ vid ++ lit "?origin=https:/" ++ ch "/" :: lit "example.com")
  = Ok (lit "example.com") /\
  retrieveVideoId
    (lit "https://www." ++ lit "youtube.com/embed/"
       ++ vid ++ lit "?origin=https:/" ++ ch "/" :: lit "example.com")
  <> Ok vid.
Proof.
  split; [reflexivity|].
  destruct (embedded_identifier_is_passed_over
              (lit "https://www.") vid (lit "?origin=https:/") (lit "example.com")
              eq_refl (conj eq_refl eq_refl) eq_refl (conj eq_refl eq_refl))
    as (Hembed & _ & _ & Hdiff).
  split; [exact Hembed|]. apply Hdiff. discriminate.
Defined.

(** ** C7 *)

Lemma retrieveVideoId_unparseable_witness :
  retrieveVideoId (lit "not a url")
  = Throw (YoutubeTranscriptError (lit "Impossible to retrieve Youtube video ID.")).
Proof.
  exact (proj1 (retrieveVideoId_unparseable (lit "not a url")
                  ltac:(discriminate) eq_refl)).
Defined.

(** The claim as stated fails: what is thrown is an instance of the base
    class, of no class of its own. *)
Lemma unparseable_is_base_error :
  ~ (forall videoId,
       length videoId <> 11 ->
       regex_match RE_YOUTUBE videoId = None ->
       exists e, retrieveVideoId videoId = Throw e /\ is_subclass_instance e = true).
Proof.
  intros H.
  destruct (H (lit "not a url") ltac:(discriminate) eq_refl) as (e & He & Hsub).
  vm_compute in He. inversion He. subst e. discriminate Hsub.
Qed.

(** ** C8 *)

(** The claim as stated fails: in a run that takes the fallback, the POST
    goes to another address than the one the claim gives. *)
Lemma fallback_post_is_not_to_youtubei :
  exists r,
    In r (snd (run (routes_fallback (lit "x")) vid None)) /\
    req_method r = POST /\
    req_url r = VString (lit "https://www.youtube.com/youtubei/v1/player") /\
    req_url r <> VString (lit "https://www.youtubei/v1/player").
Proof.
  exists (InnerTubeApiRequest vid). split; [|split; [|split]].
  - vm_compute. right. right. left. reflexivity.
  - reflexivity.
  - reflexivity.
  - discriminate.
Qed.

(** ** C9 *)

Lemma fetchTranscript_repeatable_witness :
  deterministic_stub (serve (routes_fallback timed_text)) /\
  let first := run (routes_fallback timed_text) vid None in
  let second :=
    fetchTranscript Example.parseFloat Example.numeral_falsy Example.JSON_parse
      (serve (routes_fallback timed_text)) vid None (snd first) in
  fst second = fst first.
Proof.
  assert (H : deterministic_stub (serve (routes_fallback timed_text)))
    by (intros log log' r; reflexivity).
  split; [exact H|].
  exact (proj2 (fetchTranscript_repeatable
                  Example.number Example.parseFloat Example.numeral_falsy
                  Example.JSON_parse (serve (routes_fallback timed_text))
                  vid None H) []).
Defined.

(** ** C10 *)

(** Both tracks are empty. *)
Lemma empty_fallback_body_witness :
  selects Example.numeral_falsy Example.JSON_parse (serve (routes_fallback []))
    vid None [] vid catalog (VString (lit "https://t/en")) [videoPageRequest vid None] /\
  run (routes_fallback []) vid None
  = (Throw (YoutubeTranscriptNotAvailableError vid),
     [videoPageRequest vid None;
      transcriptRequest (VString (lit "https://t/en")) None;
      InnerTubeApiRequest vid;
      innerTubeTranscriptRequest (VString (lit "https://t2/en")) vid None]).
Proof.
  assert (Hsel : selects Example.numeral_falsy Example.JSON_parse
                   (serve (routes_fallback [])) vid None [] vid catalog
                   (VString (lit "https://t/en")) [videoPageRequest vid None]).
  { repeat split; vm_compute; reflexivity. }
  split; [exact Hsel|].
  destruct (empty_fallback_body_is_unavailable
              Example.number Example.parseFloat Example.numeral_falsy
              Example.JSON_parse (serve (routes_fallback []))
              vid None [] vid catalog (VString (lit "https://t/en"))
              [videoPageRequest vid None] (page []) Hsel eq_refl eq_refl)
    as [_ Hfallback].
  destruct (Hfallback eq_refl player_catalog (VString (lit "https://t2/en"))
              [videoPageRequest vid None;
               transcriptRequest (VString (lit "https://t/en")) None;
               InnerTubeApiRequest vid]
              (page []) ltac:(vm_compute; reflexivity) eq_refl eq_refl)
    as [Hempty _].
  exact (Hempty eq_refl).
Defined.

(** The claim as stated fails: the fallback returns the empty list when
    its track is not empty and holds no element. *)
Lemma fallback_returns_empty_list :
  innerTube Example.parseFloat Example.numeral_falsy Example.JSON_parse
    (serve (routes_fallback (lit "x"))) vid None
    [videoPageRequest vid None;
     transcriptRequest (VString (lit "https://t/en")) None]
  = (Ok (Some []),
     [videoPageRequest vid None;
      transcriptRequest (VString (lit "https://t/en")) None;
      InnerTubeApiRequest vid;
      innerTubeTranscriptRequest (VString (lit "https://t2/en")) vid None]) /\
  run (routes_fallback (lit "x")) vid None
  = (Ok [],
     [videoPageRequest vid None;
      transcriptRequest (VString (lit "https://t/en")) None;
      InnerTubeApiRequest vid;
      innerTubeTranscriptRequest (VString (lit "https://t2/en")) vid None]).
Proof. split; vm_compute; reflexivity. Qed.

(** ** Further properties: runs *)

Lemma retrieveVideoId_piece_of_input_witness :
  retrieveVideoId short_address = ok_id "dQw4w9WgXcQ" /\
  exists a b,
    short_address = a ++ vid ++ b /\ length vid = 11 /\
    (length short_address <> 11 -> 9 <= length a /\ forallb id_char vid = true).
Proof.
  split; [vm_compute; reflexivity|].
  exact (retrieveVideoId_piece_of_input short_address vid
           ltac:(vm_compute; reflexivity)).
Defined.

(** The name of a site with an identifier that is too short. *)
Lemma retrieveVideoId_short_input_witness :
  length (lit "youtu.be/abc") < 20 /\
  retrieveVideoId (lit "youtu.be/abc")
  = Throw (YoutubeTranscriptError (lit "Impossible to retrieve Youtube video ID.")).
Proof.
  split; [simpl; lia|].
  exact (retrieveVideoId_short_input (lit "youtu.be/abc")
           ltac:(simpl; lia) ltac:(discriminate)).
Defined.

Lemma retrieveVideoId_idempotent_witness :
  retrieveVideoId short_address = Ok vid /\ retrieveVideoId vid = Ok vid.
Proof.
  assert (H : retrieveVideoId short_address = Ok vid) by (vm_compute; reflexivity).
  split; [exact H|].
  exact (retrieveVideoId_idempotent short_address vid H).
Defined.

Lemma retrieveVideoId_ignores_case_witness :
  retrieveVideoId (lit "HTTPS://" ++ lit "YouTu.BE/" ++ vid ++ lit "?t=1") = Ok vid.
Proof.
  exact (retrieveVideoId_ignores_case (lit "HTTPS://") (lit "YouTu.BE/") vid (lit "?t=1")
           eq_refl eq_refl (conj eq_refl eq_refl)).
Defined.

(** The captcha page of C1: the error is one of the list. *)
Lemma fetchTranscript_errors_witness :
  fst (run [(watch_url vid, page captcha_page)] vid None)
  = Throw (YoutubeTranscriptDisabledError vid) /\
  call_error vid None (YoutubeTranscriptDisabledError vid).
Proof.
  assert (H : fst (run [(watch_url vid, page captcha_page)] vid None)
              = Throw (YoutubeTranscriptDisabledError vid))
    by (vm_compute; reflexivity).
  split; [exact H|].
  exact (proj1 (fetchTranscript_errors
                  Example.number Example.parseFloat Example.numeral_falsy
                  Example.JSON_parse (serve [(watch_url vid, page captcha_page)])
                  vid None [] (YoutubeTranscriptDisabledError vid) H)).
Defined.

Lemma disabled_iff_no_captions_witness :
  locateCaptions Example.JSON_parse (serve [(watch_url vid, page captcha_page)])
    vid vid None []
  = (Ok VNull, [videoPageRequest vid None]) /\
  (fst (run [(watch_url vid, page captcha_page)] vid None)
   = Throw (YoutubeTranscriptDisabledError vid)
   <-> truthy Example.numeral_falsy VNull = false).
Proof.
  assert (H : locateCaptions Example.JSON_parse
                (serve [(watch_url vid, page captcha_page)]) vid vid None []
              = (Ok VNull, [videoPageRequest vid None]))
    by (vm_compute; reflexivity).
  split; [exact H|].
  exact (disabled_iff_no_captions
           Example.number Example.parseFloat Example.numeral_falsy
           Example.JSON_parse (serve [(watch_url vid, page captcha_page)])
           vid None [] vid VNull [videoPageRequest vid None] eq_refl H).
Defined.

(** A network that rejects every request. *)
Lemma unreachable_page_witness :
  run [] vid None
  = (Throw (YoutubeTranscriptDisabledError vid), [videoPageRequest vid None]).
Proof.
  exact (unreachable_page_is_reported_disabled
           Example.number Example.parseFloat Example.numeral_falsy
           Example.JSON_parse (serve []) vid vid None [] eq_refl
           (or_introl eq_refl)).
Defined.

Lemma unparseable_captions_witness :
  includes unparseable_page captions_marker = true /\
  Example.JSON_parse (captionsText unparseable_page) = None /\
  regex_match RE_CAPTIONS unparseable_page = None /\
  run [(watch_url vid, page unparseable_page)] vid None
  = (Throw (YoutubeTranscriptDisabledError vid), [videoPageRequest vid None]).
Proof.
  assert (Hre : regex_match RE_CAPTIONS unparseable_page = None)
    by (vm_compute; reflexivity).
  split; [vm_compute; reflexivity|].
  split; [vm_compute; reflexivity|].
  split; [exact Hre|].
  refine (unparseable_captions_is_reported_disabled
            Example.number Example.parseFloat Example.numeral_falsy
            Example.JSON_parse (serve [(watch_url vid, page unparseable_page)])
            vid vid None [] (page unparseable_page) unparseable_page
            eq_refl eq_refl eq_refl _ _ _).
  - vm_compute. reflexivity.
  - vm_compute. reflexivity.
  - intros altMatch rest H. rewrite Hre in H. discriminate H.
Defined.

Lemma missing_captionTracks_witness :
  locateCaptions Example.JSON_parse (serve [(watch_url vid, page no_tracks_page)])
    vid vid None []
  = (Ok (VObject []), [videoPageRequest vid None]) /\
  run [(watch_url vid, page no_tracks_page)] vid None
  = (Throw (YoutubeTranscriptNotAvailableError vid), [videoPageRequest vid None]).
Proof.
  assert (H : locateCaptions Example.JSON_parse
                (serve [(watch_url vid, page no_tracks_page)]) vid vid None []
              = (Ok (VObject []), [videoPageRequest vid None]))
    by (vm_compute; reflexivity).
  split; [exact H|].
  exact (proj1 (missing_captionTracks_is_not_available
                  Example.number Example.parseFloat Example.numeral_falsy
                  Example.JSON_parse (serve [(watch_url vid, page no_tracks_page)])
                  vid vid None [] [videoPageRequest vid None] (VObject [])
                  eq_refl H
                  (or_introl (ex_intro _ [] (conj eq_refl eq_refl))))).
Defined.

Lemma track_failure_witness :
  selects Example.numeral_falsy Example.JSON_parse (serve routes_track_down)
    vid None [] vid catalog (VString (lit "https://t/en")) [videoPageRequest vid None] /\
  run routes_track_down vid None
  = (Throw (YoutubeTranscriptNotAvailableError vid),
     [videoPageRequest vid None;
      transcriptRequest (VString (lit "https://t/en")) None]).
Proof.
  assert (Hsel : selects Example.numeral_falsy Example.JSON_parse
                   (serve routes_track_down) vid None [] vid catalog
                   (VString (lit "https://t/en")) [videoPageRequest vid None]).
  { repeat split; vm_compute; reflexivity. }
  split; [exact Hsel|].
  exact (proj1 (track_failure
                  Example.number Example.parseFloat Example.numeral_falsy
                  Example.JSON_parse (serve routes_track_down)
                  vid None [] vid catalog (VString (lit "https://t/en"))
                  [videoPageRequest vid None] Hsel)
           {| ok := false; body := Some (lit "Not Found") |} eq_refl eq_refl).
Defined.

(** French is requested: the watch page has a French track, which is
    empty, and the player endpoint has none. *)
Lemma fallback_without_track_witness :
  selects Example.numeral_falsy Example.JSON_parse (serve routes_no_french)
    vid (in_language "fr") [] vid catalog (VString (lit "https://t/fr"))
    [videoPageRequest vid (in_language "fr")] /\
  existsb (fun track => strict_eq (languageCode track) (lit "fr"))
    [VObject [(lit "baseUrl", VString (lit "https://t2/en"));
              (lit "languageCode", VString (lit "en"))]] = false /\
  run routes_no_french vid (in_language "fr")
  = (Throw (YoutubeTranscriptNotAvailableError vid),
     [videoPageRequest vid (in_language "fr");
      transcriptRequest (VString (lit "https://t/fr")) (in_language "fr");
      InnerTubeApiRequest vid]).
Proof.
  assert (Hsel : selects Example.numeral_falsy Example.JSON_parse
                   (serve routes_no_french) vid (in_language "fr") [] vid catalog
                   (VString (lit "https://t/fr"))
                   [videoPageRequest vid (in_language "fr")]).
  { repeat split; vm_compute; reflexivity. }
  split; [exact Hsel|]. split; [reflexivity|].
  refine (fallback_without_track_is_unavailable
            Example.number Example.parseFloat Example.numeral_falsy
            Example.JSON_parse (serve routes_no_french)
            vid (in_language "fr") [] vid catalog (VString (lit "https://t/fr"))
            [videoPageRequest vid (in_language "fr")] (page []) (page player_data)
            player_data
            (VObject [(lit "captions",
                       VObject [(lit "playerCaptionsTracklistRenderer", player_catalog)])])
            player_catalog
            [VObject [(lit "baseUrl", VString (lit "https://t2/en"));
                      (lit "languageCode", VString (lit "en"))]]
            Hsel eq_refl eq_refl eq_refl eq_refl eq_refl eq_refl _ eq_refl eq_refl
            eq_refl
            (or_intror (ex_intro _ (lit "fr") (conj eq_refl eq_refl)))).
  vm_compute. reflexivity.
Defined.

Lemma fallback_results_witness :
  selects Example.numeral_falsy Example.JSON_parse (serve (routes_fallback timed_text))
    vid None [] vid catalog (VString (lit "https://t/en")) [videoPageRequest vid None] /\
  run (routes_fallback timed_text) vid None
  = (Ok [ {| text := lit "Hello"; duration := lit "2.5"; offset := lit "1.0";
             lang_ := VString (lit "en") |};
          {| text := lit "World"; duration := lit "1.0"; offset := lit "3.5";
             lang_ := VString (lit "en") |} ],
     [videoPageRequest vid None;
      transcriptRequest (VString (lit "https://t/en")) None;
      InnerTubeApiRequest vid;
      innerTubeTranscriptRequest (VString (lit "https://t2/en")) vid None]).
Proof.
  assert (Hsel : selects Example.numeral_falsy Example.JSON_parse
                   (serve (routes_fallback timed_text)) vid None [] vid catalog
                   (VString (lit "https://t/en")) [videoPageRequest vid None]).
  { repeat split; vm_compute; reflexivity. }
  split; [exact Hsel|].
  assert (Hloc : innerTubeLocate Example.numeral_falsy Example.JSON_parse
                   (serve (routes_fallback timed_text)) vid None
                   ([videoPageRequest vid None]
                      ++ [transcriptRequest (VString (lit "https://t/en")) None])
                 = (Ok (Some (player_catalog, VString (lit "https://t2/en"))),
                    [videoPageRequest vid None;
                     transcriptRequest (VString (lit "https://t/en")) None;
                     InnerTubeApiRequest vid]))
    by (vm_compute; reflexivity).
  destruct (fallback_results_are_returned
              Example.number Example.parseFloat Example.numeral_falsy
              Example.JSON_parse (serve (routes_fallback timed_text))
              vid None [] vid catalog (VString (lit "https://t/en"))
              [videoPageRequest vid None] (page [])
              player_catalog (VString (lit "https://t2/en"))
              [videoPageRequest vid None;
               transcriptRequest (VString (lit "https://t/en")) None;
               InnerTubeApiRequest vid]
              (page timed_text) timed_text
              Hsel eq_refl eq_refl eq_refl Hloc eq_refl eq_refl eq_refl
              ltac:(discriminate)) as [H _].
  unfold run. rewrite H. vm_compute. reflexivity.
Defined.

(** The captcha page, asked for with an address and with the identifier. *)
Lemma address_or_identifier_witness :
  retrieveVideoId short_address = Ok vid /\
  run [(watch_url vid, page captcha_page)] short_address None
  = (Throw (YoutubeTranscriptDisabledError short_address), [videoPageRequest vid None]) /\
  run [(watch_url vid, page captcha_page)] vid None
  = (Throw (YoutubeTranscriptDisabledError vid), [videoPageRequest vid None]).
Proof.
  assert (Hid : retrieveVideoId short_address = Ok vid) by (vm_compute; reflexivity).
  assert (Hrun : run [(watch_url vid, page captcha_page)] short_address None
                 = (Throw (YoutubeTranscriptDisabledError short_address),
                    [videoPageRequest vid None]))
    by (vm_compute; reflexivity).
  split; [exact Hid|]. split; [exact Hrun|].
  pose proof (address_or_identifier
                Example.number Example.parseFloat Example.numeral_falsy
                Example.JSON_parse (serve [(watch_url vid, page captcha_page)])
                short_address vid None [] Hid) as H.
  cbv zeta in H. unfold run. rewrite H. unfold run in Hrun. rewrite Hrun.
  reflexivity.
Defined.

(** The document of the specification, written from its two elements. *)
Lemma parseTranscript_document_witness :
  document [] [(lit "1.0", lit "2.5", lit "Hello"); (lit "3.5", lit "1.0", lit "World")]
  = timed_text /\
  parseTranscript Example.parseFloat timed_text None catalog
  = Ok [ {| text := lit "Hello"; duration := lit "2.5"; offset := lit "1.0";
            lang_ := VString (lit "en") |};
         {| text := lit "World"; duration := lit "1.0"; offset := lit "3.5";
            lang_ := VString (lit "en") |} ].
Proof.
  split; [vm_compute; reflexivity|].
  exact (parseTranscript_document Example.number Example.parseFloat []
           [(lit "1.0", lit "2.5", lit "Hello"); (lit "3.5", lit "1.0", lit "World")]
           None catalog (VString (lit "en")) eq_refl eq_refl eq_refl).
Defined.

(** The run of the specification, asked for with an address. *)
Lemma successful_call_witness :
  fst (run routes_watch short_address None)
  = Ok [ {| text := lit "Hello"; duration := lit "2.5"; offset := lit "1.0";
            lang_ := VString (lit "en") |};
         {| text := lit "World"; duration := lit "1.0"; offset := lit "3.5";
            lang_ := VString (lit "en") |} ] /\
  exists identifier u,
    retrieveVideoId short_address = Ok identifier /\
    (snd (run routes_watch short_address None)
     = [] ++ [videoPageRequest identifier None; transcriptRequest u None] \/
     exists u',
       snd (run routes_watch short_address None)
       = [] ++ [videoPageRequest identifier None; transcriptRequest u None;
                InnerTubeApiRequest identifier;
                innerTubeTranscriptRequest u' identifier None]).
Proof.
  assert (H : fst (run routes_watch short_address None)
              = Ok [ {| text := lit "Hello"; duration := lit "2.5";
                        offset := lit "1.0"; lang_ := VString (lit "en") |};
                     {| text := lit "World"; duration := lit "1.0";
                        offset := lit "3.5"; lang_ := VString (lit "en") |} ])
    by (vm_compute; reflexivity).
  split; [exact H|].
  exact (successful_call_requests
           Example.number Example.parseFloat Example.numeral_falsy
           Example.JSON_parse (serve routes_watch) short_address None [] _ H).
Defined.
